(** * general/hash.hpp: HashTable, a chained hash table keyed by unordered
      pairs or quadruples of ints, with dense item ids and an iterator.

    The table is embedded with an explicit free store: an [ItemT*] is an
    address ([None] is NULL), the store maps the addresses of the items that
    are alive to their fields, and [next] links and the [id_to_item] slots
    alias the same addresses, as in the C++ code. *)

From stdpp Require Import gmap list strings sorting.
From Stdlib Require Import ZArith Lia Sorting.Sorted.

Local Open Scope Z_scope.

(** ** 32-bit signed arithmetic (the C++ [int]) *)

Module Int32.
Definition modulus : Z := 2 ^ 32.
Definition half : Z := 2 ^ 31.
Definition INT_MAX : Z := half - 1.
Definition INT_MIN : Z := - half.

(** Two's complement wrap-around into [INT_MIN, INT_MAX]. *)
Definition wrap (x : Z) : Z := (x + half) mod modulus - half.

Definition add (x y : Z) : Z := wrap (x + y).
Definition sub (x y : Z) : Z := wrap (x - y).
Definition mul (x y : Z) : Z := wrap (x * y).

Definition in_range (x : Z) : Prop := INT_MIN <= x <= INT_MAX.
End Int32.

(** ** Outcomes of a call

    [Ok a s]: the call returns [a] and leaves the state [s].
    [Fatal msg s]: the call reached [mfem_error(msg)] in state [s].
    [Undefined]: the call indexes an array out of its bounds or dereferences
    a pointer to no live item.
    [Diverges]: a loop of the call walks a cyclic chain and never exits. *)

Inductive Outcome (S A : Type) : Type :=
| Ok (a : A) (s : S)
| Fatal (msg : string) (s : S)
| Undefined
| Diverges.
Arguments Ok {S A} a s.
Arguments Fatal {S A} msg s.
Arguments Undefined {S A}.
Arguments Diverges {S A}.

(** Modelled from the spec: general/error.hpp is not among the sources;
    [mfem_error] is the fatal, unrecoverable abort of the spec's error
    taxonomy: the call that reaches it stops there. *)
Definition mfem_error {S A : Type} (msg : string) (s : S) : Outcome S A :=
  Fatal msg s.

(** ** Array<T> (general/array.hpp, not among the sources)

    Modelled from the spec: a growable array, [Size], [Append], unchecked
    [operator[]] and [SetSize(n, init)], which fills the new slots with
    [init]. An access out of the bounds has no defined result: [index]
    returns [None] there. *)

Definition index {A : Type} (l : list A) (i : Z) : option A :=
  if decide (0 <= i) then l !! Z.to_nat i else None.

Definition assign {A : Type} (l : list A) (i : Z) (x : A) : list A :=
  <[Z.to_nat i := x]> l.

Definition Size {A : Type} (l : list A) : Z := Z.of_nat (length l).

Definition Append {A : Type} (l : list A) (x : A) : list A := l ++ [x].

Definition SetSize {A : Type} (l : list A) (n : Z) (init : A) : list A :=
  take (Z.to_nat n) l ++ replicate (Z.to_nat n - length l)%nat init.

(** ** IdGenerator (general/idgenerator.hpp, not among the sources)

    Modelled from the spec: the identifier allocator hands out small dense
    non-negative integers, [Get] allocates and [Reuse] releases; a released
    id is handed out again before a new one is made (the spec's scenario:
    after ids 0 and 1 are out and 0 is released, the next [Get] is 0). *)

Record IdGenerator : Type := {
  next_id : Z;
  reusable : list Z
}.

Definition IdGenerator_new : IdGenerator :=
  {| next_id := 0; reusable := [] |}.

Definition IdGenerator_Get (g : IdGenerator) : Z * IdGenerator :=
  match reusable g with
  | i :: r => (i, {| next_id := next_id g; reusable := r |})
  | [] => (next_id g, {| next_id := next_id g + 1; reusable := [] |})
  end.

Definition IdGenerator_Reuse (i : Z) (g : IdGenerator) : IdGenerator :=
  {| next_id := next_id g; reusable := i :: reusable g |}.

(** ** Items and the Hashed2 / Hashed4 concepts

    An item has an [id], its stored parents and a [next] link. [Key] is the
    tuple of stored parents: [(p1, p2)] for Hashed2 and [(p1, p2, p3)] for
    Hashed4 (p4 is neither hashed nor stored). *)

Definition addr : Type := nat.

Record ItemT (Key : Type) : Type := {
  id : Z;
  key : Key;
  next : option addr
}.
Arguments id {Key} _.
Arguments key {Key} _.
Arguments next {Key} _.

(** The part of the concept the table uses: the [hash] overload for the
    item (one for a Hashed2 item and one for a Hashed4 item), which reads
    the [mask] of the table, and the comparison of the stored parents
    done in [SearchList]. *)
Class Hashed (Key : Type) : Type := {
  hash : Z -> Key -> Z;
  Hashed_eq_dec :: EqDecision Key
}.

(** [(984120265*p1 + 125965121*p2) & mask] *)
Definition hash2 (mask p1 p2 : Z) : Z :=
  Z.land (Int32.add (Int32.mul 984120265 p1) (Int32.mul 125965121 p2)) mask.

(** [(984120265*p1 + 125965121*p2 + 495698413*p3) & mask] *)
Definition hash3 (mask p1 p2 p3 : Z) : Z :=
  Z.land (Int32.add (Int32.add (Int32.mul 984120265 p1)
                               (Int32.mul 125965121 p2))
                    (Int32.mul 495698413 p3)) mask.

#[export] Instance Hashed2 : Hashed (Z * Z) :=
  {| hash m k := hash2 m k.1 k.2 |}.

#[export] Instance Hashed4 : Hashed (Z * Z * Z) :=
  {| hash m k := hash3 m k.1.1 k.1.2 k.2 |}.

(** ** The table *)

Record HashTable (Key : Type) : Type := {
  table : list (option addr);
  mask : Z;
  id_gen : IdGenerator;
  id_to_item : list (option addr);
  used_bins : list Z;
  new_bin : list bool;
  nqueries : Z;
  ncollisions : Z;
  (** the items allocated with [new] and not yet deleted *)
  store : gmap addr (ItemT Key)
}.
Arguments table {Key} _.
Arguments mask {Key} _.
Arguments id_gen {Key} _.
Arguments id_to_item {Key} _.
Arguments used_bins {Key} _.
Arguments new_bin {Key} _.
Arguments nqueries {Key} _.
Arguments ncollisions {Key} _.
Arguments store {Key} _.

(** [detail::sort3] and [detail::sort4], on values instead of references. *)
Module detail.
Definition sort3 (a b c : Z) : Z * Z * Z :=
  let '(a, b) := if decide (a > b) then (b, a) else (a, b) in
  let '(a, c) := if decide (a > c) then (c, a) else (a, c) in
  let '(b, c) := if decide (b > c) then (c, b) else (b, c) in
  (a, b, c).

Definition sort4 (a b c d : Z) : Z * Z * Z * Z :=
  let '(a, b) := if decide (a > b) then (b, a) else (a, b) in
  let '(a, c) := if decide (a > c) then (c, a) else (a, c) in
  let '(a, d) := if decide (a > d) then (d, a) else (a, d) in
  let '(b, c, d) := sort3 b c d in
  (a, b, c, d).
End detail.

Section Table.
Context {Key : Type} `{!Hashed Key}.

Abbreviation Item := (ItemT Key).
Abbreviation Table := (HashTable Key).

Definition set_counters (nq nc : Z) (t : Table) : Table :=
  {| table := table t; mask := mask t; id_gen := id_gen t;
     id_to_item := id_to_item t; used_bins := used_bins t;
     new_bin := new_bin t; nqueries := nq; ncollisions := nc;
     store := store t |}.

(** *** Constructor, lines 172-186 *)
Definition HashTable_new (size : Z) : Outcome unit Table :=
  let mask := Int32.sub size 1 in
  if decide (Z.land size mask <> 0) then
    mfem_error "Hash table size must be a power of two." tt
  else if decide (size < 0) then
    Undefined (* operator new[] with a negative length *)
  else
    Ok {| table := replicate (Z.to_nat size) None;
          mask := mask;
          id_gen := IdGenerator_new;
          id_to_item := [];
          used_bins := [];
          new_bin := replicate (Z.to_nat size) true;
          nqueries := 0;
          ncollisions := 0;
          store := ∅ |} tt.

(** *** SearchList, lines 309-333

    The two overloads differ in the number of parents they compare; [k]
    is the tuple of parents looked for. The loop walks the chain from
    [item]; a chain without a cycle has at most as many items as the
    store, which bounds the iterations of a walk that ends. *)
Fixpoint SearchList_loop (fuel : nat) (item : option addr) (k : Key)
    (t : Table) : Outcome Table (option addr) :=
  match fuel with
  | O => Diverges
  | S fuel =>
    match item with
    | None => Ok None t
    | Some a =>
      match store t !! a with
      | None => Undefined
      | Some it =>
        if decide (key it = k) then Ok (Some a) t
        else SearchList_loop fuel (next it) k
               (set_counters (nqueries t) (Int32.add (ncollisions t) 1) t)
      end
    end
  end.

Definition SearchList (item : option addr) (k : Key) (t : Table)
    : Outcome Table (option addr) :=
  SearchList_loop (S (size (store t))) item k
    (set_counters (Int32.add (nqueries t) 1) (ncollisions t) t).

(** *** Peek, lines 226-238, after the parents are put in order *)
Definition Peek_key (k : Key) (t : Table) : Outcome Table (option addr) :=
  match index (table t) (hash (mask t) k) with
  | None => Undefined
  | Some head => SearchList head k t
  end.

(** [Peek(int id)], line 111 *)
Definition Peek_id (i : Z) (t : Table) : Outcome Table (option addr) :=
  match index (id_to_item t) i with
  | None => Undefined
  | Some p => Ok p t
  end.

(** *** Get, lines 240-307, after the parents are put in order

    [create] is the part after "not found - create a new one": the new
    item gets its id from the generator and an address no live item has,
    is linked in front of the chain of bin [idx], the bin is appended to
    [used_bins] when it is new, and the id is mapped to the item. *)
Definition create (idx : Z) (k : Key) (t : Table) : Outcome Table addr :=
  let '(newid, g) := IdGenerator_Get (id_gen t) in
  let newitem := fresh (dom (store t)) in
  match index (table t) idx, index (new_bin t) idx with
  | Some head, Some fresh_bin =>
    let ids :=
      if decide (Size (id_to_item t) <= newid)
      then SetSize (id_to_item t) (newid + 1) None
      else id_to_item t in
    match index ids newid with
    | None => Undefined
    | Some _ =>
      Ok newitem
         {| table := assign (table t) idx (Some newitem);
            mask := mask t;
            id_gen := g;
            id_to_item := assign ids newid (Some newitem);
            used_bins :=
              if fresh_bin then Append (used_bins t) idx else used_bins t;
            new_bin :=
              if fresh_bin then assign (new_bin t) idx false else new_bin t;
            nqueries := nqueries t;
            ncollisions := ncollisions t;
            store :=
              <[newitem := {| id := newid; key := k; next := head |}]>
                (store t) |}
    end
  | _, _ => Undefined
  end.

Definition Get_key (k : Key) (t : Table) : Outcome Table addr :=
  let idx := hash (mask t) k in
  match index (table t) idx with
  | None => Undefined
  | Some head =>
    match SearchList head k t with
    | Ok (Some node) t' => Ok node t'
    | Ok None t' => create idx k t'
    | Fatal msg s => Fatal msg s
    | Undefined => Undefined
    | Diverges => Diverges
    end
  end.

(** *** Delete, lines 335-361

    [ptr] of the source points either to a slot of [table] or to the
    [next] field of an item. *)
Inductive link : Type :=
| TableSlot (idx : Z)
| NextField (a : addr).

Definition read_link (t : Table) (ptr : link) : option (option addr) :=
  match ptr with
  | TableSlot idx => index (table t) idx
  | NextField a => next <$> store t !! a
  end.

Definition write_link (ptr : link) (v : option addr) (t : Table) : Table :=
  {| table := match ptr with
              | TableSlot idx => assign (table t) idx v
              | NextField _ => table t
              end;
     mask := mask t; id_gen := id_gen t; id_to_item := id_to_item t;
     used_bins := used_bins t; new_bin := new_bin t;
     nqueries := nqueries t; ncollisions := ncollisions t;
     store := match ptr with
              | TableSlot _ => store t
              | NextField a =>
                alter (fun it => {| id := id it; key := key it; next := v |})
                      a (store t)
              end |}.

Fixpoint Delete_loop (fuel : nat) (ptr : link) (item : addr) (t : Table)
    : Outcome Table unit :=
  match fuel with
  | O => Diverges
  | S fuel =>
    match read_link t ptr with
    | None => Undefined
    | Some None => mfem_error "HashTable<>::Delete: item not found!" t
    | Some (Some a) =>
      if decide (a = item) then
        match store t !! item with
        | None => Undefined
        | Some it => Ok tt (write_link ptr (next it) t)
        end
      else Delete_loop fuel (NextField a) item t
    end
  end.

Definition Delete (item : addr) (t : Table) : Outcome Table unit :=
  match store t !! item with
  | None => Undefined
  | Some it =>
    let idx := hash (mask t) (key it) in
    match Delete_loop (S (size (store t))) (TableSlot idx) item t with
    | Ok _ t' =>
      match index (id_to_item t') (id it) with
      | None => Undefined
      | Some _ =>
        Ok tt {| table := table t'; mask := mask t';
                 id_gen := IdGenerator_Reuse (id it) (id_gen t');
                 id_to_item := assign (id_to_item t') (id it) None;
                 used_bins := used_bins t'; new_bin := new_bin t';
                 nqueries := nqueries t'; ncollisions := ncollisions t';
                 store := delete item (store t') |}
      end
    | other => other
    end
  end.

(** [Delete(int id)], line 115 *)
Definition Delete_id (i : Z) (t : Table) : Outcome Table unit :=
  match Peek_id i t with
  | Ok (Some item) t' => Delete item t'
  | Ok None _ => Undefined (* hash(NULL) dereferences a null pointer *)
  | Fatal msg s => Fatal msg s
  | Undefined => Undefined
  | Diverges => Diverges
  end.

(** *** Iterator, lines 117-136 and 363-384 *)
Record Iterator : Type := {
  next_bin : Z;
  cur_item : option addr
}.

(** The [while] loop of [next]: each turn reads one entry of [used_bins],
    so it ends within [Size used_bins] turns from a non-negative
    [next_bin]. *)
Fixpoint next_switch (fuel : nat) (t : Table) (it : Iterator)
    : Outcome Iterator unit :=
  match fuel with
  | O => Diverges
  | S fuel =>
    match cur_item it with
    | Some _ => Ok tt it
    | None =>
      if decide (next_bin it < Size (used_bins t)) then
        match index (used_bins t) (next_bin it) with
        | None => Undefined
        | Some b =>
          match index (table t) b with
          | None => Undefined
          | Some head =>
            next_switch fuel t
              {| next_bin := next_bin it + 1; cur_item := head |}
          end
        end
      else Ok tt it
    end
  end.

Definition Iterator_next (t : Table) (it : Iterator)
    : Outcome Iterator unit :=
  if decide (next_bin it >= Size (used_bins t)) then
    (* no more bins to visit, finish *)
    Ok tt {| next_bin := next_bin it; cur_item := None |}
  else
    match
      match cur_item it with
      | None => Some None
      | Some a => next <$> store t !! a
      end
    with
    | None => Undefined
    | Some cur =>
      next_switch (S (length (used_bins t))) t
        {| next_bin := next_bin it; cur_item := cur |}
    end.

Definition Iterator_new (t : Table) : Outcome Iterator unit :=
  Iterator_next t {| next_bin := 0; cur_item := None |}.

(** [for (Iterator it(table); it; ++it)]: the items the loop visits, in
    the order it visits them. *)
Fixpoint Iterator_collect (fuel : nat) (t : Table) (it : Iterator)
    : Outcome Iterator (list addr) :=
  match fuel with
  | O => Diverges
  | S fuel =>
    match cur_item it with
    | None => Ok [] it
    | Some a =>
      match Iterator_next t it with
      | Ok _ it' =>
        match Iterator_collect fuel t it' with
        | Ok l it'' => Ok (a :: l) it''
        | other => other
        end
      | Fatal msg s => Fatal msg s
      | Undefined => Undefined
      | Diverges => Diverges
      end
    end
  end.

Definition visited (t : Table) : Outcome Iterator (list addr) :=
  match Iterator_new t with
  | Ok _ it => Iterator_collect (S (size (store t))) t it
  | Fatal msg s => Fatal msg s
  | Undefined => Undefined
  | Diverges => Diverges
  end.

(** *** Destructor, lines 188-205

    The output of the destructor is the list of the warnings it prints;
    the state it leaves is the store, with the items it did not delete. *)
Inductive Diagnostic : Type :=
| CollisionWarning (ncollisions nqueries : Z).

Fixpoint delete_all (fuel : nat) (t : Table) (it : Iterator)
    (st : gmap addr Item) : Outcome (gmap addr Item) unit :=
  match fuel with
  | O => Diverges
  | S fuel =>
    match cur_item it with
    | None => Ok tt st
    | Some tmp =>
      match Iterator_next
              {| table := table t; mask := mask t; id_gen := id_gen t;
                 id_to_item := id_to_item t; used_bins := used_bins t;
                 new_bin := new_bin t; nqueries := nqueries t;
                 ncollisions := ncollisions t; store := st |} it with
      | Ok _ it' =>
        match st !! tmp with
        | None => Undefined
        | Some _ => delete_all fuel t it' (delete tmp st)
        end
      | _ => Undefined
      end
    end
  end.

Definition warning (t : Table) : list Diagnostic :=
  if decide (ncollisions t > Int32.mul 3 (nqueries t))
  then [CollisionWarning (ncollisions t) (nqueries t)]
  else [].

Definition HashTable_destroy (t : Table)
    : Outcome (gmap addr Item) (list Diagnostic) :=
  match Iterator_new t with
  | Ok _ it =>
    match delete_all (S (size (store t))) t it (store t) with
    | Ok _ st => Ok (warning t) st
    | Fatal msg s => Fatal msg s
    | Undefined => Undefined
    | Diverges => Diverges
    end
  | _ => Undefined
  end.

End Table.

(** *** The public overloads on ints *)

(** [if (p1 > p2) std::swap(p1, p2)] *)
Definition order2 (p1 p2 : Z) : Z * Z :=
  if decide (p1 > p2) then (p2, p1) else (p1, p2).

(** The three parents left of [sort4]; p4 is dropped. *)
Definition order4 (p1 p2 p3 p4 : Z) : Z * Z * Z :=
  let '(a, b, c, _) := detail.sort4 p1 p2 p3 p4 in (a, b, c).

Definition Peek2 (p1 p2 : Z) (t : HashTable (Z * Z)) :=
  Peek_key (order2 p1 p2) t.

Definition Get2 (p1 p2 : Z) (t : HashTable (Z * Z)) :=
  Get_key (order2 p1 p2) t.

Definition Peek4 (p1 p2 p3 p4 : Z) (t : HashTable (Z * Z * Z)) :=
  Peek_key (order4 p1 p2 p3 p4) t.

Definition Get4 (p1 p2 p3 p4 : Z) (t : HashTable (Z * Z * Z)) :=
  Get_key (order4 p1 p2 p3 p4) t.

(** *** The item pointer variants, lines 93-108

    [Get(OtherT* i1, OtherT* i2)] is [Get(i1->id, i2->id)], and the same
    for [Peek]; [others] is the store the two pointers point into, the
    items of another table. *)
Definition Get2_items {K : Type} (others : gmap addr (ItemT K))
    (i1 i2 : addr) (t : HashTable (Z * Z)) : Outcome (HashTable (Z * Z)) addr :=
  match others !! i1, others !! i2 with
  | Some x1, Some x2 => Get2 (id x1) (id x2) t
  | _, _ => Undefined
  end.

Definition Peek2_items {K : Type} (others : gmap addr (ItemT K))
    (i1 i2 : addr) (t : HashTable (Z * Z))
    : Outcome (HashTable (Z * Z)) (option addr) :=
  match others !! i1, others !! i2 with
  | Some x1, Some x2 => Peek2 (id x1) (id x2) t
  | _, _ => Undefined
  end.


(** * dev/finite_elements_h1.hpp: the shape matrix and the gradient tensor
      of an H1 element, and the constants of the element classes

    [real_t] is the template parameter of the functions; its values are
    only copied. The element and the integration rule (fem/fe.hpp and
    fem/intrules.hpp, not among the sources) enter through what the
    functions read from them: [nip] is [ir.GetNPoints()], [dof] is
    [fe.GetDof()], [dim] is [fe.GetDim()], [CalcShape ip] is the vector
    that [fe.CalcShape(ir.IntPoint(ip), shape)] leaves in [shape], and
    [CalcDShape ip i d] is the entry [dshape(i, d)] that
    [fe.CalcDShape(ir.IntPoint(ip), dshape)] leaves in [dshape], [None]
    outside the matrix. [B] and [G] are the arrays behind the pointers;
    a read or a write outside an array, and an overflow of the [int]
    arithmetic of an index, have no defined result: [None]. *)

Module FiniteElementsH1.

(** The value of an [int] expression, when it does not overflow. *)
Definition int (x : Z) : option Z :=
  if decide (Int32.INT_MIN <= x <= Int32.INT_MAX) then Some x else None.

(** [n] rounds of the body of a loop whose counter is at [i]. *)
Fixpoint for_loop {T : Type} (n : nat) (i : Z) (body : Z -> T -> option T)
    (s : T) : option T :=
  match n with
  | O => Some s
  | S n =>
    match body i s with
    | None => None
    | Some s' => for_loop n (i + 1) body s'
    end
  end.

(** [for (int i = 0; i < n; i++) body] *)
Definition for_upto {T : Type} (n : Z) (body : Z -> T -> option T) (s : T)
    : option T :=
  for_loop (Z.to_nat n) 0 body s.

(** [B[j] = x] *)
Definition store_at {A : Type} (B : list A) (j : Z) (x : A)
    : option (list A) :=
  match index B j with
  | None => None
  | Some _ => Some (assign B j x)
  end.

(** The entry [id] of [dof_map], or [id] when [dof_map] is NULL. *)
Definition orig_id (dof_map : option (list Z)) (id : Z) : option Z :=
  match dof_map with
  | None => Some id
  | Some m => index m id
  end.

Section Shapes.
Context {real_t : Type}.

(** [CalcShapeMatrix], lines 23-42 *)
Definition CalcShapeMatrix (nip dof : Z) (CalcShape : Z -> list real_t)
    (dof_map : option (list Z)) (B : list real_t) : option (list real_t) :=
  for_upto nip (fun ip B =>
    let shape := CalcShape ip in
    for_upto dof (fun id B =>
      o ← orig_id dof_map id;
      x ← index shape o;
      m ← int (nip * id);
      j ← int (ip + m);
      store_at B j x) B) B.

(** [CalcGradTensor], lines 44-67 *)
Definition CalcGradTensor (dim nip dof : Z)
    (CalcDShape : Z -> Z -> Z -> option real_t)
    (dof_map : option (list Z)) (G : list real_t) : option (list real_t) :=
  for_upto nip (fun ip G =>
    let dshape := CalcDShape ip in
    for_upto dof (fun id G =>
      o ← orig_id dof_map id;
      for_upto dim (fun d G =>
        x ← dshape o d;
        m1 ← int (dim * id);
        m2 ← int (d + m1);
        m3 ← int (nip * m2);
        j ← int (ip + m3);
        store_at G j x) G) G) G.

End Shapes.

(** [filled f W B]: the entries of [B] at the places in [W] are the values
    that [f] gives. *)
Definition filled {A : Type} (f : Z -> option A) (W : Z -> Prop)
    (B : list A) : Prop :=
  forall j, 0 <= j < Size B -> W j -> index B j = f j.

(** The five geometries with an [H1_FiniteElement] class. *)
Inductive Geometry : Type :=
| SEGMENT | TRIANGLE | SQUARE | TETRAHEDRON | CUBE.

(** The constant [dofs] of [H1_FiniteElement<G, P>]: a constant expression
    of type [int], evaluated from the left; the division is the one of
    C++, which truncates. An expression with a sum or a product that
    overflows [int] is not a constant expression, and the class is not
    compiled: [None]. *)
Definition dofs (g : Geometry) (P : Z) : option Z :=
  match g with
  | SEGMENT => int (P + 1)
  | TRIANGLE =>
    a ← int (P + 1); b ← int (P + 2); m ← int (a * b);
    Some (Z.quot m 2)
  | SQUARE =>
    a ← int (P + 1); int (a * a)
  | TETRAHEDRON =>
    a ← int (P + 1); b ← int (P + 2); m ← int (a * b);
    c ← int (P + 3); n ← int (m * c);
    Some (Z.quot n 6)
  | CUBE =>
    a ← int (P + 1); m ← int (a * a); int (m * a)
  end.

End FiniteElementsH1.

(** * Vocabulary of the properties *)

Definition is_power_of_two (n : Z) : Prop := exists k, 0 <= k /\ n = 2 ^ k.

(** The three smallest of four values, in ascending order, as the spec
    words the stored parents of a quadruple. *)
Definition three_smallest (p1 p2 p3 p4 : Z) : list Z :=
  take 3 (merge_sort Z.le [p1; p2; p3; p4]).

(** The bound every hash overload meets: [& mask] with a non-negative
    mask leaves an index between 0 and the mask. *)
Class HashedLaws (Key : Type) `{!Hashed Key} : Prop := {
  hash_range : forall m k, 0 <= m -> 0 <= hash m k <= m
}.

Section Vocabulary.
Context {Key : Type} `{!Hashed Key}.

Abbreviation Item := (ItemT Key).
Abbreviation Table := (HashTable Key).

(** [is_chain st p l]: following [next] from [p] in the store [st] passes
    the items at the addresses [l], in this order, and then reaches NULL. *)
Inductive is_chain (st : gmap addr Item) : option addr -> list addr -> Prop :=
| is_chain_nil : is_chain st None []
| is_chain_cons a it l :
    st !! a = Some it -> is_chain st (next it) l ->
    is_chain st (Some a) (a :: l).

(** The chain of bin [i] of the table. *)
Definition bin_chain (t : Table) (i : Z) (l : list addr) : Prop :=
  exists head, index (table t) i = Some head /\ is_chain (store t) head l.

(** The bin the stored parents of an item hash to. *)
Definition bin_of (t : Table) (it : Item) : Z := hash (mask t) (key it).

(** [live t a it]: the item at address [a] is alive, with the fields [it]. *)
Definition live (t : Table) (a : addr) (it : Item) : Prop :=
  store t !! a = Some it.


Fixpoint SearchList_advances (fuel : nat) (item : option addr) (k : Key)
    (st : gmap addr Item) : nat :=
  match fuel with
  | O => O
  | S fuel =>
    match item with
    | None => O
    | Some a =>
      match st !! a with
      | None => O
      | Some it =>
        if decide (key it = k) then O
        else S (SearchList_advances fuel (next it) k st)
      end
    end
  end.

(** The invariant of the table. *)
Record Inv (t : Table) : Prop := {
  inv_mask : Size (table t) = mask t + 1;
  inv_new_bin : length (new_bin t) = length (table t);
  (** every bin heads a chain of live items that hash to the bin *)
  inv_chains : forall i head, index (table t) i = Some head ->
    exists l, is_chain (store t) head l /\
      forall a, a ∈ l -> exists it, live t a it /\ bin_of t it = i;
  (** every live item is in the chain of the bin it hashes to *)
  inv_live : forall a it, live t a it ->
    exists l, bin_chain t (bin_of t it) l /\ a ∈ l;
  (** no two live items have the same stored parents *)
  inv_keys : forall a b ia ib,
    live t a ia -> live t b ib -> key ia = key ib -> a = b;
  (** the slot of the id of a live item points to the item *)
  inv_ids : forall a it, live t a it ->
    index (id_to_item t) (id it) = Some (Some a);
  (** a slot that is set points to a live item with this id *)
  inv_slots : forall i a, index (id_to_item t) i = Some (Some a) ->
    exists it, live t a it /\ id it = i;
  (** the ids of the live items are out, the reusable ones are not *)
  inv_gen_live : forall a it, live t a it ->
    0 <= id it < next_id (id_gen t) /\ id it ∉ reusable (id_gen t);
  inv_gen_free : forall i, i ∈ reusable (id_gen t) ->
    0 <= i < next_id (id_gen t);
  inv_gen_nodup : NoDup (reusable (id_gen t));
  inv_gen_next : 0 <= next_id (id_gen t);
  (** the used bins are bins of the table, each listed once, and a bin
      flagged as new is not among them *)
  inv_used_range : forall b, b ∈ used_bins t -> 0 <= b < Size (table t);
  inv_used_nodup : NoDup (used_bins t);
  inv_used_new : forall b, index (new_bin t) b = Some true ->
    b ∉ used_bins t
}.

(** The link that points to the item after the items [l1] of the chain
    that starts at [ptr]. *)
Definition link_after (ptr : link) (l1 : list addr) : link :=
  match last l1 with
  | Some a => NextField a
  | None => ptr
  end.

Definition set_next (v : option addr) (it : Item) : Item :=
  {| id := id it; key := key it; next := v |}.

(** The order in which a new iterator visits the items, given the
    chains of the used bins in the order of [used_bins]: the chains one
    after the other, but of the chain of the last used bin only the
    head. *)
Fixpoint visit_order (chains : list (list addr)) : list addr :=
  match chains with
  | [] => []
  | c :: rest =>
    match rest with
    | [] => take 1 c
    | _ :: _ => c ++ visit_order rest
    end
  end.

(** The iterator at the head of the first chain that is not empty, or
    behind the last bin when all chains are empty; [j] is the index in
    [used_bins] of the first chain. *)
Fixpoint land (chains : list (list addr)) (j : Z) : Iterator :=
  match chains with
  | [] => {| next_bin := j; cur_item := None |}
  | [] :: rest => land rest (j + 1)
  | (a :: _) :: _ => {| next_bin := j + 1; cur_item := Some a |}
  end.

(** The used bins from position [j] on, with their chains. *)
Definition chains_from (t : Table) (j : nat) (R : list (list addr)) : Prop :=
  Forall2 (bin_chain t) (drop j (used_bins t)) R.

(** [touched t]: a bin whose flag [new_bin] is cleared is listed in
    [used_bins], and so is the bin of every live item. *)
Definition touched (t : Table) : Prop :=
  (forall i, index (new_bin t) i = Some false -> i ∈ used_bins t) /\
  (forall a it, live t a it -> bin_of t it ∈ used_bins t).

(** [same_but_counters t t']: [t'] is [t] but for the two counters. *)
Definition same_but_counters (t t' : Table) : Prop :=
  t' = set_counters (nqueries t') (ncollisions t') t.

End Vocabulary.

(** The states of a table of pairs that calls of the public interface
    reach from a constructed table. *)
Inductive Reachable2 : HashTable (Z * Z) -> Prop :=
| Reachable2_new size t :
    Int32.in_range size -> HashTable_new size = Ok t tt -> Reachable2 t
| Reachable2_Get p1 p2 t a t' :
    Reachable2 t -> Get2 p1 p2 t = Ok a t' -> Reachable2 t'
| Reachable2_Peek p1 p2 t r t' :
    Reachable2 t -> Peek2 p1 p2 t = Ok r t' -> Reachable2 t'
| Reachable2_Delete item t t' :
    Reachable2 t -> Delete item t = Ok tt t' -> Reachable2 t'.

(** The same for a table of quadruples. *)
Inductive Reachable4 : HashTable (Z * Z * Z) -> Prop :=
| Reachable4_new size t :
    Int32.in_range size -> HashTable_new size = Ok t tt -> Reachable4 t
| Reachable4_Get p1 p2 p3 p4 t a t' :
    Reachable4 t -> Get4 p1 p2 p3 p4 t = Ok a t' -> Reachable4 t'
| Reachable4_Peek p1 p2 p3 p4 t r t' :
    Reachable4 t -> Peek4 p1 p2 p3 p4 t = Ok r t' -> Reachable4 t'
| Reachable4_Delete item t t' :
    Reachable4 t -> Delete item t = Ok tt t' -> Reachable4 t'.


(** * The tables of the examples

    A table of four bins, as in the scenario of the spec: [Get(5,2)] makes
    item A with the parents (2,5) and the id 0; the pairs (0,1) and (2,3)
    both hash to bin 1. *)

Module Scenario.

Definition state_after {K A : Type} (o : Outcome (HashTable K) A)
    (d : HashTable K) : HashTable K :=
  match o with
  | Ok _ s => s
  | _ => d
  end.

Definition t0 : HashTable (Z * Z) :=
  {| table := replicate 4 None; mask := 3; id_gen := IdGenerator_new;
     id_to_item := []; used_bins := []; new_bin := replicate 4 true;
     nqueries := 0; ncollisions := 0; store := ∅ |}.

(** [Get(5,2); Get(0,1); Get(3,2)] *)
Definition t1 : HashTable (Z * Z) := state_after (Get2 5 2 t0) t0.
Definition t2 : HashTable (Z * Z) := state_after (Get2 0 1 t1) t1.
Definition t3 : HashTable (Z * Z) := state_after (Get2 3 2 t2) t2.

Definition A : ItemT (Z * Z) := {| id := 0; key := (2, 5); next := None |}.


(** [t3] after [Delete(A)], which frees the id 0. *)
Definition freed : HashTable (Z * Z) := state_after (Delete 0%nat t3) t3.

(** [HashTable(4); Get(0,1); Get(2,3)]: both items are in bin 1. *)
Definition collide1 : HashTable (Z * Z) := state_after (Get2 0 1 t0) t0.
Definition collide2 : HashTable (Z * Z) :=
  state_after (Get2 2 3 collide1) collide1.

(** A table of four empty bins and a live item that is in no chain. *)
Definition stray : HashTable (Z * Z) :=
  {| table := replicate 4 None; mask := 3;
     id_gen := {| next_id := 1; reusable := [] |};
     id_to_item := [Some 0%nat]; used_bins := [];
     new_bin := replicate 4 true; nqueries := 0; ncollisions := 0;
     store := {[ 0%nat := A ]} |}.

(** A table of quadruples with four bins. *)
Definition q0 : HashTable (Z * Z * Z) :=
  {| table := replicate 4 None; mask := 3; id_gen := IdGenerator_new;
     id_to_item := []; used_bins := []; new_bin := replicate 4 true;
     nqueries := 0; ncollisions := 0; store := ∅ |}.

(** The table [HashTable(0)], which the constructor does not reject. *)
Definition z0 : HashTable (Z * Z) :=
  {| table := []; mask := -1; id_gen := IdGenerator_new;
     id_to_item := []; used_bins := []; new_bin := [];
     nqueries := 0; ncollisions := 0; store := ∅ |}.

(** [q0] after [Get(7,2,5,9)], which makes item B. *)
Definition q1 : HashTable (Z * Z * Z) := state_after (Get4 7 2 5 9 q0) q0.

Definition B : ItemT (Z * Z * Z) :=
  {| id := 0; key := (2, 5, 7); next := None |}.

End Scenario.


(** * Properties *)

(** ** Outcomes *)

Lemma Ok_state_inj {S A : Type} (a a' : A) (s s' : S) :
  Ok a s = Ok a' s' -> s = s'.
Proof. by intros [= _ ->]. Qed.

(** ** Arithmetic of the mask *)

Lemma wrap_small (x : Z) : Int32.in_range x -> Int32.wrap x = x.
Proof.
  unfold Int32.in_range, Int32.wrap, Int32.INT_MIN, Int32.INT_MAX,
    Int32.half, Int32.modulus.
  intros Hx. rewrite Z.mod_small; lia.
Qed.

Lemma land_mask_range (x m : Z) : 0 <= m -> 0 <= Z.land x m <= m.
Proof.
  intros Hm. split.
  - apply Z.land_nonneg. by right.
  - assert (Hdisj : Z.land (Z.ldiff m x) (Z.land m x) = 0).
    { apply Z.bits_inj'. intros n Hn.
      rewrite !Z.land_spec, Z.ldiff_spec, Z.bits_0.
      by destruct (Z.testbit m n), (Z.testbit x n). }
    assert (Hsplit : Z.ldiff m x + Z.land m x = m).
    { rewrite Z.add_nocarry_lxor by done.
      rewrite Z.lxor_lor by done.
      apply Z.lor_ldiff_and. }
    assert (0 <= Z.ldiff m x) by (apply Z.ldiff_nonneg; by left).
    rewrite (Z.land_comm x m). lia.
Qed.

Lemma land_pred_power_of_two (n : Z) :
  0 < n -> Z.land n (n - 1) = 0 <-> is_power_of_two n.
Proof.
  intros Hn. split.
  - intros Hland. exists (Z.log2 n). split; [apply Z.log2_nonneg|].
    destruct (Z.log2_spec n Hn) as [Hlo Hhi].
    destruct (decide (n = 2 ^ Z.log2 n)) as [|Hne]; [done|exfalso].
    assert (Hbit : Z.testbit (Z.land n (n - 1)) (Z.log2 n) = true).
    { rewrite Z.land_spec, Z.bit_log2 by done. simpl.
      assert (Hlog : Z.log2 (n - 1) = Z.log2 n).
      { apply Z.log2_unique; [apply Z.log2_nonneg|]. lia. }
      rewrite <- Hlog. apply Z.bit_log2.
      pose proof (Z.pow_pos_nonneg 2 (Z.log2 n) ltac:(lia)
                    (Z.log2_nonneg n)). lia. }
    rewrite Hland, Z.bits_0 in Hbit. done.
  - intros (k & Hk & ->).
    replace (2 ^ k - 1) with (Z.ones k) by (rewrite Z.ones_equiv; lia).
    rewrite Z.land_ones by done. apply Z.mod_same.
    pose proof (Z.pow_pos_nonneg 2 k ltac:(lia) Hk). lia.
Qed.

Lemma zero_not_power_of_two : ~ is_power_of_two 0.
Proof.
  intros (k & Hk & Heq).
  pose proof (Z.pow_pos_nonneg 2 k ltac:(lia) Hk). lia.
Qed.

(** ** The constructor *)

Section Constructor.
Context {Key : Type} `{!Hashed Key}.

(** For a positive int the constructor stops in [mfem_error] exactly when
    the size is not a power of two, and otherwise builds the empty table. *)
Lemma HashTable_new_positive (size : Z) :
  0 < size <= Int32.INT_MAX ->
  (is_power_of_two size ->
     HashTable_new (Key := Key) size =
       Ok {| table := replicate (Z.to_nat size) None;
             mask := size - 1;
             id_gen := IdGenerator_new;
             id_to_item := [];
             used_bins := [];
             new_bin := replicate (Z.to_nat size) true;
             nqueries := 0;
             ncollisions := 0;
             store := ∅ |} tt) /\
  (~ is_power_of_two size ->
     HashTable_new (Key := Key) size =
       Fatal "Hash table size must be a power of two." tt).
Proof.
  intros Hsize. unfold HashTable_new, Int32.sub.
  rewrite wrap_small
    by (revert Hsize; unfold Int32.in_range, Int32.INT_MIN, Int32.INT_MAX,
          Int32.half; lia).
  pose proof (land_pred_power_of_two size ltac:(lia)) as Hpow.
  split; intros Hp.
  - apply Hpow in Hp. rewrite Hp.
    rewrite decide_False by (intros Hc; by apply Hc).
    rewrite decide_False by lia. done.
  - rewrite decide_True; [done|]. intros Hc. by apply Hp, Hpow.
Qed.

(** C7, at the size the check misses: 0 is not a power of two, yet
    [size & (size-1)] is [0 & -1 = 0], so the constructor does not reach
    [mfem_error]; it returns a table with no bin and the mask -1. *)
Theorem HashTable_new_zero_not_rejected :
  ~ is_power_of_two 0 /\
  HashTable_new (Key := Key) 0 =
    Ok {| table := []; mask := -1; id_gen := IdGenerator_new;
          id_to_item := []; used_bins := []; new_bin := [];
          nqueries := 0; ncollisions := 0; store := ∅ |} tt.
Proof. split; [apply zero_not_power_of_two | reflexivity]. Qed.

End Constructor.

(** ** Arrays *)

Section Arrays.
Context {A : Type}.
Implicit Types (l : list A) (i j : Z) (x : A).

Lemma index_Some l i x :
  index l i = Some x <-> 0 <= i /\ l !! Z.to_nat i = Some x.
Proof.
  unfold index. case_decide.
  - split; [by intros; split | by intros [_ ?]].
  - split; [done | intros [? _]; lia].
Qed.

Lemma index_is_Some l i : is_Some (index l i) <-> 0 <= i < Size l.
Proof.
  unfold index, Size. case_decide.
  - rewrite lookup_lt_is_Some. lia.
  - split; [intros [? ?]; done | lia].
Qed.

Lemma index_assign_eq l i x :
  0 <= i < Size l -> index (assign l i x) i = Some x.
Proof.
  unfold index, assign, Size. intros Hi. rewrite decide_True by lia.
  apply list_lookup_insert_eq. lia.
Qed.

Lemma index_assign_ne l i j x :
  i <> j -> 0 <= i -> index (assign l i x) j = index l j.
Proof.
  unfold index, assign. intros Hne Hi. case_decide; [|done].
  apply list_lookup_insert_ne. lia.
Qed.

Lemma Size_assign l i x : Size (assign l i x) = Size l.
Proof. unfold Size, assign. by rewrite length_insert. Qed.

Lemma Size_SetSize l n x : 0 <= n -> Size (SetSize l n x) = n.
Proof.
  unfold Size, SetSize. intros Hn.
  rewrite length_app, length_take, length_replicate. lia.
Qed.

Lemma index_SetSize_old l n x j :
  Size l <= n -> 0 <= j < Size l ->
  index (SetSize l n x) j = index l j.
Proof.
  unfold index, SetSize, Size. intros Hn Hj. case_decide; [|done].
  rewrite take_ge by lia. rewrite lookup_app_l by lia. done.
Qed.

Lemma index_SetSize_new l n x j :
  Size l <= j < n -> index (SetSize l n x) j = Some x.
Proof.
  unfold index, SetSize, Size. intros Hj. rewrite decide_True by lia.
  rewrite take_ge by lia. rewrite lookup_app_r by lia.
  apply lookup_replicate_2. lia.
Qed.

End Arrays.

(** ** Chains *)

Section Chains.
Context {Key : Type} `{!Hashed Key}.
Implicit Types (st : gmap addr (ItemT Key)) (l : list addr) (a b : addr).

Lemma is_chain_det st p l1 l2 :
  is_chain st p l1 -> is_chain st p l2 -> l1 = l2.
Proof.
  intros H1. revert l2. induction H1 as [|a it l Ha _ IH]; intros l2 H2.
  - by inversion H2.
  - inversion H2 as [|a' it' l' Ha' Hl']; subst.
    rewrite Ha in Ha'. injection Ha' as <-. f_equal. by apply IH.
Qed.

Lemma is_chain_suffix st p l1 a l2 :
  is_chain st p (l1 ++ a :: l2) -> is_chain st (Some a) (a :: l2).
Proof.
  revert p. induction l1 as [|b l1 IH]; intros p Hc; simpl in Hc.
  - by inversion Hc; subst.
  - inversion Hc; subst. eauto.
Qed.

Lemma is_chain_NoDup st p l : is_chain st p l -> NoDup l.
Proof.
  induction 1 as [|a it l Ha Hl IH]; constructor; [|done].
  intros Hin. apply list_elem_of_split in Hin as (l1 & l2 & ->).
  pose proof (is_chain_suffix _ _ _ _ _ Hl) as Hsuf.
  pose proof (is_chain_cons _ _ _ _ Ha Hl) as Hall.
  pose proof (is_chain_det _ _ _ _ Hsuf Hall) as Heq.
  apply (f_equal length) in Heq. simpl in Heq.
  rewrite length_app in Heq. simpl in Heq. lia.
Qed.

Lemma is_chain_live st p l a :
  is_chain st p l -> a ∈ l -> is_Some (st !! a).
Proof.
  induction 1 as [|b it l Hb _ IH]; intros Hin.
  - by apply elem_of_nil in Hin.
  - apply elem_of_cons in Hin as [->|Hin]; eauto.
Qed.

Lemma is_chain_length st p l : is_chain st p l -> (length l <= size st)%nat.
Proof.
  intros Hc.
  assert (Hsub : l ⊆+ elements (dom st)).
  { apply NoDup_submseteq; [by eapply is_chain_NoDup|].
    intros a Ha. apply elem_of_elements, elem_of_dom.
    by eapply is_chain_live. }
  apply submseteq_length in Hsub.
  by rewrite <- size_dom.
Qed.

(** A chain only depends on the [next] fields of its own items. *)
Lemma is_chain_frame st st' p l :
  is_chain st p l ->
  (forall a, a ∈ l -> next <$> st' !! a = next <$> st !! a) ->
  is_chain st' p l.
Proof.
  induction 1 as [|a it l Ha _ IH]; intros Hsame; [constructor|].
  pose proof (Hsame a ltac:(left)) as Hnext. rewrite Ha in Hnext.
  destruct (st' !! a) as [it'|] eqn:Ha'; [|done].
  simpl in Hnext. injection Hnext as Hnext.
  econstructor; [done|]. rewrite Hnext. apply IH.
  intros b Hb. apply Hsame. by right.
Qed.

Lemma is_chain_insert_fresh st p l b x :
  is_chain st p l -> st !! b = None -> is_chain (<[b := x]> st) p l.
Proof.
  intros Hc Hb. eapply is_chain_frame; [done|]. intros a Ha.
  rewrite lookup_insert_ne; [done|]. intros ->.
  destruct (is_chain_live _ _ _ _ Hc Ha) as [? ?]. congruence.
Qed.

Lemma is_chain_delete st p l b :
  is_chain st p l -> b ∉ l -> is_chain (delete b st) p l.
Proof.
  intros Hc Hb. eapply is_chain_frame; [done|]. intros a Ha.
  rewrite lookup_delete_ne; [done|]. by intros ->.
Qed.

End Chains.

(** ** SearchList *)

Section Search.
Context {Key : Type} `{!Hashed Key}.
Implicit Types (t : HashTable Key) (k : Key) (l : list addr).

Lemma set_counters_same t : set_counters (nqueries t) (ncollisions t) t = t.
Proof. by destruct t. Qed.

Lemma same_but_counters_refl t : same_but_counters t t.
Proof. unfold same_but_counters. by rewrite set_counters_same. Qed.

Lemma same_but_counters_set nq nc t : same_but_counters t (set_counters nq nc t).
Proof. done. Qed.

(** The loop leaves everything but [ncollisions], which it increments once
    for each advance. *)
Lemma SearchList_loop_counters fuel p k t r t' :
  SearchList_loop fuel p k t = Ok r t' ->
  t' = set_counters (nqueries t)
         (Nat.iter (SearchList_advances fuel p k (store t))
                   (fun c => Int32.add c 1) (ncollisions t)) t.
Proof.
  revert p t. induction fuel as [|fuel IH]; intros p t; simpl; [done|].
  destruct p as [a|]; [|intros [= _ <-]; by rewrite set_counters_same].
  destruct (store t !! a) as [it|]; [|done].
  case_decide; [intros [= _ <-]; by rewrite set_counters_same|].
  intros Hloop. apply IH in Hloop. simpl in Hloop.
  by rewrite Nat.iter_succ_r.
Qed.

(** On a chain the loop ends, with the first item of the chain that has
    the parents [k], or with NULL when the chain has none. *)
Lemma SearchList_loop_chain fuel p l k t :
  is_chain (store t) p l -> (length l < fuel)%nat ->
  exists r t', SearchList_loop fuel p k t = Ok r t' /\
    match r with
    | Some a => a ∈ l /\ exists it, live t a it /\ key it = k
    | None => forall a it, a ∈ l -> live t a it -> key it <> k
    end.
Proof.
  intros Hc. revert fuel t p Hc.
  induction l as [|a l IH]; intros fuel t p Hc Hfuel;
    (destruct fuel as [|fuel]; [simpl in Hfuel; lia|]);
    inversion Hc as [|a' it l' Ha Hl]; subst; simpl.
  - exists None, t. split; [done|]. intros a it Hin. by apply elem_of_nil in Hin.
  - rewrite Ha. case_decide as Hk.
    + exists (Some a), t. split; [done|]. split; [by left|]. by exists it.
    + set (t1 := set_counters (nqueries t) (Int32.add (ncollisions t) 1) t).
      destruct (IH fuel t1 _ Hl ltac:(simpl in Hfuel; lia))
        as (r & t' & Hloop & Hr).
      exists r, t'. split; [done|]. destruct r as [b|].
      * destruct Hr as [Hin Hit]. split; [by right|done].
      * intros b ib [->|Hin]%elem_of_cons Hb.
        -- unfold live in Hb. rewrite Ha in Hb. by injection Hb as <-.
        -- by eapply Hr.
Qed.

Lemma SearchList_chain p l k t :
  is_chain (store t) p l ->
  exists r t', SearchList p k t = Ok r t' /\
    t' = set_counters (Int32.add (nqueries t) 1) (ncollisions t') t /\
    match r with
    | Some a => a ∈ l /\ exists it, live t a it /\ key it = k
    | None => forall a it, a ∈ l -> live t a it -> key it <> k
    end.
Proof.
  intros Hc. unfold SearchList.
  set (t1 := set_counters (Int32.add (nqueries t) 1) (ncollisions t) t).
  destruct (SearchList_loop_chain (S (size (store t))) p l k t1)
    as (r & t' & Hloop & Hr).
  { done. }
  { apply is_chain_length in Hc. lia. }
  exists r, t'. split; [done|]. split; [|done].
  apply SearchList_loop_counters in Hloop. rewrite Hloop. done.
Qed.

End Search.

(** ** The invariant: constructor, counters, creation *)

Section Invariant.
Context {Key : Type} `{!Hashed Key} `{!HashedLaws Key}.
Implicit Types (t : HashTable Key) (k : Key) (l : list addr) (a b : addr).

Lemma Inv_set_counters nq nc t : Inv t -> Inv (set_counters nq nc t).
Proof. by destruct 1; constructor. Qed.

Lemma Inv_same_but_counters t t' : same_but_counters t t' -> Inv t -> Inv t'.
Proof. intros ->. apply Inv_set_counters. Qed.

Lemma Inv_new size t :
  Int32.in_range size -> HashTable_new size = Ok t tt -> Inv t.
Proof.
  unfold HashTable_new, Int32.in_range. intros Hrange.
  case_decide; [done|]. case_decide; [done|]. intros [= <-].
  constructor; simpl; try done.
  - unfold Size, Int32.sub. rewrite length_replicate, wrap_small.
    + lia.
    + revert Hrange. unfold Int32.in_range, Int32.INT_MIN, Int32.INT_MAX,
        Int32.half. lia.
  - by rewrite !length_replicate.
  - intros i head [_ Hi]%index_Some.
    apply lookup_replicate in Hi as [-> _].
    exists []. split; [constructor|]. intros a Ha. by apply elem_of_nil in Ha.
  - intros i a [_ Hi]%index_Some. by rewrite lookup_nil in Hi.
  - intros i Hi. by apply elem_of_nil in Hi.
  - constructor.
  - intros b Hb. by apply elem_of_nil in Hb.
  - constructor.
  - intros b _ Hb. by apply elem_of_nil in Hb.
Qed.

Lemma bin_chain_det t i l1 l2 : bin_chain t i l1 -> bin_chain t i l2 -> l1 = l2.
Proof.
  intros (h1 & Hh1 & Hc1) (h2 & Hh2 & Hc2).
  rewrite Hh1 in Hh2. injection Hh2 as <-. by eapply is_chain_det.
Qed.

(** The generator hands out an id that no live item has. *)
Lemma IdGenerator_Get_fresh t newid g :
  Inv t -> IdGenerator_Get (id_gen t) = (newid, g) ->
  0 <= newid < next_id g /\ (newid ∉ reusable g) /\
  (forall a it, live t a it ->
     id it <> newid /\ 0 <= id it < next_id g /\ (id it ∉ reusable g)) /\
  (forall i, i ∈ reusable g -> 0 <= i < next_id g) /\
  NoDup (reusable g).
Proof.
  intros HI. unfold IdGenerator_Get.
  pose proof (inv_gen_live _ HI) as Hlive.
  pose proof (inv_gen_free _ HI) as Hfree.
  pose proof (inv_gen_nodup _ HI) as Hnd.
  pose proof (inv_gen_next _ HI) as Hnext.
  destruct (reusable (id_gen t)) as [|i r] eqn:Hr; intros [= <- <-]; simpl.
  - split; [lia|]. split; [by intros ?%elem_of_nil|]. split.
    + intros a it Ha. destruct (Hlive a it Ha).
      split; [lia|]. split; [lia|]. by intros ?%elem_of_nil.
    + split; [by intros i ?%elem_of_nil | constructor].
  - apply NoDup_cons in Hnd as [Hi Hnd]. pose proof (Hfree i ltac:(left)).
    split; [lia|]. split; [done|]. split.
    + intros a it Ha. destruct (Hlive a it Ha) as [Hr1 Hn].
      split; [|split; [lia|]].
      * intros Heq. apply Hn. rewrite Heq. left.
      * intros Hin. apply Hn. by right.
    + split; [|done]. intros j Hj. apply Hfree. by right.
Qed.

(** Creation of an item with parents that no live item has. *)
Lemma create_spec k t head :
  Inv t ->
  (forall b ib, live t b ib -> key ib <> k) ->
  index (table t) (hash (mask t) k) = Some head ->
  exists new t',
    create (hash (mask t) k) k t = Ok new t' /\ Inv t' /\
    store t !! new = None /\
    store t' =
      <[new := {| id := (IdGenerator_Get (id_gen t)).1; key := k;
                  next := head |}]> (store t) /\
    id_gen t' = (IdGenerator_Get (id_gen t)).2 /\
    table t' = assign (table t) (hash (mask t) k) (Some new) /\
    mask t' = mask t /\
    nqueries t' = nqueries t /\ ncollisions t' = ncollisions t /\
    Size (id_to_item t) <= Size (id_to_item t').
Proof.
  intros HI Hnokey Hhead. unfold create.
  destruct (IdGenerator_Get (id_gen t)) as [newid g] eqn:Hgen.
  destruct (IdGenerator_Get_fresh _ _ _ HI Hgen)
    as (Hnewid & Hnewfree & Hlive & Hfree & Hnd).
  set (idx := hash (mask t) k) in *.
  set (new := fresh (dom (store t))).
  assert (Hnew : store t !! new = None).
  { apply not_elem_of_dom, is_fresh. }
  assert (Hidx : 0 <= idx < Size (table t)).
  { apply index_is_Some. by eexists. }
  rewrite Hhead.
  destruct (index (new_bin t) idx) as [fb|] eqn:Hfb; last first.
  { exfalso. assert (is_Some (index (new_bin t) idx)) as [? ?]; [|congruence].
    apply index_is_Some. unfold Size in *. rewrite (inv_new_bin _ HI). lia. }
  set (ids := if decide (Size (id_to_item t) <= newid)
              then SetSize (id_to_item t) (newid + 1) None
              else id_to_item t).
  assert (Hids_size : 0 <= newid < Size ids /\
                      Size (id_to_item t) <= Size ids).
  { unfold ids. case_decide; [rewrite Size_SetSize|]; lia. }
  assert (Hids_old : forall j, 0 <= j < Size (id_to_item t) ->
                       index ids j = index (id_to_item t) j).
  { intros j Hj. unfold ids. case_decide; [|done].
    apply index_SetSize_old; lia. }
  assert (Hids_new : forall j x, index ids j = Some x ->
                       index (id_to_item t) j = Some x \/ x = None).
  { intros j x Hj. unfold ids in Hj. case_decide as Hsz; [|by left].
    destruct (decide (j < Size (id_to_item t))).
    - left. rewrite <- Hj. symmetry. apply index_SetSize_old; [lia|].
      apply index_Some in Hj as [? _]. lia.
    - right. assert (is_Some (index (SetSize (id_to_item t) (newid + 1) None) j))
        as Hs by (by eexists).
      apply index_is_Some in Hs. rewrite Size_SetSize in Hs by lia.
      rewrite index_SetSize_new in Hj by lia. congruence. }
  destruct (index ids newid) as [slot|] eqn:Hslot; last first.
  { exfalso. assert (is_Some (index ids newid)) as [? ?]; [|congruence].
    apply index_is_Some. lia. }
  set (newitem := {| id := newid; key := k; next := head |}).
  eexists new, _. split; [reflexivity|].
  split; [|simpl; rewrite ?Size_assign; repeat split; try done; lia].
  (* the chains of the new table *)
  assert (Hold : forall a it, live t a it -> a <> new).
  { intros a it Ha ->. unfold live in Ha. congruence. }
  assert (Hchain : forall i l, bin_chain t i l ->
            exists head',
              index (assign (table t) idx (Some new)) i = Some head' /\
              is_chain (<[new := newitem]> (store t)) head'
                (if decide (i = idx) then new :: l else l)).
  { intros i l (h & Hh & Hc). case_decide as Hi.
    - subst i. exists (Some new). split; [by apply index_assign_eq|].
      rewrite Hhead in Hh. injection Hh as <-.
      econstructor; [apply lookup_insert_eq|]. simpl.
      by apply is_chain_insert_fresh.
    - exists h. split; [rewrite index_assign_ne; [done|done|lia]|].
      by apply is_chain_insert_fresh. }
  constructor; unfold live, bin_of; simpl.
  - rewrite Size_assign. apply (inv_mask _ HI).
  - destruct fb; unfold assign; rewrite ?length_insert; apply (inv_new_bin _ HI).
  - intros i head' Hi.
    assert (is_Some (index (table t) i)) as [h Hh].
    { apply index_is_Some. rewrite <- (Size_assign _ idx (Some new)).
      apply index_is_Some. by eexists. }
    destruct (inv_chains _ HI i h Hh) as (l & Hl & Hbin).
    destruct (Hchain i l) as (head'' & Hh'' & Hc''); [by exists h|].
    rewrite Hi in Hh''. injection Hh'' as <-.
    eexists. split; [done|]. intros a Ha.
    assert (a = new /\ i = idx \/ a ∈ l) as [[-> ->]|Hal].
    { case_decide; [|by right].
      apply elem_of_cons in Ha as [->|?]; [by left|by right]. }
    + exists newitem. split; [apply lookup_insert_eq|done].
    + destruct (Hbin a Hal) as (it & Hit & Hb). exists it. split; [|done].
      unfold live. simpl. rewrite lookup_insert_ne; [done|].
      intros <-. by eapply Hold.
  - intros a it [[<- <-]|[Hne Ha]]%lookup_insert_Some.
    + destruct (inv_chains _ HI idx head Hhead) as (l & Hl & _).
      exists (new :: l). split; [|by left].
      destruct (Hchain idx l) as (h' & Hh' & Hc'); [by exists head|].
      rewrite decide_True in Hc' by done. by exists h'.
    + destruct (inv_live _ HI a it Ha) as (l & Hl & Hal).
      destruct (Hchain _ l Hl) as (h' & Hh' & Hc').
      eexists. split; [by exists h'|]. case_decide; [by right|done].
  - intros a b ia ib [[<- <-]|[Hna Ha]]%lookup_insert_Some
      [[<- <-]|[Hnb Hb]]%lookup_insert_Some Hk; simpl in *.
    + done.
    + exfalso. by eapply Hnokey.
    + exfalso. by eapply Hnokey.
    + by eapply (inv_keys _ HI).
  - intros a it [[<- <-]|[Hne Ha]]%lookup_insert_Some; simpl.
    + apply index_assign_eq. lia.
    + destruct (Hlive a it Ha) as (Hid & _ & _).
      rewrite index_assign_ne by lia.
      pose proof (inv_ids _ HI a it Ha) as Hslot_a.
      rewrite Hids_old; [done|]. apply index_is_Some. by eexists.
  - intros i a Hi. destruct (decide (i = newid)) as [->|Hne].
    + rewrite index_assign_eq in Hi by lia. injection Hi as <-.
      exists newitem. split; [apply lookup_insert_eq|done].
    + rewrite index_assign_ne in Hi by lia.
      apply Hids_new in Hi as [Hi|?]; [|done].
      destruct (inv_slots _ HI i a Hi) as (it & Hit & Hid).
      exists it. split; [|done]. unfold live. simpl.
      rewrite lookup_insert_ne; [done|]. intros <-. by eapply Hold.
  - intros a it [[<- <-]|[Hne Ha]]%lookup_insert_Some; simpl.
    + done.
    + by destruct (Hlive a it Ha) as (_ & ? & ?).
  - done.
  - done.
  - lia.
  - rewrite Size_assign. intros b Hb. destruct fb; [|by apply (inv_used_range _ HI)].
    apply elem_of_app in Hb as [Hb|Hb%list_elem_of_singleton];
      [by apply (inv_used_range _ HI)|by subst].
  - destruct fb; [|apply (inv_used_nodup _ HI)].
    apply NoDup_app. split; [apply (inv_used_nodup _ HI)|].
    split; [|apply NoDup_singleton].
    intros b Hb ->%list_elem_of_singleton.
    by apply (inv_used_new _ HI idx).
  - intros b Hb. destruct fb; [|by apply (inv_used_new _ HI)].
    assert (b <> idx) as Hne.
    { intros ->. rewrite index_assign_eq in Hb; [done|].
      unfold Size in *. rewrite (inv_new_bin _ HI). lia. }
    rewrite index_assign_ne in Hb by lia.
    intros [Hin|Hin%list_elem_of_singleton]%elem_of_app; [|done].
    by apply (inv_used_new _ HI b).
Qed.

End Invariant.

(** ** Peek and Get on a table that meets the invariant *)

Section PeekGet.
Context {Key : Type} `{!Hashed Key} `{!HashedLaws Key}.
Implicit Types (t : HashTable Key) (k : Key) (l : list addr) (a b : addr).

Lemma bin_in_range t k :
  Inv t -> table t <> [] -> is_Some (index (table t) (hash (mask t) k)).
Proof.
  intros HI Hne. apply index_is_Some.
  pose proof (inv_mask _ HI) as Hsize.
  assert (0 < Size (table t)).
  { unfold Size. destruct (table t); [done|simpl; lia]. }
  pose proof (hash_range (mask t) k ltac:(lia)). lia.
Qed.

(** The search of [Peek] finds the live item with the parents [k] when
    there is one, and NULL otherwise; it changes the counters only. *)
Lemma Peek_key_spec k t head :
  Inv t -> index (table t) (hash (mask t) k) = Some head ->
  exists r t',
    SearchList head k t = Ok r t' /\ Peek_key k t = Ok r t' /\
    t' = set_counters (Int32.add (nqueries t) 1) (ncollisions t') t /\
    match r with
    | Some a => exists it, live t a it /\ key it = k
    | None => forall b ib, live t b ib -> key ib <> k
    end.
Proof.
  intros HI Hhead. unfold Peek_key. rewrite Hhead.
  destruct (inv_chains _ HI _ _ Hhead) as (l & Hl & _).
  destruct (SearchList_chain head l k t Hl) as (r & t' & Hs & Ht' & Hr).
  exists r, t'. repeat split; try done.
  destruct r as [a|]; [by destruct Hr|].
  intros b ib Hb Hk.
  destruct (inv_live _ HI b ib Hb) as (l' & Hl' & Hin).
  unfold bin_of in Hl'. rewrite Hk in Hl'.
  assert (l' = l) as -> by (eapply bin_chain_det; [done|by exists head]).
  by eapply Hr.
Qed.

Lemma Peek_key_found k t a it :
  Inv t -> live t a it -> key it = k ->
  exists t', Peek_key k t = Ok (Some a) t' /\
    t' = set_counters (Int32.add (nqueries t) 1) (ncollisions t') t.
Proof.
  intros HI Ha Hk.
  destruct (inv_live _ HI a it Ha) as (l & (head & Hhead & Hl) & Hin).
  unfold bin_of in Hhead. rewrite Hk in Hhead.
  destruct (Peek_key_spec k t head HI Hhead) as (r & t' & _ & Hp & Ht' & Hr).
  destruct r as [b|].
  - destruct Hr as (ib & Hb & Hkb).
    assert (b = a) as -> by (eapply (inv_keys _ HI); [done|done|congruence]).
    by exists t'.
  - exfalso. by eapply Hr.
Qed.

Lemma Peek_key_absent k t :
  Inv t -> table t <> [] -> (forall b ib, live t b ib -> key ib <> k) ->
  exists t', Peek_key k t = Ok None t' /\
    t' = set_counters (Int32.add (nqueries t) 1) (ncollisions t') t.
Proof.
  intros HI Hne Hno.
  destruct (bin_in_range t k HI Hne) as [head Hhead].
  destruct (Peek_key_spec k t head HI Hhead) as (r & t' & _ & Hp & Ht' & Hr).
  destruct r as [b|]; [|by exists t'].
  destruct Hr as (ib & Hb & Hkb). exfalso. by eapply Hno.
Qed.

Lemma Get_key_found k t a it :
  Inv t -> live t a it -> key it = k ->
  exists t', Get_key k t = Ok a t' /\
    t' = set_counters (Int32.add (nqueries t) 1) (ncollisions t') t.
Proof.
  intros HI Ha Hk.
  destruct (Peek_key_found k t a it HI Ha Hk) as (t' & Hp & Ht').
  exists t'. split; [|done]. unfold Get_key, Peek_key in *.
  destruct (index (table t) (hash (mask t) k)); [|done]. by rewrite Hp.
Qed.

(** What [Get] returns is a live item with the parents asked for; the
    call keeps the invariant and the items that were alive. When it made
    the item, the id is the one the generator hands out. *)
Lemma Get_key_spec k t a t' :
  Inv t -> Get_key k t = Ok a t' ->
  Inv t' /\ mask t' = mask t /\ length (table t') = length (table t) /\
  Size (id_to_item t) <= Size (id_to_item t') /\
  exists it, live t' a it /\ key it = k /\
    ((live t a it /\ same_but_counters t t') \/
     ((forall b ib, live t b ib -> key ib <> k) /\
      store t !! a = None /\ store t' = <[a := it]> (store t) /\
      id it = (IdGenerator_Get (id_gen t)).1 /\
      id_gen t' = (IdGenerator_Get (id_gen t)).2)).
Proof.
  intros HI. unfold Get_key.
  destruct (index (table t) (hash (mask t) k)) as [head|] eqn:Hhead; [|done].
  destruct (Peek_key_spec k t head HI Hhead) as (r & t1 & Hs & _ & Ht1 & Hr).
  rewrite Hs. destruct r as [b|].
  - intros [= <- <-]. destruct Hr as (it & Hb & Hk).
    rewrite Ht1. split_and!; try done; [by apply Inv_set_counters|].
    exists it. split_and!; try done. left. by split.
  - assert (HI1 : Inv t1) by (rewrite Ht1; by apply Inv_set_counters).
    assert (Hst : store t1 = store t) by (by rewrite Ht1).
    assert (Hmk : mask t1 = mask t) by (by rewrite Ht1).
    assert (Htb : table t1 = table t) by (by rewrite Ht1).
    assert (Hig : id_gen t1 = id_gen t) by (by rewrite Ht1).
    assert (Hii : id_to_item t1 = id_to_item t) by (by rewrite Ht1).
    destruct (create_spec k t1 head HI1) as
      (new & t2 & Hc & HI2 & Hnew & Hst2 & Hg2 & Htb2 & Hm2 & _ & _ & Hsz).
    { intros b ib Hb. apply (Hr b ib). unfold live in *. by rewrite <- Hst. }
    { by rewrite Hmk, Htb. }
    rewrite Hmk in Hc. rewrite Hc. intros [= <- <-].
    rewrite Hst, Hig in *. rewrite Hii in Hsz.
    split_and!; try done.
    + congruence.
    + rewrite Htb2, Htb. unfold assign. by rewrite length_insert.
    + eexists. split; [unfold live; rewrite Hst2; apply lookup_insert_eq|].
      split; [done|]. right. by split_and!.
Qed.

Lemma Get_key_total k t :
  Inv t -> table t <> [] -> exists a t', Get_key k t = Ok a t'.
Proof.
  intros HI Hne. destruct (bin_in_range t k HI Hne) as [head Hhead].
  destruct (Peek_key_spec k t head HI Hhead) as (r & t1 & Hs & _ & Ht1 & Hr).
  unfold Get_key. rewrite Hhead, Hs. destruct r as [b|]; [by eexists _, _|].
  assert (HI1 : Inv t1) by (rewrite Ht1; by apply Inv_set_counters).
  destruct (create_spec k t1 head HI1) as (new & t2 & Hc & _).
  { intros b ib Hb. apply (Hr b ib). unfold live in *. by rewrite Ht1 in Hb. }
  { by rewrite Ht1. }
  exists new, t2. rewrite <- Hc. by rewrite Ht1.
Qed.

Lemma Peek_key_Inv k t r t' :
  Inv t -> Peek_key k t = Ok r t' -> Inv t' /\ same_but_counters t t'.
Proof.
  intros HI. unfold Peek_key.
  destruct (index (table t) (hash (mask t) k)) as [head|] eqn:Hhead; [|done].
  destruct (Peek_key_spec k t head HI Hhead) as (r1 & t1 & Hs & _ & Ht1 & _).
  rewrite Hs. intros [= <- <-]. rewrite Ht1.
  split; [by apply Inv_set_counters|done].
Qed.

End PeekGet.

(** ** Delete *)

Section DeleteLoop.
Context {Key : Type} `{!Hashed Key}.
Implicit Types (t : HashTable Key) (l : list addr) (a b item : addr).

Lemma link_after_cons ptr a l1 :
  link_after ptr (a :: l1) = link_after (NextField a) l1.
Proof.
  unfold link_after. destruct l1 as [|b l1]; simpl; [done|].
  destruct (last (b :: l1)) eqn:Hlast; [done|]. by apply last_None in Hlast.
Qed.

(** The loop stops at the link that points to the item and writes the
    [next] of the item there. *)
Lemma Delete_loop_unlink t item it l1 l2 fuel ptr p :
  read_link t ptr = Some p ->
  is_chain (store t) p (l1 ++ item :: l2) ->
  item ∉ l1 -> (length l1 < fuel)%nat ->
  store t !! item = Some it ->
  Delete_loop fuel ptr item t =
    Ok tt (write_link (link_after ptr l1) (next it) t).
Proof.
  revert fuel ptr p. induction l1 as [|a l1 IH];
    intros fuel ptr p Hread Hc Hnotin Hfuel Hitem;
    (destruct fuel as [|fuel]; [simpl in Hfuel; lia|]);
    inversion Hc as [|a' ia l' Ha Hl]; subst; simpl; rewrite Hread.
  - rewrite decide_True by done. by rewrite Hitem.
  - rewrite decide_False by (intros ->; apply Hnotin; left).
    rewrite link_after_cons. eapply IH; try done.
    + simpl. by rewrite Ha.
    + intros Hin. apply Hnotin. by right.
    + simpl in Hfuel. lia.
Qed.

(** When the item is not in the chain the loop runs to the end of the
    chain and reaches [mfem_error], with the table as it was. *)
Lemma Delete_loop_missing t item l fuel ptr p :
  read_link t ptr = Some p ->
  is_chain (store t) p l ->
  item ∉ l -> (length l < fuel)%nat ->
  Delete_loop fuel ptr item t =
    Fatal "HashTable<>::Delete: item not found!" t.
Proof.
  revert fuel ptr p. induction l as [|a l IH];
    intros fuel ptr p Hread Hc Hnotin Hfuel;
    (destruct fuel as [|fuel]; [simpl in Hfuel; lia|]);
    inversion Hc as [|a' ia l' Ha Hl]; subst; simpl; rewrite Hread.
  - done.
  - rewrite decide_False by (intros ->; apply Hnotin; left).
    eapply IH; try done.
    + simpl. by rewrite Ha.
    + intros Hin. apply Hnotin. by right.
    + simpl in Hfuel. lia.
Qed.

(** Writing the [next] of the item into the [next] of the item before it
    takes the item out of the chain. *)
Lemma is_chain_unlink (st : gmap addr (ItemT Key)) p l1 z item it l2 :
  is_chain st p (l1 ++ item :: l2) -> last l1 = Some z ->
  st !! item = Some it ->
  is_chain (alter (set_next (next it)) z st) p (l1 ++ l2).
Proof.
  intros Hc Hlast Hitem.
  pose proof (is_chain_NoDup _ _ _ Hc) as Hnd.
  revert p Hc Hlast Hnd. induction l1 as [|a l1 IH]; [done|].
  intros p Hc Hlast Hnd. inversion Hc as [|a' ia l' Ha Hl]; subst.
  apply NoDup_cons in Hnd as [Ha_notin Hnd].
  destruct l1 as [|b l1].
  - simpl in *. injection Hlast as <-.
    inversion Hl as [|a' it' l' Hitem' Hl2]; subst.
    rewrite Hitem in Hitem'. injection Hitem' as <-.
    econstructor.
    + rewrite lookup_alter_eq, Ha. done.
    + simpl. eapply is_chain_frame; [done|]. intros c Hc2.
      rewrite lookup_alter_ne; [done|]. intros <-.
      apply Ha_notin. by right.
  - econstructor.
    + rewrite lookup_alter_ne; [done|]. intros ->. apply Ha_notin.
      change (a ∈ (b :: l1) ++ item :: l2).
      apply elem_of_app. left. by apply last_Some_elem_of.
    + by apply IH.
Qed.

End DeleteLoop.

Section DeleteInv.
Context {Key : Type} `{!Hashed Key} `{!HashedLaws Key}.
Implicit Types (t : HashTable Key) (l : list addr) (a b item : addr).

(** [Delete] of a live item returns; it takes the item out of the store,
    clears the slot of its id and releases the id; the other items keep
    their parents and ids, and the invariant holds again. *)
Lemma Delete_spec item it t :
  Inv t -> live t item it ->
  exists t', Delete item t = Ok tt t' /\ Inv t' /\
    (exists l1 l2, bin_chain t (bin_of t it) (l1 ++ item :: l2) /\
                   bin_chain t' (bin_of t it) (l1 ++ l2)) /\
    store t' !! item = None /\
    (forall a ia', live t' a ia' ->
       a <> item /\
       exists ia, live t a ia /\ key ia' = key ia /\ id ia' = id ia) /\
    (forall a ia, live t a ia -> a <> item ->
       exists ia', live t' a ia' /\ key ia' = key ia /\ id ia' = id ia) /\
    id_gen t' = IdGenerator_Reuse (id it) (id_gen t) /\
    id_to_item t' = assign (id_to_item t) (id it) None /\
    mask t' = mask t /\ length (table t') = length (table t) /\
    used_bins t' = used_bins t /\ new_bin t' = new_bin t /\
    nqueries t' = nqueries t /\ ncollisions t' = ncollisions t.
Proof.
  intros HI Hitem.
  destruct (inv_live _ HI item it Hitem) as (l & (head & Hhead & Hl) & Hin).
  apply list_elem_of_split in Hin as (l1 & l2 & ->).
  pose proof (is_chain_NoDup _ _ _ Hl) as Hnd.
  apply NoDup_app in Hnd as (Hnd1 & Hdisj & Hnd2).
  apply NoDup_cons in Hnd2 as [Hnotin2 Hnd2].
  assert (Hnotin1 : item ∉ l1).
  { intros Hin. apply (Hdisj _ Hin). left. }
  set (idx := bin_of t it) in *.
  assert (Hidx : 0 <= idx < Size (table t)).
  { apply index_is_Some. by eexists. }
  pose proof (is_chain_length _ _ _ Hl) as Hlen.
  rewrite length_app in Hlen. simpl in Hlen.
  pose proof (Delete_loop_unlink t item it l1 l2 (S (size (store t)))
                (TableSlot idx) head Hhead Hl Hnotin1 ltac:(lia) Hitem)
    as Hloop.
  unfold Delete. unfold live in Hitem. rewrite Hitem. fold idx.
  change (hash (mask t) (key it)) with idx. rewrite Hloop.
  set (lk := link_after (TableSlot idx) l1).
  set (t1 := write_link lk (next it) t).
  assert (Hids : id_to_item t1 = id_to_item t) by done.
  rewrite Hids, (inv_ids _ HI item it Hitem).
  eexists. split; [reflexivity|].
  (* the chain of the bin without the item *)
  assert (Hsuffix : is_chain (store t) (next it) l2).
  { apply is_chain_suffix in Hl. inversion Hl as [|? it' ? Hit' ?]; subst.
    rewrite Hitem in Hit'. by injection Hit' as <-. }
  assert (Hbins : forall a, a ∈ l1 ++ item :: l2 ->
            exists ia, live t a ia /\ bin_of t ia = idx).
  { by destruct (inv_chains _ HI idx head Hhead) as (l' & Hl' & Hb);
      rewrite (is_chain_det _ _ _ _ Hl Hl'). }
  assert (Hkid : forall a, a <> item ->
            (fun i => (key i, id i)) <$> delete item (store t1) !! a =
            (fun i => (key i, id i)) <$> store t !! a).
  { intros a Ha. rewrite lookup_delete_ne by done.
    unfold t1, lk, link_after. destruct (last l1) as [z|]; simpl; [|done].
    destruct (decide (z = a)) as [->|Hz].
    - rewrite lookup_alter_eq. by destruct (store t !! a).
    - by rewrite lookup_alter_ne. }
  assert (Hsame : forall a, a <> item -> a ∉ l1 ->
            delete item (store t1) !! a = store t !! a).
  { intros a Ha Hal. rewrite lookup_delete_ne by done.
    unfold t1, lk, link_after. destruct (last l1) as [z|] eqn:Hz; simpl; [|done].
    rewrite lookup_alter_ne; [done|]. intros ->. apply Hal.
    by apply last_Some_elem_of. }
  assert (Hnew_chain : exists head',
            index (table t1) idx = Some head' /\
            is_chain (delete item (store t1)) head' (l1 ++ l2)).
  { unfold t1, lk, link_after. destruct (last l1) as [z|] eqn:Hz; simpl.
    - exists head. split; [done|]. apply is_chain_delete.
      + apply (is_chain_unlink (store t) head l1 z item it l2 Hl Hz Hitem).
      + intros [?|?]%elem_of_app; done.
    - apply last_None in Hz. subst l1. simpl in *.
      exists (next it). split; [by apply index_assign_eq|].
      by apply is_chain_delete. }
  assert (Hother : forall i, i <> idx ->
            index (table t1) i = index (table t) i).
  { intros i Hi. unfold t1, lk, link_after.
    destruct (last l1) as [z|]; simpl; [done|].
    apply index_assign_ne; [done|lia]. }
  assert (Hother_chain : forall i h l', i <> idx ->
            index (table t) i = Some h -> is_chain (store t) h l' ->
            is_chain (delete item (store t1)) h l').
  { intros i h l' Hi Hh Hl'.
    destruct (inv_chains _ HI i h Hh) as (l'' & Hl'' & Hb).
    rewrite <- (is_chain_det _ _ _ _ Hl' Hl'') in Hb.
    eapply is_chain_frame; [done|]. intros a Ha.
    destruct (Hb a Ha) as (ia & Hia & Hbin).
    assert (Hout : a ∉ l1 ++ item :: l2).
    { intros Hin. destruct (Hbins a Hin) as (ia' & Hia' & Hbin').
      unfold live in *. congruence. }
    rewrite Hsame; [done| |].
    - intros ->. apply Hout, elem_of_app. right. left.
    - intros Hin. apply Hout, elem_of_app. by left. }
  assert (Hback : forall a ia', delete item (store t1) !! a = Some ia' ->
            a <> item /\
            exists ia, live t a ia /\ key ia' = key ia /\ id ia' = id ia).
  { intros a ia' Ha.
    assert (a <> item) as Hne.
    { intros ->. by rewrite lookup_delete_eq in Ha. }
    split; [done|]. pose proof (Hkid a Hne) as Hk. rewrite Ha in Hk.
    unfold live. destruct (store t !! a) as [ia|]; [|done].
    simpl in Hk. injection Hk as ? ?. by exists ia. }
  assert (Hforth : forall a ia, live t a ia -> a <> item ->
            exists ia', delete item (store t1) !! a = Some ia' /\
              key ia' = key ia /\ id ia' = id ia).
  { intros a ia Ha Hne. pose proof (Hkid a Hne) as Hk.
    unfold live in Ha. rewrite Ha in Hk.
    destruct (delete item (store t1) !! a) as [ia'|]; [|done].
    simpl in Hk. injection Hk as ? ?. by exists ia'. }
  assert (Hlen_tb : length (table t1) = length (table t)).
  { unfold t1, lk, link_after. destruct (last l1); simpl; [done|].
    unfold assign. by rewrite length_insert. }
  assert (Hid_other : forall a ia, live t a ia -> a <> item ->
            id ia <> id it).
  { intros a ia Ha Hne Heq. pose proof (inv_ids _ HI a ia Ha) as H1.
    pose proof (inv_ids _ HI item it Hitem) as H2.
    rewrite Heq in H1. congruence. }
  assert (Hid_range : 0 <= id it < Size (id_to_item t)).
  { apply index_is_Some. rewrite (inv_ids _ HI item it Hitem). by eexists. }
  assert (Hrest : id_gen t1 = id_gen t /\ mask t1 = mask t /\
                  used_bins t1 = used_bins t /\ new_bin t1 = new_bin t /\
                  nqueries t1 = nqueries t /\ ncollisions t1 = ncollisions t)
    by done.
  destruct Hrest as (Hg & Hm & Hub & Hnb & Hnq & Hnc).
  clearbody t1.
  split; [|split; [exists l1, l2; split; [by exists head|done]|];
            split_and!; simpl; rewrite ?Hg, ?Hm, ?Hub, ?Hnb, ?Hnq, ?Hnc;
            try done; apply lookup_delete_eq].
  constructor; unfold live, bin_of; simpl; rewrite ?Hg, ?Hm, ?Hnb.
  - unfold Size. rewrite Hlen_tb. apply (inv_mask _ HI).
  - rewrite Hlen_tb. apply (inv_new_bin _ HI).
  - intros i head' Hi. destruct (decide (i = idx)) as [->|Hne].
    + destruct Hnew_chain as (h' & Hh' & Hc'). rewrite Hi in Hh'.
      injection Hh' as <-. exists (l1 ++ l2). split; [done|].
      intros a Ha.
      assert (a ∈ l1 ++ item :: l2 /\ a <> item) as [Hin Hne].
      { apply elem_of_app in Ha as [?|?].
        - split; [apply elem_of_app; by left|]. by intros ->.
        - split; [apply elem_of_app; right; by right|]. by intros ->. }
      destruct (Hbins a Hin) as (ia & Hia & Hbin).
      destruct (Hforth a ia Hia Hne) as (ia' & Hia' & Hk & _).
      exists ia'. split; [done|]. unfold bin_of in Hbin. by rewrite Hk.
    + rewrite Hother in Hi by done.
      destruct (inv_chains _ HI i head' Hi) as (l' & Hl' & Hb).
      exists l'. split; [by eapply Hother_chain|]. intros a Ha.
      destruct (Hb a Ha) as (ia & Hia & Hbin).
      assert (a <> item) as Hai.
      { intros ->. unfold live in Hia. rewrite Hitem in Hia.
        injection Hia as <-. by apply Hne. }
      destruct (Hforth a ia Hia Hai) as (ia' & Hia' & Hk & _).
      exists ia'. split; [done|]. unfold bin_of in Hbin. by rewrite Hk.
  - intros a ia' Ha. destruct (Hback a ia' Ha) as (Hne & ia & Hia & Hk & _).
    destruct (inv_live _ HI a ia Hia) as (l' & (h & Hh & Hl') & Hin).
    rewrite Hk. fold (bin_of t ia).
    destruct (decide (bin_of t ia = idx)) as [Hb|Hb].
    * rewrite Hb in *. rewrite Hhead in Hh. injection Hh as <-.
      rewrite (is_chain_det _ _ _ _ Hl' Hl) in Hin.
      exists (l1 ++ l2). split; [done|].
      apply elem_of_app in Hin as [?|[?|?]%elem_of_cons];
        [apply elem_of_app; by left|done|apply elem_of_app; by right].
    * exists l'. split; [|done]. exists h. split; [by rewrite Hother|].
      by eapply Hother_chain.
  - intros a b ia' ib' Ha Hb Hk.
    destruct (Hback a ia' Ha) as (_ & ia & Hia & Hka & _).
    destruct (Hback b ib' Hb) as (_ & ib & Hib & Hkb & _).
    eapply (inv_keys _ HI); [done|done|congruence].
  - intros a ia' Ha. destruct (Hback a ia' Ha) as (Hne & ia & Hia & _ & Hi).
    rewrite Hi. rewrite index_assign_ne.
    + by apply (inv_ids _ HI).
    + intros Heq. by eapply Hid_other.
    + lia.
  - intros i a Hi. destruct (decide (i = id it)) as [->|Hne].
    + rewrite index_assign_eq in Hi by done. done.
    + rewrite index_assign_ne in Hi by lia.
      destruct (inv_slots _ HI i a Hi) as (ia & Hia & Hid).
      assert (a <> item) as Hai.
      { intros ->. unfold live in Hia. rewrite Hitem in Hia.
        by injection Hia as <-. }
      destruct (Hforth a ia Hia Hai) as (ia' & Hia' & _ & Hi').
      exists ia'. split; [done|congruence].
  - intros a ia' Ha. destruct (Hback a ia' Ha) as (Hne & ia & Hia & _ & Hi).
    rewrite Hi. destruct (inv_gen_live _ HI a ia Hia) as [Hr Hn].
    split; [done|]. intros [Heq|Hin]%elem_of_cons; [|done].
    by eapply Hid_other.
  - intros i [->|Hin]%elem_of_cons.
    + by destruct (inv_gen_live _ HI item it Hitem).
    + by apply (inv_gen_free _ HI).
  - constructor; [|apply (inv_gen_nodup _ HI)].
    by destruct (inv_gen_live _ HI item it Hitem).
  - apply (inv_gen_next _ HI).
  - rewrite Hub. unfold Size. rewrite Hlen_tb. apply (inv_used_range _ HI).
  - rewrite Hub. apply (inv_used_nodup _ HI).
  - rewrite Hub. apply (inv_used_new _ HI).
Qed.

Lemma Delete_Inv item t t' : Inv t -> Delete item t = Ok tt t' -> Inv t'.
Proof.
  intros HI Hd.
  destruct (store t !! item) as [it|] eqn:Hitem;
    [|unfold Delete in Hd; by rewrite Hitem in Hd].
  destruct (Delete_spec item it t HI Hitem) as (t'' & Hd' & HI' & _).
  congruence.
Qed.

End DeleteInv.

(** ** The two hash overloads and the states a table reaches *)

#[export] Instance Hashed2_laws : HashedLaws (Z * Z).
Proof. constructor. intros m k Hm. by apply land_mask_range. Qed.

#[export] Instance Hashed4_laws : HashedLaws (Z * Z * Z).
Proof. constructor. intros m k Hm. by apply land_mask_range. Qed.

(** The overloads on ints are [Get] and [Peek] of the parents in order. *)
Lemma Get2_eq p1 p2 t : Get2 p1 p2 t = Get_key (order2 p1 p2) t.
Proof. reflexivity. Qed.

Lemma Peek2_eq p1 p2 t : Peek2 p1 p2 t = Peek_key (order2 p1 p2) t.
Proof. reflexivity. Qed.

Lemma Get4_eq p1 p2 p3 p4 t :
  Get4 p1 p2 p3 p4 t = Get_key (order4 p1 p2 p3 p4) t.
Proof. reflexivity. Qed.

Lemma Peek4_eq p1 p2 p3 p4 t :
  Peek4 p1 p2 p3 p4 t = Peek_key (order4 p1 p2 p3 p4) t.
Proof. reflexivity. Qed.

Lemma Reachable2_Inv t : Reachable2 t -> Inv t.
Proof.
  induction 1 as [size t Hsize Hnew|p1 p2 t a t' _ IH HG|p1 p2 t r t' _ IH HP
                 |item t t' _ IH HD].
  - exact (Inv_new size t Hsize Hnew).
  - rewrite Get2_eq in HG. exact (proj1 (Get_key_spec _ _ _ _ IH HG)).
  - rewrite Peek2_eq in HP. exact (proj1 (Peek_key_Inv _ _ _ _ IH HP)).
  - exact (Delete_Inv item t t' IH HD).
Qed.

Lemma Reachable4_Inv t : Reachable4 t -> Inv t.
Proof.
  induction 1 as [size t Hsize Hnew|p1 p2 p3 p4 t a t' _ IH HG
                 |p1 p2 p3 p4 t r t' _ IH HP|item t t' _ IH HD].
  - exact (Inv_new size t Hsize Hnew).
  - rewrite Get4_eq in HG. exact (proj1 (Get_key_spec _ _ _ _ IH HG)).
  - rewrite Peek4_eq in HP. exact (proj1 (Peek_key_Inv _ _ _ _ IH HP)).
  - exact (Delete_Inv item t t' IH HD).
Qed.

(** *** Parents in order *)

Lemma order2_min_max p1 p2 : order2 p1 p2 = (Z.min p1 p2, Z.max p1 p2).
Proof. unfold order2. case_decide; f_equal; lia. Qed.

Lemma order2_comm p1 p2 : order2 p1 p2 = order2 p2 p1.
Proof. rewrite !order2_min_max. f_equal; lia. Qed.

Lemma order2_ordered q1 q2 : q1 <= q2 -> order2 q1 q2 = (q1, q2).
Proof. intros Hq. rewrite order2_min_max. f_equal; lia. Qed.

(** The stored parents of a pair are in ascending order. *)
Lemma Reachable2_ordered t a it :
  Reachable2 t -> live t a it -> (key it).1 <= (key it).2.
Proof.
  intros HR. revert a it.
  induction HR as [size t Hsize Hnew|p1 p2 t b t' HR IH HG
                  |p1 p2 t r t' HR IH HP|item t t' HR IH HD]; intros a it Ha.
  - unfold HashTable_new in Hnew. repeat case_decide; try done.
    injection Hnew as <-. unfold live in Ha. simpl in Ha.
    by rewrite lookup_empty in Ha.
  - destruct (Get_key_spec _ _ _ _ (Reachable2_Inv _ HR) HG)
      as (_ & _ & _ & _ & ib & Hb & Hk & [[Hold Hsame]|(_ & _ & Hst & _)]).
    + apply (IH a it). unfold live in *. rewrite Hsame in Ha. done.
    + unfold live in Ha. rewrite Hst in Ha.
      apply lookup_insert_Some in Ha as [[<- <-]|[_ Ha]]; [|by eapply IH].
      rewrite Hk, order2_min_max. simpl. lia.
  - destruct (Peek_key_Inv _ _ _ _ (Reachable2_Inv _ HR) HP) as [_ Hsame].
    apply (IH a it). unfold live in *. rewrite Hsame in Ha. done.
  - destruct (store t !! item) as [i0|] eqn:Hitem;
      [|unfold Delete in HD; by rewrite Hitem in HD].
    destruct (Delete_spec item i0 t (Reachable2_Inv _ HR) Hitem)
      as (t'' & HD' & _ & _ & _ & Hback & _).
    rewrite HD in HD'. injection HD' as <-.
    destruct (Hback a it Ha) as (_ & ia & Hia & Hk & _).
    rewrite Hk. by eapply IH.
Qed.

Ltac perm_small :=
  repeat match goal with
  | |- [] ≡ₚ [] => reflexivity
  | |- ?x :: ?l ≡ₚ ?x :: ?r => apply perm_skip
  | |- ?x :: ?l ≡ₚ ?y :: ?x :: ?r =>
      change (x :: l ≡ₚ [y] ++ x :: r); apply Permutation_cons_app; simpl
  | |- ?x :: ?l ≡ₚ ?y :: ?z :: ?x :: ?r =>
      change (x :: l ≡ₚ [y; z] ++ x :: r); apply Permutation_cons_app; simpl
  | |- ?x :: ?l ≡ₚ ?y :: ?z :: ?w :: ?x :: ?r =>
      change (x :: l ≡ₚ [y; z; w] ++ x :: r); apply Permutation_cons_app;
      simpl
  end.

(** [sort4] puts its four arguments in ascending order. *)
Lemma sort4_sorted a b c d :
  let '(x, y, z, w) := detail.sort4 a b c d in
  Sorted Z.le [x; y; z; w] /\ [x; y; z; w] ≡ₚ [a; b; c; d].
Proof.
  unfold detail.sort4, detail.sort3.
  repeat (case_decide; simpl); (split; [repeat constructor; lia | perm_small]).
Qed.

Lemma sort4_merge_sort a b c d :
  let '(x, y, z, w) := detail.sort4 a b c d in
  [x; y; z; w] = merge_sort Z.le [a; b; c; d].
Proof.
  pose proof (sort4_sorted a b c d) as Hs.
  destruct (detail.sort4 a b c d) as [[[x y] z] w]. destruct Hs as [Hs Hp].
  apply (Sorted_unique Z.le); [done|apply Sorted_merge_sort; apply _|].
  by rewrite merge_sort_Permutation.
Qed.

(** The parents [Get] and [Peek] of a quadruple look for are the three
    smallest arguments, in ascending order. *)
Lemma order4_three_smallest p1 p2 p3 p4 :
  let '(a, b, c) := order4 p1 p2 p3 p4 in
  [a; b; c] = three_smallest p1 p2 p3 p4.
Proof.
  unfold order4, three_smallest.
  pose proof (sort4_merge_sort p1 p2 p3 p4) as Hs.
  destruct (detail.sort4 p1 p2 p3 p4) as [[[x y] z] w]. by rewrite <- Hs.
Qed.

Lemma order4_eq_iff p1 p2 p3 p4 q1 q2 q3 q4 :
  order4 p1 p2 p3 p4 = order4 q1 q2 q3 q4 <->
  three_smallest p1 p2 p3 p4 = three_smallest q1 q2 q3 q4.
Proof.
  pose proof (order4_three_smallest p1 p2 p3 p4) as Hp.
  pose proof (order4_three_smallest q1 q2 q3 q4) as Hq.
  destruct (order4 p1 p2 p3 p4) as [[a b] c].
  destruct (order4 q1 q2 q3 q4) as [[a' b'] c'].
  rewrite <- Hp, <- Hq. split; intros [= -> -> ->]; done.
Qed.

(** ** The tables of the examples *)

Module ScenarioFacts.
Import Scenario.

Lemma in_range_4 : Int32.in_range 4.
Proof.
  unfold Int32.in_range, Int32.INT_MIN, Int32.INT_MAX, Int32.half. lia.
Qed.

Lemma reach0 : Reachable2 t0.
Proof. apply (Reachable2_new 4); [apply in_range_4 | reflexivity]. Qed.

Lemma reach1 : Reachable2 t1.
Proof. apply (Reachable2_Get 5 2 t0 0%nat); [apply reach0 | reflexivity]. Qed.

Lemma reach2 : Reachable2 t2.
Proof. apply (Reachable2_Get 0 1 t1 1%nat); [apply reach1 | reflexivity]. Qed.

Lemma reach3 : Reachable2 t3.
Proof. apply (Reachable2_Get 3 2 t2 2%nat); [apply reach2 | reflexivity]. Qed.

Lemma reach_q0 : Reachable4 q0.
Proof. apply (Reachable4_new 4); [apply in_range_4 | reflexivity]. Qed.

Lemma reach_z0 : Reachable2 z0.
Proof.
  apply (Reachable2_new 0); [|reflexivity].
  unfold Int32.in_range, Int32.INT_MIN, Int32.INT_MAX, Int32.half. lia.
Qed.

Lemma reach_q1 : Reachable4 q1.
Proof.
  apply (Reachable4_Get 7 2 5 9 q0 0%nat); [apply reach_q0|].
  vm_compute. reflexivity.
Qed.



Lemma delete_A : Delete 0%nat t3 = Ok tt freed.
Proof. reflexivity. Qed.

Lemma no_1_3 c ic : live freed c ic -> key ic <> order2 1 3.
Proof.
  intros Hc%elem_of_map_to_list.
  match type of Hc with
  | _ ∈ ?l =>
    change l with
      [(2%nat, {| id := 2; key := (2, 3); next := Some 1%nat |});
       (1%nat, {| id := 1; key := (0, 1); next := None |})] in Hc
  end.
  apply elem_of_cons in Hc as [[= _ ->]|Hc]; [vm_compute; discriminate|].
  apply elem_of_cons in Hc as [[= _ ->]|Hc]; [vm_compute; discriminate|].
  by apply elem_of_nil in Hc.
Qed.

End ScenarioFacts.

(** ** Order of the arguments *)

(** C1: [Get(p1,p2)] and [Get(p2,p1)] are the same call: the parents are
    swapped into ascending order before they are hashed and compared, so
    from any state of the table both return the same item and leave the same
    state, and so do the two [Peek]; on a table that calls have reached
    and that has a bin, [Get(p1,p2)] returns an item with the parents
    (min, max) and [Get(p2,p1)] after it returns this item again. *)
Theorem Get2_order_independent (p1 p2 : Z) (t : HashTable (Z * Z)) :
  order2 p1 p2 = (Z.min p1 p2, Z.max p1 p2) /\
  Get2 p1 p2 t = Get2 p2 p1 t /\
  Peek2 p1 p2 t = Peek2 p2 p1 t /\
  (Reachable2 t -> table t <> [] ->
   exists a t1 t2 it,
     Get2 p1 p2 t = Ok a t1 /\ Get2 p2 p1 t1 = Ok a t2 /\
     same_but_counters t1 t2 /\
     live t2 a it /\ key it = (Z.min p1 p2, Z.max p1 p2)).
Proof.
  split; [apply order2_min_max|]. unfold Get2, Peek2.
  rewrite (order2_comm p2 p1). split; [done|]. split; [done|].
  intros HR Hne. pose proof (Reachable2_Inv _ HR) as HI.
  destruct (Get_key_total (order2 p1 p2) t HI Hne) as (a & t1 & HG).
  destruct (Get_key_spec _ _ _ _ HI HG) as (HI1 & _ & _ & _ & it & Ha & Hk & _).
  destruct (Get_key_found _ t1 a it HI1 Ha Hk) as (t2 & HG2 & Ht2).
  exists a, t1, t2, it. split_and!; try done.
  - by rewrite Ht2.
  - by rewrite Ht2.
  - by rewrite <- order2_min_max.
Qed.

Lemma Get2_order_independent_witness :
  exists a t1 t2 it,
    Get2 5 2 Scenario.t0 = Ok a t1 /\ Get2 2 5 t1 = Ok a t2 /\
    same_but_counters t1 t2 /\
    live t2 a it /\ key it = (Z.min 5 2, Z.max 5 2).
Proof.
  apply (Get2_order_independent 5 2 Scenario.t0);
    [apply ScenarioFacts.reach0 | discriminate].
Defined.

Section Preserved.
Context {Key : Type} `{!Hashed Key} `{!HashedLaws Key}.
Implicit Types (t : HashTable Key) (k : Key) (a b : addr).

(** [Get] keeps the items that are alive as they are. *)
Lemma Get_key_preserves k t b t' a ia :
  Inv t -> Get_key k t = Ok b t' -> live t a ia -> live t' a ia.
Proof.
  intros HI HG Ha.
  destruct (Get_key_spec _ _ _ _ HI HG)
    as (_ & _ & _ & _ & ib & Hb & Hk & [[_ Hsame]|(_ & Hnone & Hst & _)]).
  - unfold live. by rewrite Hsame.
  - unfold live in *. rewrite Hst. rewrite lookup_insert_ne; [done|].
    intros ->. congruence.
Qed.

(** Two live items do not share an id. *)
Lemma Inv_ids_unique t a b ia ib :
  Inv t -> live t a ia -> live t b ib -> id ia = id ib -> a = b.
Proof.
  intros HI Ha Hb Hid.
  pose proof (inv_ids _ HI a ia Ha) as H1.
  pose proof (inv_ids _ HI b ib Hb) as H2.
  rewrite Hid in H1. congruence.
Qed.

End Preserved.

(** C2: the parents that [Get] of a quadruple stores and compares are the
    three smallest of the four arguments in ascending order; two calls with
    the same three smallest values are the same call, whatever the order
    of the arguments and whatever the largest value, and one after the
    other they return the same item; two calls that differ in the three
    smallest values return two different items. *)
Theorem Get4_three_smallest (p1 p2 p3 p4 q1 q2 q3 q4 : Z)
    (t : HashTable (Z * Z * Z)) :
  (let '(a, b, c) := order4 p1 p2 p3 p4 in
   [a; b; c] = three_smallest p1 p2 p3 p4) /\
  (three_smallest p1 p2 p3 p4 = three_smallest q1 q2 q3 q4 ->
   Get4 p1 p2 p3 p4 t = Get4 q1 q2 q3 q4 t /\
   Peek4 p1 p2 p3 p4 t = Peek4 q1 q2 q3 q4 t /\
   (Reachable4 t -> table t <> [] ->
    exists a t1 t2,
      Get4 p1 p2 p3 p4 t = Ok a t1 /\ Get4 q1 q2 q3 q4 t1 = Ok a t2 /\
      same_but_counters t1 t2)) /\
  (three_smallest p1 p2 p3 p4 <> three_smallest q1 q2 q3 q4 ->
   Reachable4 t -> table t <> [] ->
   exists a t1 b t2 ia ib,
     Get4 p1 p2 p3 p4 t = Ok a t1 /\ Get4 q1 q2 q3 q4 t1 = Ok b t2 /\
     a <> b /\ live t2 a ia /\ live t2 b ib /\
     key ia = order4 p1 p2 p3 p4 /\ key ib = order4 q1 q2 q3 q4).
Proof.
  split; [apply order4_three_smallest|]. unfold Get4, Peek4. split.
  - intros Heq%order4_eq_iff. rewrite Heq. split; [done|]. split; [done|].
    intros HR Hne. pose proof (Reachable4_Inv _ HR) as HI.
    destruct (Get_key_total (order4 q1 q2 q3 q4) t HI Hne) as (a & t1 & HG).
    destruct (Get_key_spec _ _ _ _ HI HG)
      as (HI1 & _ & _ & _ & it & Ha & Hk & _).
    destruct (Get_key_found _ t1 a it HI1 Ha Hk) as (t2 & HG2 & Ht2).
    exists a, t1, t2. split_and!; try done. by rewrite Ht2.
  - intros Hdiff HR Hne. pose proof (Reachable4_Inv _ HR) as HI.
    destruct (Get_key_total (order4 p1 p2 p3 p4) t HI Hne) as (a & t1 & HG).
    destruct (Get_key_spec _ _ _ _ HI HG)
      as (HI1 & _ & Hlen & _ & ia & Ha & Hka & _).
    assert (Hne1 : table t1 <> []).
    { intros Hnil. apply Hne. apply length_zero_iff_nil.
      rewrite <- Hlen, Hnil. done. }
    destruct (Get_key_total (order4 q1 q2 q3 q4) t1 HI1 Hne1)
      as (b & t2 & HG2).
    destruct (Get_key_spec _ _ _ _ HI1 HG2)
      as (HI2 & _ & _ & _ & ib & Hb & Hkb & _).
    pose proof (Get_key_preserves _ _ _ _ _ _ HI1 HG2 Ha) as Ha2.
    exists a, t1, b, t2, ia, ib. split_and!; try done.
    intros ->. unfold live in *. rewrite Ha2 in Hb. injection Hb as ->.
    apply Hdiff, order4_eq_iff. congruence.
Qed.

Lemma Get4_three_smallest_witness :
  (exists a t1 t2,
     Get4 7 2 5 9 Scenario.q0 = Ok a t1 /\ Get4 2 100 7 5 t1 = Ok a t2 /\
     same_but_counters t1 t2) /\
  (exists a t1 b t2 ia ib,
     Get4 7 2 5 9 Scenario.q0 = Ok a t1 /\ Get4 7 2 6 9 t1 = Ok b t2 /\
     a <> b /\ live t2 a ia /\ live t2 b ib /\
     key ia = order4 7 2 5 9 /\ key ib = order4 7 2 6 9).
Proof.
  split.
  - apply (Get4_three_smallest 7 2 5 9 2 100 7 5 Scenario.q0);
      [reflexivity | apply ScenarioFacts.reach_q0 | discriminate].
  - apply (Get4_three_smallest 7 2 5 9 7 2 6 9 Scenario.q0);
      [vm_compute; discriminate | apply ScenarioFacts.reach_q0 | discriminate].
Defined.

(** ** Get of parents that are in the table *)

(** C3: on a table that calls have reached, [Get] with the parents of a
    live item, in either order, returns this item and changes nothing but
    the two counters: the item, the store, the bins, the list of used
    bins, the id index and the id generator are as before. *)
Theorem Get2_idempotent (t : HashTable (Z * Z)) (a : addr)
    (it : ItemT (Z * Z)) (q1 q2 : Z) :
  Reachable2 t -> live t a it -> key it = (q1, q2) ->
  exists t',
    Get2 q1 q2 t = Ok a t' /\ Get2 q2 q1 t = Ok a t' /\
    same_but_counters t t' /\ live t' a it /\
    store t' = store t /\ table t' = table t /\
    used_bins t' = used_bins t /\ new_bin t' = new_bin t /\
    id_to_item t' = id_to_item t /\ id_gen t' = id_gen t.
Proof.
  intros HR Ha Hk. pose proof (Reachable2_Inv _ HR) as HI.
  pose proof (Reachable2_ordered t a it HR Ha) as Hord.
  rewrite Hk in Hord. simpl in Hord.
  assert (Hk' : key it = order2 q1 q2) by (by rewrite order2_ordered).
  destruct (Get_key_found _ t a it HI Ha Hk') as (t' & HG & Ht').
  exists t'. unfold Get2. rewrite (order2_comm q2 q1).
  split_and!; try done; by rewrite Ht'.
Qed.

Lemma Get2_idempotent_witness :
  exists t',
    Get2 2 5 Scenario.t1 = Ok 0%nat t' /\ Get2 5 2 Scenario.t1 = Ok 0%nat t' /\
    same_but_counters Scenario.t1 t' /\ live t' 0%nat Scenario.A /\
    store t' = store Scenario.t1 /\ table t' = table Scenario.t1 /\
    used_bins t' = used_bins Scenario.t1 /\
    new_bin t' = new_bin Scenario.t1 /\
    id_to_item t' = id_to_item Scenario.t1 /\
    id_gen t' = id_gen Scenario.t1.
Proof.
  apply (Get2_idempotent Scenario.t1 0%nat Scenario.A 2 5);
    [apply ScenarioFacts.reach1 | reflexivity | reflexivity].
Defined.

(** ** Delete of a live item *)

(** C4: on a table that calls have reached, [Delete] of a live item
    returns; after it [Peek] with the parents of the item, in either order,
    returns NULL and [Peek] of its id returns NULL; the chain of the bin
    that the stored parents hash to is the chain it was without the item,
    the item is no longer in the store, its slot of the id index is NULL
    and its id is released to the generator. *)
Theorem Delete_then_Peek_absent (t : HashTable (Z * Z)) (a : addr)
    (it : ItemT (Z * Z)) (q1 q2 : Z) :
  Reachable2 t -> live t a it -> key it = (q1, q2) ->
  exists t',
    Delete a t = Ok tt t' /\
    (exists t'', Peek2 q1 q2 t' = Ok None t'') /\
    (exists t'', Peek2 q2 q1 t' = Ok None t'') /\
    Peek_id (id it) t' = Ok None t' /\
    (exists l1 l2,
       bin_chain t (hash (mask t) (key it)) (l1 ++ a :: l2) /\
       bin_chain t' (hash (mask t) (key it)) (l1 ++ l2)) /\
    store t' !! a = None /\
    id_to_item t' = assign (id_to_item t) (id it) None /\
    id_gen t' = IdGenerator_Reuse (id it) (id_gen t).
Proof.
  intros HR Ha Hk. pose proof (Reachable2_Inv _ HR) as HI.
  pose proof (Reachable2_ordered t a it HR Ha) as Hord.
  rewrite Hk in Hord. simpl in Hord.
  destruct (Delete_spec a it t HI Ha)
    as (t' & HD & HI' & Hchain & Hgone & Hback & _ & Hgen & Hids & _ & Hlen & _).
  assert (Hne : table t' <> []).
  { destruct (inv_live _ HI a it Ha) as (l & (h & Hh & _) & _).
    assert (is_Some (index (table t) (bin_of t it))) as Hs by (by eexists).
    apply index_is_Some in Hs. unfold Size in Hs.
    intros Hnil. rewrite Hnil in Hlen. simpl in Hlen. lia. }
  assert (Hno : forall b ib, live t' b ib -> key ib <> order2 q1 q2).
  { intros b ib Hb Hkb. destruct (Hback b ib Hb) as (Hne' & ib0 & Hb0 & Hk0 & _).
    apply Hne'. eapply (inv_keys _ HI); [done|done|].
    rewrite <- Hk0, Hkb, Hk. by apply order2_ordered. }
  destruct (Peek_key_absent _ t' HI' Hne Hno) as (t'' & HP & _).
  assert (Hrange : 0 <= id it < Size (id_to_item t)).
  { apply index_is_Some. rewrite (inv_ids _ HI a it Ha). by eexists. }
  exists t'. unfold Peek2. rewrite (order2_comm q2 q1).
  split_and!; try done; try by exists t''.
  unfold Peek_id. rewrite Hids. by rewrite index_assign_eq.
Qed.

Lemma Delete_then_Peek_absent_witness :
  exists t',
    Delete 0%nat Scenario.t3 = Ok tt t' /\
    (exists t'', Peek2 2 5 t' = Ok None t'') /\
    (exists t'', Peek2 5 2 t' = Ok None t'') /\
    Peek_id (id Scenario.A) t' = Ok None t' /\
    (exists l1 l2,
       bin_chain Scenario.t3 (hash (mask Scenario.t3) (key Scenario.A))
         (l1 ++ 0%nat :: l2) /\
       bin_chain t' (hash (mask Scenario.t3) (key Scenario.A)) (l1 ++ l2)) /\
    store t' !! 0%nat = None /\
    id_to_item t' = assign (id_to_item Scenario.t3) (id Scenario.A) None /\
    id_gen t' = IdGenerator_Reuse (id Scenario.A) (id_gen Scenario.t3).
Proof.
  apply (Delete_then_Peek_absent Scenario.t3 0%nat Scenario.A 2 5);
    [apply ScenarioFacts.reach3 | reflexivity | reflexivity].
Defined.

(** ** Ids *)

(** C5: on a table that calls have reached, two live items never have
    the same id; [Delete] of a live item returns and releases its id, and
    the next [Get] that makes a new item gives this id to the new item. *)
Theorem ids_unique_and_reused (t : HashTable (Z * Z)) :
  Reachable2 t ->
  (forall a b ia ib,
     live t a ia -> live t b ib -> id ia = id ib -> a = b) /\
  (forall a it, live t a it ->
     exists t1, Delete a t = Ok tt t1 /\
       forall p1 p2,
         (forall c ic, live t1 c ic -> key ic <> order2 p1 p2) ->
         exists b t2 ib,
           Get2 p1 p2 t1 = Ok b t2 /\ store t1 !! b = None /\
           live t2 b ib /\ key ib = order2 p1 p2 /\ id ib = id it).
Proof.
  intros HR. pose proof (Reachable2_Inv _ HR) as HI. split.
  - intros a b ia ib. by apply Inv_ids_unique.
  - intros a it Ha.
    destruct (Delete_spec a it t HI Ha)
      as (t1 & HD & HI1 & _ & _ & _ & _ & Hgen & _ & _ & Hlen & _).
    exists t1. split; [done|]. intros p1 p2 Hno.
    assert (Hne : table t1 <> []).
    { destruct (inv_live _ HI a it Ha) as (l & (h & Hh & _) & _).
      assert (is_Some (index (table t) (bin_of t it))) as Hs by (by eexists).
      apply index_is_Some in Hs. unfold Size in Hs.
      intros Hnil. rewrite Hnil in Hlen. simpl in Hlen. lia. }
    destruct (Get_key_total (order2 p1 p2) t1 HI1 Hne) as (b & t2 & HG).
    destruct (Get_key_spec _ _ _ _ HI1 HG)
      as (_ & _ & _ & _ & ib & Hb & Hk &
          [[Hold _]|(_ & Hnone & _ & Hid & _)]).
    + exfalso. by eapply Hno.
    + exists b, t2, ib. split_and!; try done.
      rewrite Hid, Hgen. done.
Qed.


Lemma ids_unique_and_reused_witness :
  exists t1 b t2 ib,
    Delete 0%nat Scenario.t3 = Ok tt t1 /\
    Get2 1 3 t1 = Ok b t2 /\ store t1 !! b = None /\
    live t2 b ib /\ key ib = order2 1 3 /\ id ib = id Scenario.A.
Proof.
  destruct (proj2 (ids_unique_and_reused Scenario.t3 ScenarioFacts.reach3)
              0%nat Scenario.A eq_refl) as (t1 & HD & Hnext).
  rewrite ScenarioFacts.delete_A in HD. apply Ok_state_inj in HD.
  subst t1.
  destruct (Hnext 1 3 ScenarioFacts.no_1_3)
    as (b & t2 & ib & HG & Hnone & Hb & Hk & Hi).
  exists Scenario.freed, b, t2, ib.
  exact (conj ScenarioFacts.delete_A
           (conj HG (conj Hnone (conj Hb (conj Hk Hi))))).
Defined.

(** ** Peek of an id *)

(** C10: [Peek(id)] reads the slot [id] of the id index without a check.
    On a table that calls have reached, for an id below the size of the
    index it returns the live item that has this id, or NULL when no live
    item has it; for an id that is negative or not below the size the read
    is out of the bounds of the index. [Get] never shrinks the index and
    [Delete] keeps its size. *)
Theorem Peek_id_spec (t : HashTable (Z * Z)) (i : Z) :
  Reachable2 t ->
  (0 <= i < Size (id_to_item t) ->
   exists r, Peek_id i t = Ok r t /\
     match r with
     | Some a => exists it, live t a it /\ id it = i
     | None => forall a it, live t a it -> id it <> i
     end) /\
  (~ 0 <= i < Size (id_to_item t) -> Peek_id i t = Undefined) /\
  (forall p1 p2 a t', Get2 p1 p2 t = Ok a t' ->
     Size (id_to_item t) <= Size (id_to_item t')) /\
  (forall a t', Delete a t = Ok tt t' ->
     Size (id_to_item t') = Size (id_to_item t)).
Proof.
  intros HR. pose proof (Reachable2_Inv _ HR) as HI. split_and!.
  - intros Hi. apply index_is_Some in Hi as [r Hr].
    exists r. unfold Peek_id. rewrite Hr. split; [done|].
    destruct r as [a|].
    + by apply (inv_slots _ HI).
    + intros a it Ha Hid. pose proof (inv_ids _ HI a it Ha) as Hs.
      rewrite Hid in Hs. congruence.
  - intros Hi. unfold Peek_id.
    destruct (index (id_to_item t) i) as [r|] eqn:Hr; [|done].
    exfalso. apply Hi, index_is_Some. by eexists.
  - intros p1 p2 a t' HG. by apply (Get_key_spec _ _ _ _ HI HG).
  - intros a t' HD.
    destruct (store t !! a) as [it|] eqn:Ha;
      [|unfold Delete in HD; by rewrite Ha in HD].
    destruct (Delete_spec a it t HI Ha)
      as (t1 & HD1 & _ & _ & _ & _ & _ & _ & Hids & _).
    rewrite HD in HD1. injection HD1 as <-.
    rewrite Hids. apply Size_assign.
Qed.

Lemma Peek_id_spec_witness :
  (exists r, Peek_id 1 Scenario.t3 = Ok r Scenario.t3 /\
     match r with
     | Some a => exists it, live Scenario.t3 a it /\ id it = 1
     | None => forall a it, live Scenario.t3 a it -> id it <> 1
     end) /\
  Peek_id 7 Scenario.t3 = Undefined.
Proof.
  split.
  - apply (Peek_id_spec Scenario.t3 1);
      [apply ScenarioFacts.reach3 | vm_compute; split; [discriminate|reflexivity]].
  - apply (Peek_id_spec Scenario.t3 7); [apply ScenarioFacts.reach3|].
    vm_compute. intros [_ Hlt]. discriminate Hlt.
Defined.

(** ** Delete of an item that is not in its chain *)

Section Missing.
Context {Key : Type} `{!Hashed Key}.

(** C8: when the item is alive but the chain of the bin its stored
    parents hash to does not pass through it, [Delete] walks the chain to
    its end and stops in [mfem_error]; the table is then as it was before
    the call: no slot of the id index is cleared and no id is released. *)
Theorem Delete_missing_fatal (t : HashTable Key) (item : addr)
    (it : ItemT Key) (head : option addr) (l : list addr) :
  live t item it ->
  index (table t) (hash (mask t) (key it)) = Some head ->
  is_chain (store t) head l ->
  item ∉ l ->
  Delete item t = Fatal "HashTable<>::Delete: item not found!" t.
Proof.
  intros Hitem Hhead Hl Hnotin. unfold Delete. unfold live in Hitem.
  rewrite Hitem.
  rewrite (Delete_loop_missing t item l (S (size (store t)))
             (TableSlot (hash (mask t) (key it))) head); try done.
  apply is_chain_length in Hl. lia.
Qed.

End Missing.


Lemma Delete_missing_fatal_witness :
  Delete 0%nat Scenario.stray = Fatal "HashTable<>::Delete: item not found!" Scenario.stray.
Proof.
  apply (Delete_missing_fatal Scenario.stray 0%nat Scenario.A None []);
    [reflexivity | reflexivity | constructor | apply not_elem_of_nil].
Defined.

(** ** The counters *)



Section Counters.
Context {Key : Type} `{!Hashed Key}.




End Counters.




(** ** The iterator *)

Section Iteration.
Context {Key : Type} `{!Hashed Key}.
Implicit Types (t : HashTable Key) (R : list (list addr)) (j : nat).

Lemma visit_order_nil_cons R : visit_order ([] :: R) = visit_order R.
Proof. by destruct R. Qed.

Lemma visit_order_cons c R :
  R <> [] -> visit_order (c :: R) = c ++ visit_order R.
Proof. by destruct R. Qed.

Lemma visit_order_sublist R : visit_order R `sublist_of` concat R.
Proof.
  induction R as [|c R IH]; [done|]. destruct R as [|c' R].
  - simpl. rewrite app_nil_r. apply sublist_take.
  - rewrite visit_order_cons by done. simpl concat.
    by apply sublist_app.
Qed.

Lemma chains_from_nil t j : chains_from t j [] -> (length (used_bins t) <= j)%nat.
Proof.
  unfold chains_from. intros Hf%Forall2_nil_inv_r.
  apply (f_equal length) in Hf. rewrite length_drop in Hf. simpl in Hf. lia.
Qed.

Lemma chains_from_cons t j c R :
  chains_from t j (c :: R) ->
  exists b, used_bins t !! j = Some b /\ bin_chain t b c /\
    chains_from t (S j) R.
Proof.
  unfold chains_from. intros Hf.
  apply Forall2_cons_inv_r in Hf as (b & bs & Hb & Hbs & Hdrop).
  assert (Hj : used_bins t !! j = Some b).
  { pose proof (lookup_drop (used_bins t) j 0) as Hl.
    rewrite Hdrop, Nat.add_0_r in Hl. done. }
  exists b. split; [done|]. split; [done|].
  rewrite (drop_S _ _ _ Hj) in Hdrop. by injection Hdrop as <-.
Qed.

Lemma chains_from_length t j R :
  chains_from t j R -> (length R <= length (used_bins t))%nat.
Proof.
  intros Hf%Forall2_length. rewrite length_drop in Hf. lia.
Qed.

(** The [while] loop of [next] stops at the head of the first used bin
    from [j] on that is not empty. *)
Lemma next_switch_land t R j fuel :
  chains_from t j R -> (length R < fuel)%nat ->
  next_switch fuel t {| next_bin := Z.of_nat j; cur_item := None |} =
    Ok tt (land R (Z.of_nat j)).
Proof.
  revert j fuel. induction R as [|c R IH]; intros j fuel Hf Hfuel;
    (destruct fuel as [|fuel]; [simpl in Hfuel; lia|]); simpl.
  - apply chains_from_nil in Hf. unfold Size.
    by rewrite decide_False by lia.
  - apply chains_from_cons in Hf as (b & Hj & (head & Hhead & Hc) & Hf).
    pose proof (lookup_lt_Some _ _ _ Hj) as Hlt.
    unfold Size. rewrite decide_True by lia.
    unfold index at 1. rewrite decide_True by lia.
    rewrite Nat2Z.id, Hj, Hhead.
    replace (Z.of_nat j + 1) with (Z.of_nat (S j)) by lia.
    inversion Hc as [|a ia s Ha Hs]; subst.
    + apply IH; [done | simpl in Hfuel; lia].
    + destruct fuel as [|fuel]; [simpl in Hfuel; lia|]. done.
Qed.

(** From the head of a chain of a bin that is not the last used bin, the
    iterator visits the chain and goes on with the next used bins. *)
Lemma collect_chain t R j s a fuel :
  (forall fuel', (length (visit_order R) < fuel')%nat ->
     exists it, Iterator_collect fuel' t (land R (Z.of_nat (S j))) =
                  Ok (visit_order R) it) ->
  chains_from t (S j) R -> R <> [] ->
  is_chain (store t) (Some a) (a :: s) ->
  (length ((a :: s) ++ visit_order R) < fuel)%nat ->
  exists it,
    Iterator_collect fuel t
      {| next_bin := Z.of_nat (S j); cur_item := Some a |} =
      Ok ((a :: s) ++ visit_order R) it.
Proof.
  intros Hrest Hf Hne. revert a fuel.
  assert (Hlt : (S j < length (used_bins t))%nat).
  { destruct R as [|c R]; [done|].
    apply chains_from_cons in Hf as (b & Hj & _).
    by apply lookup_lt_Some in Hj. }
  induction s as [|b s IH]; intros a fuel Hc Hfuel;
    (destruct fuel as [|fuel]; [simpl in Hfuel; lia|]);
    inversion Hc as [|a' ia s' Ha Hs]; subst;
    cbn [Iterator_collect cur_item]; unfold Iterator_next;
    cbn [next_bin cur_item]; unfold Size;
    rewrite decide_False by lia; rewrite Ha;
    change (next <$> Some ia) with (Some (next ia)).
  - inversion Hs as [Hnext|]; subst.
    rewrite (next_switch_land t R (S j));
      [|done|apply chains_from_length in Hf; lia].
    destruct (Hrest fuel) as (it & Hit); [simpl in Hfuel; lia|].
    rewrite Hit. by eexists.
  - inversion Hs as [|b' ib s' Hb Hs' Hnext]; subst.
    cbn [next_switch cur_item].
    destruct (IH b fuel) as (it & Hit).
    { rewrite <- Hnext in Hs. exact Hs. }
    { simpl in Hfuel. simpl. lia. }
    rewrite Hit. by eexists.
Qed.

(** From where the loop of [next] stops, the iterator visits the chains
    of the used bins that follow, but of the last of them the head only. *)
Lemma collect_land t R j fuel :
  chains_from t j R -> (length (visit_order R) < fuel)%nat ->
  exists it,
    Iterator_collect fuel t (land R (Z.of_nat j)) = Ok (visit_order R) it.
Proof.
  revert j fuel. induction R as [|c R IH]; intros j fuel Hf Hfuel.
  - destruct fuel as [|fuel]; [simpl in Hfuel; lia|]. simpl. by eexists.
  - apply chains_from_cons in Hf as (b & Hj & (head & Hhead & Hc) & Hf).
    replace (Z.of_nat j + 1) with (Z.of_nat (S j)) in * by lia.
    destruct c as [|a s].
    + rewrite visit_order_nil_cons in *. simpl.
      replace (Z.of_nat j + 1) with (Z.of_nat (S j)) by lia. by apply IH.
    + simpl land. replace (Z.of_nat j + 1) with (Z.of_nat (S j)) by lia.
      inversion Hc as [|a' ia s' Ha Hs]; subst.
      destruct R as [|c' R].
      * apply chains_from_nil in Hf.
        destruct fuel as [|[|fuel]]; [simpl in Hfuel; lia ..|].
        simpl. unfold Iterator_next. simpl. unfold Size.
        rewrite decide_True by lia. simpl. by eexists.
      * rewrite visit_order_cons in * by done.
        apply (collect_chain t (c' :: R) j s a fuel); try done.
        intros fuel' Hfuel'. by apply IH.
Qed.

End Iteration.

Section IterationInv.
Context {Key : Type} `{!Hashed Key}.
Implicit Types (t : HashTable Key) (R : list (list addr)).

Lemma chains_exist t bs :
  Inv t -> (forall b, b ∈ bs -> 0 <= b < Size (table t)) ->
  exists R, Forall2 (bin_chain t) bs R.
Proof.
  intros HI. induction bs as [|b bs IH]; intros Hrange.
  - exists []. constructor.
  - destruct IH as [R HR]; [intros b' Hb'; apply Hrange; by right|].
    destruct (proj2 (index_is_Some (table t) b) (Hrange b ltac:(left)))
      as [head Hhead].
    destruct (inv_chains _ HI b head Hhead) as (c & Hc & _).
    exists (c :: R). constructor; [by exists head|done].
Qed.

Lemma chains_members t bs R a :
  Inv t -> Forall2 (bin_chain t) bs R -> a ∈ concat R ->
  exists b ia, b ∈ bs /\ live t a ia /\ bin_of t ia = b.
Proof.
  intros HI HR. induction HR as [|b c bs R (head & Hhead & Hc) _ IH];
    simpl; intros Ha.
  - by apply elem_of_nil in Ha.
  - apply elem_of_app in Ha as [Ha|Ha].
    + destruct (inv_chains _ HI b head Hhead) as (c' & Hc' & Hbin).
      rewrite <- (is_chain_det _ _ _ _ Hc Hc') in Hbin.
      destruct (Hbin a Ha) as (ia & Hia & Hb).
      exists b, ia. split; [by left|done].
    + destruct (IH Ha) as (b' & ia & Hb' & Hia & Hbin).
      exists b', ia. split; [by right|done].
Qed.

Lemma chains_NoDup t bs R :
  Inv t -> NoDup bs -> Forall2 (bin_chain t) bs R -> NoDup (concat R).
Proof.
  intros HI Hnd HR. induction HR as [|b c bs R Hbc HR IH]; simpl.
  - constructor.
  - apply NoDup_cons in Hnd as [Hb Hnd]. apply NoDup_app.
    split; [destruct Hbc as (head & _ & Hc); by eapply is_chain_NoDup|].
    split; [|by apply IH].
    intros a Ha Ha'.
    destruct (chains_members t [b] [c] a HI) as (b1 & ia & Hb1 & Hia & Hbin).
    { by repeat constructor. }
    { simpl. by rewrite app_nil_r. }
    destruct (chains_members t bs R a HI HR Ha')
      as (b2 & ia' & Hb2 & Hia' & Hbin').
    apply list_elem_of_singleton in Hb1. unfold live in *.
    rewrite Hia in Hia'. injection Hia' as <-. congruence.
Qed.

Lemma visit_order_length t R :
  Inv t -> Forall2 (bin_chain t) (used_bins t) R ->
  (length (visit_order R) <= size (store t))%nat.
Proof.
  intros HI HR.
  etrans; [apply sublist_length, visit_order_sublist|].
  assert (Hsub : concat R ⊆+ elements (dom (store t))).
  { apply NoDup_submseteq.
    - eapply chains_NoDup; [done|apply (inv_used_nodup _ HI)|done].
    - intros a Ha. apply elem_of_elements, elem_of_dom.
      destruct (chains_members t _ R a HI HR Ha) as (_ & ia & _ & Hia & _).
      by exists ia. }
  apply submseteq_length in Hsub. by rewrite <- size_dom.
Qed.

(** On a table that meets the invariant a new iterator visits the chains
    of the used bins in the order of [used_bins], each from its head on,
    and stops behind the head of the chain of the last used bin. *)
Lemma Iterator_visits t R :
  Inv t -> Forall2 (bin_chain t) (used_bins t) R ->
  exists it, visited t = Ok (visit_order R) it.
Proof.
  intros HI HR. unfold visited, Iterator_new, Iterator_next.
  cbn [next_bin cur_item].
  assert (Hf : chains_from t 0 R) by done.
  assert (Hnew : (if decide (0 >= Size (used_bins t))
                  then Ok tt {| next_bin := 0; cur_item := None |}
                  else next_switch (S (length (used_bins t))) t
                         {| next_bin := 0; cur_item := None |}) =
                 Ok tt (land R (Z.of_nat 0))).
  { case_decide as Hsz.
    - assert (used_bins t = []) as Hnil.
      { apply length_zero_iff_nil. unfold Size in Hsz. lia. }
      rewrite Hnil in HR. apply Forall2_nil_inv_l in HR. by subst R.
    - apply (next_switch_land t R 0); [done|].
      apply chains_from_length in Hf. lia. }
  rewrite Hnew.
  apply collect_land; [done|].
  pose proof (visit_order_length t R HI HR). lia.
Qed.

End IterationInv.

(** The same for the tables of pairs that calls reach. *)
Lemma Iterator_visits_reachable (t : HashTable (Z * Z)) :
  Reachable2 t ->
  exists R it,
    Forall2 (bin_chain t) (used_bins t) R /\
    visited t = Ok (visit_order R) it.
Proof.
  intros HI%Reachable2_Inv.
  destruct (chains_exist t (used_bins t) HI (inv_used_range _ HI)) as [R HR].
  destruct (Iterator_visits t R HI HR) as [it Hit]. by exists R, it.
Qed.

(** *** Two items in the last used bin *)

(** C6, on a table with two items in one bin: both items are alive and in
    the chain of bin 1, the only used bin, and a new iterator visits the
    item made last and then stops: the item (0,1) behind it in the chain
    is never visited. The destructor, which deletes the items the
    iterator visits, leaves this item in the store. *)
Theorem Iterator_skips_chain_of_last_bin :
  Get2 0 1 Scenario.t0 = Ok 0%nat Scenario.collide1 /\
  Get2 2 3 Scenario.collide1 = Ok 1%nat Scenario.collide2 /\
  Reachable2 Scenario.collide2 /\
  live Scenario.collide2 0%nat {| id := 0; key := (0, 1); next := None |} /\
  live Scenario.collide2 1%nat
    {| id := 1; key := (2, 3); next := Some 0%nat |} /\
  used_bins Scenario.collide2 = [1] /\
  bin_chain Scenario.collide2 1 [1%nat; 0%nat] /\
  visited Scenario.collide2 =
    Ok [1%nat] {| next_bin := 1; cur_item := None |} /\
  HashTable_destroy Scenario.collide2 =
    Ok [] {[ 0%nat := {| id := 0; key := (0, 1); next := None |} ]}.
Proof.
  split_and!; try reflexivity.
  - apply (Reachable2_Get 2 3 Scenario.collide1 1%nat); [|reflexivity].
    apply (Reachable2_Get 0 1 Scenario.t0 0%nat); [|reflexivity].
    apply ScenarioFacts.reach0.
  - exists (Some 1%nat). split; [reflexivity|].
    econstructor; [reflexivity|]. econstructor; [reflexivity|]. constructor.
Qed.


(** * Further properties of the code *)

(** ** sort3 and sort4 *)

(** X1: [detail::sort3] returns its three arguments in ascending order. *)
Theorem sort3_sorts (a b c : Z) :
  let '(x, y, z) := detail.sort3 a b c in
  x <= y <= z /\ [x; y; z] ≡ₚ [a; b; c].
Proof.
  unfold detail.sort3.
  repeat (case_decide; simpl); (split; [lia | perm_small]).
Qed.

(** X2: [detail::sort4] returns its four arguments in ascending order. *)
Theorem sort4_sorts (a b c d : Z) :
  let '(x, y, z, w) := detail.sort4 a b c d in
  (x <= y /\ y <= z /\ z <= w) /\ [x; y; z; w] ≡ₚ [a; b; c; d].
Proof.
  unfold detail.sort4, detail.sort3.
  repeat (case_decide; simpl); (split; [lia | perm_small]).
Qed.

(** ** The hash functions *)

Lemma wrap_mod_pow2 (x k : Z) :
  0 <= k <= 32 -> Int32.wrap x mod 2 ^ k = x mod 2 ^ k.
Proof.
  intros Hk. unfold Int32.wrap, Int32.modulus, Int32.half.
  assert (Hpos : 0 < 2 ^ k) by (apply Z.pow_pos_nonneg; lia).
  assert (Hdiv : (2 ^ k | 2 ^ 32)).
  { exists (2 ^ (32 - k)). rewrite <- Z.pow_add_r by lia. f_equal. lia. }
  rewrite Zminus_mod, (Z.mod_mod_divide _ _ _ Hdiv).
  rewrite <- Zminus_mod. f_equal. lia.
Qed.

Lemma land_pow2_pred (x k : Z) :
  0 <= k -> Z.land x (2 ^ k - 1) = x mod 2 ^ k.
Proof.
  intros Hk. replace (2 ^ k - 1) with (Z.ones k)
    by (rewrite Z.ones_equiv; lia).
  by apply Z.land_ones.
Qed.

(** X3: with the mask of a table of [2^k] bins both hash functions are the
    residue modulo [2^k] of the exact sum of products: the wrap-around of
    the int products and sums does not change the bin, and the bin is an
    index of the table. *)
Theorem hash_residue (k p1 p2 p3 : Z) :
  0 <= k <= 32 ->
  hash2 (2 ^ k - 1) p1 p2 =
    (984120265 * p1 + 125965121 * p2) mod 2 ^ k /\
  hash3 (2 ^ k - 1) p1 p2 p3 =
    (984120265 * p1 + 125965121 * p2 + 495698413 * p3) mod 2 ^ k /\
  0 <= hash2 (2 ^ k - 1) p1 p2 < 2 ^ k /\
  0 <= hash3 (2 ^ k - 1) p1 p2 p3 < 2 ^ k.
Proof.
  intros Hk.
  assert (Hpos : 0 < 2 ^ k) by (apply Z.pow_pos_nonneg; lia).
  assert (H2 : hash2 (2 ^ k - 1) p1 p2 =
               (984120265 * p1 + 125965121 * p2) mod 2 ^ k).
  { unfold hash2, Int32.add, Int32.mul. rewrite land_pow2_pred by lia.
    rewrite wrap_mod_pow2 by done.
    rewrite Zplus_mod, !wrap_mod_pow2 by done. by rewrite <- Zplus_mod. }
  assert (H3 : hash3 (2 ^ k - 1) p1 p2 p3 =
               (984120265 * p1 + 125965121 * p2 + 495698413 * p3)
                 mod 2 ^ k).
  { unfold hash3, Int32.add, Int32.mul. rewrite land_pow2_pred by lia.
    rewrite wrap_mod_pow2 by done.
    rewrite Zplus_mod, !wrap_mod_pow2 by done.
    rewrite (Zplus_mod (Int32.wrap _) (Int32.wrap _)), !wrap_mod_pow2 by done.
    rewrite <- (Zplus_mod (984120265 * p1)). by rewrite <- Zplus_mod. }
  rewrite H2, H3. split_and!; try done; by apply Z.mod_pos_bound.
Qed.

Lemma hash_residue_witness :
  hash2 (2 ^ 2 - 1) 2 5 = (984120265 * 2 + 125965121 * 5) mod 2 ^ 2 /\
  hash3 (2 ^ 2 - 1) 2 5 7 =
    (984120265 * 2 + 125965121 * 5 + 495698413 * 7) mod 2 ^ 2 /\
  0 <= hash2 (2 ^ 2 - 1) 2 5 < 2 ^ 2 /\
  0 <= hash3 (2 ^ 2 - 1) 2 5 7 < 2 ^ 2.
Proof. apply (hash_residue 2 2 5 7). lia. Defined.

(** ** The constructor on the other sizes *)

Section ConstructorChecks.
Context {Key : Type} `{!Hashed Key}.

(** X4: for every int size but 0 and INT_MIN the constructor builds the
    table exactly when the size is a power of two, with all bins empty,
    all bins flagged as new, the mask [size - 1] and zeroed counters, and
    stops in [mfem_error] otherwise; a negative size is never accepted. *)
Theorem HashTable_new_checks_power_of_two (size : Z) :
  Int32.in_range size -> size <> 0 -> size <> Int32.INT_MIN ->
  (is_power_of_two size ->
     HashTable_new (Key := Key) size =
       Ok {| table := replicate (Z.to_nat size) None;
             mask := size - 1;
             id_gen := IdGenerator_new;
             id_to_item := [];
             used_bins := [];
             new_bin := replicate (Z.to_nat size) true;
             nqueries := 0;
             ncollisions := 0;
             store := ∅ |} tt) /\
  (~ is_power_of_two size ->
     HashTable_new (Key := Key) size =
       Fatal "Hash table size must be a power of two." tt) /\
  (size < 0 -> ~ is_power_of_two size).
Proof.
  intros Hrange Hnz Hmin.
  assert (Hneg : size < 0 -> ~ is_power_of_two size).
  { intros Hlt (k & Hk & Heq).
    pose proof (Z.pow_pos_nonneg 2 k ltac:(lia) Hk). lia. }
  destruct (decide (0 < size)) as [Hpos|Hnpos].
  - destruct (HashTable_new_positive (Key := Key) size) as [Hok Hfail].
    { revert Hrange. unfold Int32.in_range. lia. }
    by split_and!.
  - split_and!; [intros Hp; exfalso; apply Hneg; [lia|done] | |done].
    intros _. unfold HashTable_new, Int32.sub. rewrite wrap_small.
    + rewrite decide_True; [done|].
      assert (Z.land size (size - 1) < 0); [|lia].
      apply Z.land_neg. lia.
    + revert Hrange Hmin. unfold Int32.in_range, Int32.INT_MIN,
        Int32.INT_MAX, Int32.half. lia.
Qed.

End ConstructorChecks.

Lemma HashTable_new_checks_power_of_two_witness :
  HashTable_new (Key := Z * Z) 4 = Ok Scenario.t0 tt /\
  HashTable_new (Key := Z * Z) 6 =
    Fatal "Hash table size must be a power of two." tt /\
  HashTable_new (Key := Z * Z) (-4) =
    Fatal "Hash table size must be a power of two." tt.
Proof.
  assert (Hin : forall x, -10 <= x <= 10 -> Int32.in_range x).
  { unfold Int32.in_range, Int32.INT_MIN, Int32.INT_MAX, Int32.half. lia. }
  split_and!.
  - apply (HashTable_new_checks_power_of_two (Key := Z * Z) 4);
      [apply Hin; lia | lia | discriminate |].
    exists 2. split; [lia | reflexivity].
  - apply (HashTable_new_checks_power_of_two (Key := Z * Z) 6);
      [apply Hin; lia | lia | discriminate |].
    intros (k & Hk & Heq).
    assert (k < 3) by (apply (Z.pow_lt_mono_r_iff 2); lia).
    assert (Hcases : k = 0 \/ k = 1 \/ k = 2) by lia.
    destruct Hcases as [Hk0|[Hk0|Hk0]]; subst k; discriminate.
  - apply (HashTable_new_checks_power_of_two (Key := Z * Z) (-4));
      [apply Hin; lia | lia | discriminate |].
    apply (HashTable_new_checks_power_of_two (Key := Z * Z) (-4));
      [apply Hin; lia | lia | discriminate | lia].
Defined.

(** ** What a creating Get changes *)

Section Created.
Context {Key : Type} `{!Hashed Key} `{!HashedLaws Key}.
Implicit Types (t : HashTable Key) (k : Key) (l : list addr) (a b : addr).

(** [Get] of parents that no live item has makes one item, at an address
    that was free, links it in front of the chain of its bin and lists the
    bin as used when it was new. *)
Lemma Get_key_created k t a t' :
  Inv t -> (forall b ib, live t b ib -> key ib <> k) ->
  Get_key k t = Ok a t' ->
  exists head fb,
    index (table t) (hash (mask t) k) = Some head /\
    index (new_bin t) (hash (mask t) k) = Some fb /\
    store t !! a = None /\
    store t' =
      <[a := {| id := (IdGenerator_Get (id_gen t)).1; key := k;
                next := head |}]> (store t) /\
    table t' = assign (table t) (hash (mask t) k) (Some a) /\
    mask t' = mask t /\
    used_bins t' =
      (if fb then Append (used_bins t) (hash (mask t) k)
       else used_bins t) /\
    new_bin t' =
      (if fb then assign (new_bin t) (hash (mask t) k) false
       else new_bin t).
Proof.
  intros HI Hno. unfold Get_key.
  destruct (index (table t) (hash (mask t) k)) as [head|] eqn:Hhead; [|done].
  destruct (Peek_key_spec k t head HI Hhead) as (r & t1 & Hs & _ & Ht1 & Hr).
  rewrite Hs. destruct r as [b|].
  { destruct Hr as (ib & Hb & Hk). exfalso. by eapply Hno. }
  assert (Hst : store t1 = store t) by (by rewrite Ht1).
  assert (Hmk : mask t1 = mask t) by (by rewrite Ht1).
  assert (Htb : table t1 = table t) by (by rewrite Ht1).
  assert (Hig : id_gen t1 = id_gen t) by (by rewrite Ht1).
  assert (Hub : used_bins t1 = used_bins t) by (by rewrite Ht1).
  assert (Hnb : new_bin t1 = new_bin t) by (by rewrite Ht1).
  unfold create. rewrite Hig, Htb, Hnb, Hst, Hub, Hhead.
  destruct (IdGenerator_Get (id_gen t)) as [newid g].
  destruct (index (new_bin t) (hash (mask t) k)) as [fb|]; [|done].
  destruct (index _ newid); [|done].
  intros [= <- <-]. exists head, fb. simpl. split_and!; try done.
  apply not_elem_of_dom, is_fresh.
Qed.

End Created.

(** ** The bins of a table *)

Lemma Reachable2_mask t :
  Reachable2 t ->
  (mask t = -1 /\ table t = []) \/ is_power_of_two (mask t + 1).
Proof.
  induction 1 as [size t Hsize Hnew|p1 p2 t a t' HR IH HG
                 |p1 p2 t r t' HR IH HP|item t t' HR IH HD].
  - unfold HashTable_new in Hnew. repeat case_decide; try done.
    injection Hnew as <-. simpl. unfold Int32.sub.
    assert (Hwrap : Int32.wrap (size - 1) = size - 1).
    { apply wrap_small. revert Hsize. unfold Int32.in_range,
        Int32.INT_MIN, Int32.INT_MAX, Int32.half. lia. }
    rewrite Hwrap. destruct (decide (size = 0)) as [->|Hnz]; [by left|].
    right. replace (size - 1 + 1) with size by lia.
    apply land_pred_power_of_two; [lia|].
    unfold Int32.sub in *. rewrite Hwrap in *.
    destruct (decide (Z.land size (size - 1) = 0)); [done|]. by exfalso.
  - rewrite Get2_eq in HG.
    destruct (Get_key_spec _ _ _ _ (Reachable2_Inv _ HR) HG)
      as (_ & Hm & Hlen & _).
    rewrite Hm. destruct IH as [[Hm1 Hnil]|Hp]; [left|by right].
    split; [done|]. apply length_zero_iff_nil. by rewrite Hlen, Hnil.
  - rewrite Peek2_eq in HP.
    destruct (Peek_key_Inv _ _ _ _ (Reachable2_Inv _ HR) HP) as [_ Hsame].
    by rewrite Hsame.
  - destruct (store t !! item) as [it|] eqn:Hitem;
      [|unfold Delete in HD; by rewrite Hitem in HD].
    destruct (Delete_spec item it t (Reachable2_Inv _ HR) Hitem)
      as (t'' & HD' & _ & _ & _ & _ & _ & _ & _ & Hm & Hlen & _).
    rewrite HD in HD'. apply Ok_state_inj in HD'. subst t''.
    rewrite Hm. destruct IH as [[Hm1 Hnil]|Hp]; [left|by right].
    split; [done|]. apply length_zero_iff_nil. by rewrite Hlen, Hnil.
Qed.

(** X5: the number of bins is fixed by the constructor: on a table that
    calls have reached it is [mask + 1], which is a power of two unless
    the table has no bin, the flags [new_bin] are as many, and [Get],
    [Peek] and [Delete] change neither the mask nor the number of bins:
    the table is never resized. *)
Theorem bins_never_change (t : HashTable (Z * Z)) :
  Reachable2 t ->
  Size (table t) = mask t + 1 /\
  length (new_bin t) = length (table t) /\
  (table t = [] \/ is_power_of_two (Size (table t))) /\
  (forall p1 p2 a t', Get2 p1 p2 t = Ok a t' ->
     mask t' = mask t /\ length (table t') = length (table t)) /\
  (forall p1 p2 r t', Peek2 p1 p2 t = Ok r t' ->
     mask t' = mask t /\ table t' = table t) /\
  (forall a t', Delete a t = Ok tt t' ->
     mask t' = mask t /\ length (table t') = length (table t)).
Proof.
  intros HR. pose proof (Reachable2_Inv _ HR) as HI.
  pose proof (inv_mask _ HI) as Hsize. split_and!.
  - done.
  - apply (inv_new_bin _ HI).
  - destruct (Reachable2_mask t HR) as [[_ Hnil]|Hp]; [by left|right].
    by rewrite Hsize.
  - intros p1 p2 a t' HG. rewrite Get2_eq in HG.
    by destruct (Get_key_spec _ _ _ _ HI HG) as (_ & Hm & Hlen & _).
  - intros p1 p2 r t' HP. rewrite Peek2_eq in HP.
    destruct (Peek_key_Inv _ _ _ _ HI HP) as [_ Hsame]. by rewrite Hsame.
  - intros a t' HD.
    destruct (store t !! a) as [it|] eqn:Hitem;
      [|unfold Delete in HD; by rewrite Hitem in HD].
    destruct (Delete_spec a it t HI Hitem)
      as (t'' & HD' & _ & _ & _ & _ & _ & _ & _ & Hm & Hlen & _).
    rewrite HD in HD'. apply Ok_state_inj in HD'. by subst t''.
Qed.

Lemma bins_never_change_witness :
  Size (table Scenario.t3) = mask Scenario.t3 + 1 /\
  length (new_bin Scenario.t3) = length (table Scenario.t3) /\
  (table Scenario.t3 = [] \/ is_power_of_two (Size (table Scenario.t3))) /\
  (forall p1 p2 a t', Get2 p1 p2 Scenario.t3 = Ok a t' ->
     mask t' = mask Scenario.t3 /\
     length (table t') = length (table Scenario.t3)) /\
  (forall p1 p2 r t', Peek2 p1 p2 Scenario.t3 = Ok r t' ->
     mask t' = mask Scenario.t3 /\ table t' = table Scenario.t3) /\
  (forall a t', Delete a Scenario.t3 = Ok tt t' ->
     mask t' = mask Scenario.t3 /\
     length (table t') = length (table Scenario.t3)).
Proof. apply (bins_never_change Scenario.t3), ScenarioFacts.reach3. Defined.

(** ** The stored parents *)

(** X6: on a table of pairs that calls have reached, the stored parents
    of every live item are in ascending order, and at most one live item
    has a given unordered pair of parents. *)
Theorem stored_pairs_ordered_and_unique (t : HashTable (Z * Z))
    (a b : addr) (ia ib : ItemT (Z * Z)) (p1 p2 : Z) :
  Reachable2 t -> live t a ia -> live t b ib ->
  (key ia).1 <= (key ia).2 /\
  (key ia = (p1, p2) -> key ib = (p1, p2) \/ key ib = (p2, p1) -> a = b).
Proof.
  intros HR Ha Hb. pose proof (Reachable2_Inv _ HR) as HI.
  pose proof (Reachable2_ordered t a ia HR Ha) as Hoa.
  pose proof (Reachable2_ordered t b ib HR Hb) as Hob.
  split; [done|]. intros Hka [Hkb|Hkb].
  - eapply (inv_keys _ HI); [done|done|congruence].
  - rewrite Hka in Hoa. rewrite Hkb in Hob. simpl in *.
    assert (p1 = p2) as -> by lia.
    eapply (inv_keys _ HI); [done|done|congruence].
Qed.

Lemma stored_pairs_ordered_and_unique_witness :
  (key Scenario.A).1 <= (key Scenario.A).2 /\
  (key Scenario.A = (2, 5) ->
   key Scenario.A = (2, 5) \/ key Scenario.A = (5, 2) -> 0%nat = 0%nat).
Proof.
  apply (stored_pairs_ordered_and_unique Scenario.t3 0%nat 0%nat
           Scenario.A Scenario.A 2 5);
    [apply ScenarioFacts.reach3 | vm_compute; reflexivity ..].
Defined.

(** The three values [sort4] keeps are in ascending order. *)
Lemma order4_sorted p1 p2 p3 p4 :
  (order4 p1 p2 p3 p4).1.1 <= (order4 p1 p2 p3 p4).1.2 /\
  (order4 p1 p2 p3 p4).1.2 <= (order4 p1 p2 p3 p4).2.
Proof.
  unfold order4, detail.sort4, detail.sort3.
  repeat (case_decide; simpl); lia.
Qed.

Lemma Reachable4_ordered t a it :
  Reachable4 t -> live t a it ->
  (key it).1.1 <= (key it).1.2 /\ (key it).1.2 <= (key it).2.
Proof.
  intros HR. revert a it.
  induction HR as [size t Hsize Hnew|p1 p2 p3 p4 t b t' HR IH HG
                  |p1 p2 p3 p4 t r t' HR IH HP|item t t' HR IH HD];
    intros a it Ha.
  - unfold HashTable_new in Hnew. repeat case_decide; try done.
    injection Hnew as <-. unfold live in Ha. simpl in Ha.
    by rewrite lookup_empty in Ha.
  - rewrite Get4_eq in HG.
    destruct (Get_key_spec _ _ _ _ (Reachable4_Inv _ HR) HG)
      as (_ & _ & _ & _ & ib & Hb & Hk & [[Hold Hsame]|(_ & _ & Hst & _)]).
    + apply (IH a it). unfold live in *. rewrite Hsame in Ha. done.
    + unfold live in Ha. rewrite Hst in Ha.
      apply lookup_insert_Some in Ha as [[<- <-]|[_ Ha]]; [|by eapply IH].
      rewrite Hk. apply order4_sorted.
  - rewrite Peek4_eq in HP.
    destruct (Peek_key_Inv _ _ _ _ (Reachable4_Inv _ HR) HP) as [_ Hsame].
    apply (IH a it). unfold live in *. rewrite Hsame in Ha. done.
  - destruct (store t !! item) as [i0|] eqn:Hitem;
      [|unfold Delete in HD; by rewrite Hitem in HD].
    destruct (Delete_spec item i0 t (Reachable4_Inv _ HR) Hitem)
      as (t'' & HD' & _ & _ & _ & Hback & _).
    rewrite HD in HD'. apply Ok_state_inj in HD'. subst t''.
    destruct (Hback a it Ha) as (_ & ia & Hia & Hk & _).
    rewrite Hk. by eapply IH.
Qed.

(** X7: on a table of quadruples that calls have reached, the three
    stored parents of every live item are in ascending order, and no two
    live items have the same stored parents. *)
Theorem stored_triples_sorted_and_unique (t : HashTable (Z * Z * Z))
    (a b : addr) (ia ib : ItemT (Z * Z * Z)) :
  Reachable4 t -> live t a ia -> live t b ib ->
  ((key ia).1.1 <= (key ia).1.2 /\ (key ia).1.2 <= (key ia).2) /\
  (key ia = key ib -> a = b).
Proof.
  intros HR Ha Hb. split; [by eapply Reachable4_ordered|].
  by apply (inv_keys _ (Reachable4_Inv _ HR)).
Qed.

Lemma stored_triples_sorted_and_unique_witness :
  ((key Scenario.B).1.1 <= (key Scenario.B).1.2 /\
   (key Scenario.B).1.2 <= (key Scenario.B).2) /\
  (key Scenario.B = key Scenario.B -> 0%nat = 0%nat).
Proof.
  apply (stored_triples_sorted_and_unique Scenario.q1 0%nat 0%nat
           Scenario.B Scenario.B);
    [apply ScenarioFacts.reach_q1 | vm_compute; reflexivity ..].
Defined.

(** ** Used bins *)

Section Touched.
Context {Key : Type} `{!Hashed Key} `{!HashedLaws Key}.
Implicit Types (t : HashTable Key) (k : Key) (a b : addr).

Lemma touched_new size t : HashTable_new size = Ok t tt -> touched t.
Proof.
  unfold HashTable_new. repeat case_decide; try done. intros [= <-].
  split; simpl.
  - intros i [_ Hi]%index_Some. by apply lookup_replicate in Hi as [? _].
  - intros a it Ha. unfold live in Ha. simpl in Ha.
    by rewrite lookup_empty in Ha.
Qed.

Lemma touched_same t t' : same_but_counters t t' -> touched t -> touched t'.
Proof. intros ->. by intros [? ?]. Qed.

Lemma touched_Get k t a t' :
  Inv t -> touched t -> Get_key k t = Ok a t' -> touched t'.
Proof.
  intros HI [Hflag Hlive] HG.
  destruct (Get_key_spec _ _ _ _ HI HG)
    as (_ & Hm & _ & _ & it & Ha & Hk & [[_ Hsame]|(Hno & _ & Hst & _)]).
  { by apply (touched_same t t'). }
  destruct (Get_key_created k t a t' HI Hno HG)
    as (head & fb & Hhead & Hfb & _ & _ & _ & _ & Hub & Hnb).
  set (idx := hash (mask t) k) in *.
  assert (Hidx : 0 <= idx < Size (new_bin t)).
  { apply index_is_Some. by eexists. }
  assert (Hin : idx ∈ used_bins t').
  { rewrite Hub. destruct fb; [|by apply Hflag].
    apply elem_of_app. right. left. }
  assert (Hsub : forall i, i ∈ used_bins t -> i ∈ used_bins t').
  { intros i Hi. rewrite Hub. destruct fb; [|done].
    apply elem_of_app. by left. }
  split.
  - intros i Hi. rewrite Hnb in Hi. destruct fb; [|by apply Hsub, Hflag].
    destruct (decide (i = idx)) as [->|Hne]; [done|].
    rewrite index_assign_ne in Hi by lia. by apply Hsub, Hflag.
  - intros b ib Hb. unfold live in Hb. rewrite Hst in Hb.
    unfold bin_of. rewrite Hm.
    apply lookup_insert_Some in Hb as [[<- <-]|[_ Hb]].
    + by rewrite Hk.
    + by apply Hsub, (Hlive b ib).
Qed.

Lemma touched_Delete item t t' :
  Inv t -> touched t -> Delete item t = Ok tt t' -> touched t'.
Proof.
  intros HI [Hflag Hlive] HD.
  destruct (store t !! item) as [it|] eqn:Hitem;
    [|unfold Delete in HD; by rewrite Hitem in HD].
  destruct (Delete_spec item it t HI Hitem)
    as (t'' & HD' & _ & _ & _ & Hback & _ & _ & _ & Hm & _ & Hub & Hnb & _).
  rewrite HD in HD'. apply Ok_state_inj in HD'. subst t''.
  split.
  - intros i Hi. rewrite Hub. apply Hflag. by rewrite <- Hnb.
  - intros b ib Hb. destruct (Hback b ib Hb) as (_ & ib0 & Hb0 & Hk & _).
    unfold bin_of. rewrite Hub, Hm, Hk. by apply (Hlive b ib0).
Qed.

End Touched.

Lemma Reachable2_touched t : Reachable2 t -> touched t.
Proof.
  induction 1 as [size t Hsize Hnew|p1 p2 t a t' HR IH HG
                 |p1 p2 t r t' HR IH HP|item t t' HR IH HD].
  - by eapply touched_new.
  - rewrite Get2_eq in HG.
    exact (touched_Get _ _ _ _ (Reachable2_Inv _ HR) IH HG).
  - rewrite Peek2_eq in HP.
    destruct (Peek_key_Inv _ _ _ _ (Reachable2_Inv _ HR) HP) as [_ Hsame].
    exact (touched_same _ _ Hsame IH).
  - exact (touched_Delete _ _ _ (Reachable2_Inv _ HR) IH HD).
Qed.

(** X8: on a table that calls have reached, [used_bins] lists each bin at
    most once, it lists exactly the bins whose flag [new_bin] is cleared,
    and every bin that is not empty is listed; [Delete] leaves
    [used_bins] and [new_bin] as they are, so a bin stays listed when its
    last item is deleted. *)
Theorem used_bins_list_touched_bins (t : HashTable (Z * Z)) :
  Reachable2 t ->
  NoDup (used_bins t) /\
  (forall i, i ∈ used_bins t <-> index (new_bin t) i = Some false) /\
  (forall i a, index (table t) i = Some (Some a) -> i ∈ used_bins t) /\
  (forall a t', Delete a t = Ok tt t' ->
     used_bins t' = used_bins t /\ new_bin t' = new_bin t).
Proof.
  intros HR. pose proof (Reachable2_Inv _ HR) as HI.
  destruct (Reachable2_touched t HR) as [Hflag Hlive]. split_and!.
  - apply (inv_used_nodup _ HI).
  - intros i. split; [|apply Hflag]. intros Hi.
    pose proof (inv_used_range _ HI i Hi) as Hrange.
    assert (is_Some (index (new_bin t) i)) as [fb Hfb].
    { apply index_is_Some. unfold Size in *.
      by rewrite (inv_new_bin _ HI). }
    destruct fb; [|done]. by destruct (inv_used_new _ HI i Hfb).
  - intros i a Hi.
    destruct (inv_chains _ HI i (Some a) Hi) as (l & Hl & Hbin).
    inversion Hl as [|a' ia l' Ha Hl']; subst.
    destruct (Hbin a ltac:(left)) as (ia' & Hia & <-).
    by apply (Hlive a ia').
  - intros a t' HD.
    destruct (store t !! a) as [it|] eqn:Hitem;
      [|unfold Delete in HD; by rewrite Hitem in HD].
    destruct (Delete_spec a it t HI Hitem)
      as (t'' & HD' & _ & _ & _ & _ & _ & _ & _ & _ & _ & Hub & Hnb & _).
    rewrite HD in HD'. apply Ok_state_inj in HD'. by subst t''.
Qed.

Lemma used_bins_list_touched_bins_witness :
  NoDup (used_bins Scenario.t3) /\
  (forall i, i ∈ used_bins Scenario.t3 <->
             index (new_bin Scenario.t3) i = Some false) /\
  (forall i a, index (table Scenario.t3) i = Some (Some a) ->
     i ∈ used_bins Scenario.t3) /\
  (forall a t', Delete a Scenario.t3 = Ok tt t' ->
     used_bins t' = used_bins Scenario.t3 /\
     new_bin t' = new_bin Scenario.t3).
Proof.
  apply (used_bins_list_touched_bins Scenario.t3), ScenarioFacts.reach3.
Defined.

(** ** Lookups *)

(** X9: what [Get] returns can be looked up: after [Get(p1,p2)] on a
    table that calls have reached, the returned item is alive with the
    parents (min, max), [Peek] with the two parents in either order returns
    it, and [Peek] of its id returns it. *)
Theorem Get_then_Peek_finds (t : HashTable (Z * Z)) (p1 p2 : Z) (a : addr)
    (t' : HashTable (Z * Z)) :
  Reachable2 t -> Get2 p1 p2 t = Ok a t' ->
  exists it t1,
    live t' a it /\ key it = (Z.min p1 p2, Z.max p1 p2) /\
    Peek2 p1 p2 t' = Ok (Some a) t1 /\ Peek2 p2 p1 t' = Ok (Some a) t1 /\
    Peek_id (id it) t' = Ok (Some a) t'.
Proof.
  intros HR HG. rewrite Get2_eq in HG.
  destruct (Get_key_spec _ _ _ _ (Reachable2_Inv _ HR) HG)
    as (HI' & _ & _ & _ & it & Ha & Hk & _).
  destruct (Peek_key_found _ t' a it HI' Ha Hk) as (t1 & HP & _).
  exists it, t1. rewrite !Peek2_eq, (order2_comm p2 p1).
  split_and!; try done.
  - by rewrite <- order2_min_max.
  - unfold Peek_id. by rewrite (inv_ids _ HI' a it Ha).
Qed.

Lemma Get_then_Peek_finds_witness :
  exists it t1,
    live Scenario.t1 0%nat it /\ key it = (Z.min 5 2, Z.max 5 2) /\
    Peek2 5 2 Scenario.t1 = Ok (Some 0%nat) t1 /\
    Peek2 2 5 Scenario.t1 = Ok (Some 0%nat) t1 /\
    Peek_id (id it) Scenario.t1 = Ok (Some 0%nat) Scenario.t1.
Proof.
  apply (Get_then_Peek_finds Scenario.t0 5 2 0%nat Scenario.t1);
    [apply ScenarioFacts.reach0 | vm_compute; reflexivity].
Defined.

(** X10: [Peek] only looks: on a table with a bin that calls have
    reached it returns, it changes the two counters and nothing else, and
    it returns an item exactly when a live item has the two parents, in
    ascending order, as its stored parents; otherwise it returns NULL and
    makes no item. *)
Theorem Peek2_finds_iff_present (t : HashTable (Z * Z)) (p1 p2 : Z) :
  Reachable2 t -> table t <> [] ->
  exists r t',
    Peek2 p1 p2 t = Ok r t' /\ same_but_counters t t' /\
    store t' = store t /\
    forall a, r = Some a <->
      exists it, live t a it /\ key it = (Z.min p1 p2, Z.max p1 p2).
Proof.
  intros HR Hne. pose proof (Reachable2_Inv _ HR) as HI.
  destruct (bin_in_range t (order2 p1 p2) HI Hne) as [head Hhead].
  destruct (Peek_key_spec _ t head HI Hhead) as (r & t' & _ & HP & Ht' & Hr).
  exists r, t'. rewrite Peek2_eq, <- order2_min_max.
  split_and!; try done; [by rewrite Ht'..|].
  intros a. destruct r as [b|].
  - destruct Hr as (ib & Hb & Hk). split.
    + intros [= <-]. by exists ib.
    + intros (it & Ha & Hka). f_equal.
      eapply (inv_keys _ HI); [done|done|congruence].
  - split; [done|]. intros (it & Ha & Hka). exfalso. by eapply Hr.
Qed.

Lemma Peek2_finds_iff_present_witness :
  exists r t',
    Peek2 3 1 Scenario.t3 = Ok r t' /\ same_but_counters Scenario.t3 t' /\
    store t' = store Scenario.t3 /\
    forall a, r = Some a <->
      exists it, live Scenario.t3 a it /\ key it = (Z.min 3 1, Z.max 3 1).
Proof.
  apply (Peek2_finds_iff_present Scenario.t3 3 1);
    [apply ScenarioFacts.reach3 | vm_compute; discriminate].
Defined.

(** X11: [Get] of a pair that no live item has puts the new item in
    front of the chain of its bin and leaves the chains of the other bins
    and all the items that were alive as they are; the store has one item
    more, and the bin is appended to [used_bins] exactly when it was not
    listed. *)
Theorem Get_links_new_item_first (t : HashTable (Z * Z)) (p1 p2 : Z)
    (a : addr) (t' : HashTable (Z * Z)) :
  Reachable2 t ->
  (forall b ib, live t b ib -> key ib <> order2 p1 p2) ->
  Get2 p1 p2 t = Ok a t' ->
  let idx := hash2 (mask t) (Z.min p1 p2) (Z.max p1 p2) in
  exists l,
    bin_chain t idx l /\ bin_chain t' idx (a :: l) /\
    (forall i l', i <> idx -> bin_chain t i l' -> bin_chain t' i l') /\
    store t !! a = None /\ size (store t') = S (size (store t)) /\
    (forall b ib, live t b ib -> live t' b ib) /\
    used_bins t' =
      (if decide (idx ∈ used_bins t) then used_bins t
       else used_bins t ++ [idx]).
Proof.
  intros HR Hno HG idx. pose proof (Reachable2_Inv _ HR) as HI.
  rewrite Get2_eq in HG.
  destruct (Get_key_created _ t a t' HI Hno HG)
    as (head & fb & Hhead & Hfb & Hnone & Hst & Htb & Hm & Hub & Hnb).
  assert (Hidx : hash (mask t) (order2 p1 p2) = idx).
  { unfold idx. by rewrite order2_min_max. }
  rewrite Hidx in *.
  assert (Hrange : 0 <= idx < Size (table t)).
  { apply index_is_Some. by eexists. }
  destruct (inv_chains _ HI idx head Hhead) as (l & Hl & _).
  exists l. split_and!.
  - by exists head.
  - exists (Some a). rewrite Htb, Hst.
    split; [by apply index_assign_eq|].
    econstructor; [apply lookup_insert_eq|]. simpl.
    by apply is_chain_insert_fresh.
  - intros i l' Hne (h & Hh & Hl'). exists h. rewrite Htb, Hst.
    split; [rewrite index_assign_ne; [done|done|lia]|].
    by apply is_chain_insert_fresh.
  - done.
  - rewrite Hst. by apply map_size_insert_None.
  - intros b ib Hb. by eapply (Get_key_preserves _ t a t').
  - destruct (Reachable2_touched t HR) as [Hflag _].
    rewrite Hub. destruct fb.
    + rewrite decide_False; [done|]. by apply (inv_used_new _ HI).
    + rewrite decide_True; [done|]. by apply Hflag.
Qed.

Lemma Get_links_new_item_first_witness :
  let idx := hash2 (mask Scenario.t2) (Z.min 3 2) (Z.max 3 2) in
  exists l,
    bin_chain Scenario.t2 idx l /\ bin_chain Scenario.t3 idx (2%nat :: l) /\
    (forall i l', i <> idx -> bin_chain Scenario.t2 i l' ->
       bin_chain Scenario.t3 i l') /\
    store Scenario.t2 !! 2%nat = None /\
    size (store Scenario.t3) = S (size (store Scenario.t2)) /\
    (forall b ib, live Scenario.t2 b ib -> live Scenario.t3 b ib) /\
    used_bins Scenario.t3 =
      (if decide (idx ∈ used_bins Scenario.t2) then used_bins Scenario.t2
       else used_bins Scenario.t2 ++ [idx]).
Proof.
  apply (Get_links_new_item_first Scenario.t2 3 2 2%nat Scenario.t3);
    [apply ScenarioFacts.reach2 | | vm_compute; reflexivity].
  intros b ib Hb%elem_of_map_to_list.
  match type of Hb with
  | _ ∈ ?l =>
    change l with
      [(1%nat, {| id := 1; key := (0, 1); next := None |});
       (0%nat, Scenario.A)] in Hb
  end.
  apply elem_of_cons in Hb as [[= _ ->]|Hb]; [vm_compute; discriminate|].
  apply elem_of_cons in Hb as [[= _ ->]|Hb]; [vm_compute; discriminate|].
  by apply elem_of_nil in Hb.
Defined.

(** ** Delete and the other items *)

(** X12: [Delete] of a live item takes exactly this item out of the
    store: every other live item stays alive with its parents and its id,
    and is still found by [Peek] with its parents and by [Peek] of its
    id. *)
Theorem Delete_keeps_other_items (t : HashTable (Z * Z)) (a b : addr)
    (it ib : ItemT (Z * Z)) :
  Reachable2 t -> live t a it -> live t b ib -> b <> a ->
  exists t' ib' t1,
    Delete a t = Ok tt t' /\
    S (size (store t')) = size (store t) /\
    live t' b ib' /\ key ib' = key ib /\ id ib' = id ib /\
    Peek2 (key ib).1 (key ib).2 t' = Ok (Some b) t1 /\
    Peek_id (id ib) t' = Ok (Some b) t'.
Proof.
  intros HR Ha Hb Hne. pose proof (Reachable2_Inv _ HR) as HI.
  destruct (Delete_spec a it t HI Ha)
    as (t' & HD & HI' & _ & Hgone & Hback & Hforth & _).
  destruct (Hforth b ib Hb Hne) as (ib' & Hb' & Hk & Hi).
  pose proof (Reachable2_ordered t b ib HR Hb) as Hord.
  assert (Hk' : key ib' = order2 (key ib).1 (key ib).2).
  { rewrite order2_ordered by done. rewrite Hk. by destruct (key ib). }
  destruct (Peek_key_found _ t' b ib' HI' Hb' Hk') as (t1 & HP & _).
  exists t', ib', t1. rewrite Peek2_eq. split_and!; try done.
  - assert (Hdom : dom (store t) = {[a]} ∪ dom (store t')).
    { apply set_eq. intros c. rewrite elem_of_union, elem_of_singleton,
        !elem_of_dom. split.
      - intros [ic Hc]. destruct (decide (c = a)) as [->|Hca]; [by left|].
        right. destruct (Hforth c ic Hc Hca) as (ic' & Hc' & _).
        by exists ic'.
      - intros [->|[ic' Hc']]; [by exists it|].
        destruct (Hback c ic' Hc') as (_ & ic & Hc & _). by exists ic. }
    rewrite <- !size_dom, Hdom, size_union, size_singleton; [done|].
    intros c ->%elem_of_singleton [ic Hc]%elem_of_dom. congruence.
  - unfold Peek_id. rewrite <- Hi. by rewrite (inv_ids _ HI' b ib' Hb').
Qed.

Lemma Delete_keeps_other_items_witness :
  exists t' ib' t1,
    Delete 0%nat Scenario.t3 = Ok tt t' /\
    S (size (store t')) = size (store Scenario.t3) /\
    live t' 1%nat ib' /\ key ib' = (0, 1) /\ id ib' = 1 /\
    Peek2 0 1 t' = Ok (Some 1%nat) t1 /\
    Peek_id 1 t' = Ok (Some 1%nat) t'.
Proof.
  apply (Delete_keeps_other_items Scenario.t3 0%nat 1%nat Scenario.A
           {| id := 1; key := (0, 1); next := None |});
    [apply ScenarioFacts.reach3 | vm_compute; reflexivity ..
    | discriminate].
Defined.

(** X13: [Get] of a pair that no live item has, followed by [Delete] of
    the item it returns, gives back the store and the bins as they were
    before the [Get]: the same live items in the same chains. *)
Theorem Get_then_Delete_restores (t : HashTable (Z * Z)) (p1 p2 : Z)
    (a : addr) (t1 : HashTable (Z * Z)) :
  Reachable2 t ->
  (forall b ib, live t b ib -> key ib <> order2 p1 p2) ->
  Get2 p1 p2 t = Ok a t1 ->
  exists t2,
    Delete a t1 = Ok tt t2 /\
    store t2 = store t /\ table t2 = table t /\ mask t2 = mask t.
Proof.
  intros HR Hno HG. pose proof (Reachable2_Inv _ HR) as HI.
  rewrite Get2_eq in HG.
  destruct (Get_key_created _ t a t1 HI Hno HG)
    as (head & fb & Hhead & _ & Hnone & Hst & Htb & Hm & _).
  destruct (Get_key_spec _ _ _ _ HI HG) as (HI1 & _).
  set (k := order2 p1 p2) in *. set (idx := hash (mask t) k) in *.
  set (it := {| id := (IdGenerator_Get (id_gen t)).1; key := k;
                next := head |}) in *.
  assert (Ha : store t1 !! a = Some it).
  { rewrite Hst. apply lookup_insert_eq. }
  assert (Hrange : 0 <= idx < Size (table t)).
  { apply index_is_Some. by eexists. }
  assert (Hread : index (table t1) idx = Some (Some a)).
  { rewrite Htb. by apply index_assign_eq. }
  unfold Delete. rewrite Ha. rewrite Hm. simpl key. fold idx.
  cbn [Delete_loop read_link]. rewrite Hread.
  rewrite decide_True by done. rewrite Ha.
  cbn [write_link id_to_item].
  rewrite (inv_ids _ HI1 a it Ha).
  eexists. split; [reflexivity|]. simpl. split_and!.
  - rewrite Hst. by apply delete_insert_id.
  - rewrite Htb. unfold assign. rewrite list_insert_insert_eq.
    apply list_insert_id. by apply index_Some in Hhead as [_ ?].
  - done.
Qed.

Lemma Get_then_Delete_restores_witness :
  exists t2,
    Delete 2%nat Scenario.t3 = Ok tt t2 /\
    store t2 = store Scenario.t2 /\ table t2 = table Scenario.t2 /\
    mask t2 = mask Scenario.t2.
Proof.
  apply (Get_then_Delete_restores Scenario.t2 3 2 2%nat Scenario.t3);
    [apply ScenarioFacts.reach2 | | vm_compute; reflexivity].
  intros b ib Hb%elem_of_map_to_list.
  match type of Hb with
  | _ ∈ ?l =>
    change l with
      [(1%nat, {| id := 1; key := (0, 1); next := None |});
       (0%nat, Scenario.A)] in Hb
  end.
  apply elem_of_cons in Hb as [[= _ ->]|Hb]; [vm_compute; discriminate|].
  apply elem_of_cons in Hb as [[= _ ->]|Hb]; [vm_compute; discriminate|].
  by apply elem_of_nil in Hb.
Defined.

(** X14: [Delete(int id)] is [Delete] of the item in the slot of the id:
    for the id of a live item it deletes this item, and [Peek] of the id
    then returns NULL; for an id that no live item has, the slot is NULL
    or out of the bounds of the index and the call has no defined
    result. *)
Theorem Delete_id_spec (t : HashTable (Z * Z)) (i : Z) :
  Reachable2 t ->
  (forall a it, live t a it -> id it = i ->
     Delete_id i t = Delete a t /\
     exists t', Delete_id i t = Ok tt t' /\ store t' !! a = None /\
                Peek_id i t' = Ok None t') /\
  ((forall a it, live t a it -> id it <> i) -> Delete_id i t = Undefined).
Proof.
  intros HR. pose proof (Reachable2_Inv _ HR) as HI. split.
  - intros a it Ha <-.
    assert (Hid : Delete_id (id it) t = Delete a t).
    { unfold Delete_id, Peek_id. by rewrite (inv_ids _ HI a it Ha). }
    split; [done|]. rewrite Hid.
    destruct (Delete_spec a it t HI Ha)
      as (t' & HD & _ & _ & Hgone & _ & _ & _ & Hids & _).
    exists t'. split_and!; try done.
    unfold Peek_id. rewrite Hids. rewrite index_assign_eq; [done|].
    apply index_is_Some. rewrite (inv_ids _ HI a it Ha). by eexists.
  - intros Hno. unfold Delete_id, Peek_id.
    destruct (index (id_to_item t) i) as [[a|]|] eqn:Hi; try done.
    destruct (inv_slots _ HI i a Hi) as (it & Ha & Hid).
    exfalso. by eapply Hno.
Qed.

Lemma Delete_id_spec_witness :
  (forall a it, live Scenario.t3 a it -> id it = 1 ->
     Delete_id 1 Scenario.t3 = Delete a Scenario.t3 /\
     exists t', Delete_id 1 Scenario.t3 = Ok tt t' /\
                store t' !! a = None /\ Peek_id 1 t' = Ok None t') /\
  ((forall a it, live Scenario.t3 a it -> id it <> 1) ->
   Delete_id 1 Scenario.t3 = Undefined).
Proof. apply (Delete_id_spec Scenario.t3 1), ScenarioFacts.reach3. Defined.

(** X15: on a table that calls have reached, [Get] and [Peek] return
    whenever the table has a bin: they index no array out of its bounds,
    follow no dangling link and do not loop; on the table without a bin
    that [HashTable(0)] builds, every [Get] and [Peek] reads [table]
    out of its bounds, and no item can ever be made. *)
Theorem Get_returns_iff_table_has_bin (t : HashTable (Z * Z)) (p1 p2 : Z) :
  Reachable2 t ->
  (table t <> [] ->
   (exists a t', Get2 p1 p2 t = Ok a t') /\
   (exists r t', Peek2 p1 p2 t = Ok r t')) /\
  (table t = [] ->
   Get2 p1 p2 t = Undefined /\ Peek2 p1 p2 t = Undefined /\ store t = ∅).
Proof.
  intros HR. pose proof (Reachable2_Inv _ HR) as HI. split.
  - intros Hne. rewrite Get2_eq, Peek2_eq.
    split; [by apply Get_key_total|].
    destruct (bin_in_range t (order2 p1 p2) HI Hne) as [head Hhead].
    destruct (Peek_key_spec _ t head HI Hhead) as (r & t' & _ & HP & _).
    by exists r, t'.
  - intros Hnil. rewrite Get2_eq, Peek2_eq. unfold Get_key, Peek_key.
    rewrite Hnil. unfold index. case_decide; rewrite ?lookup_nil.
    + split_and!; try done. apply map_empty. intros a.
      destruct (store t !! a) as [it|] eqn:Ha; [|done].
      destruct (inv_live _ HI a it Ha) as (l & (h & Hh & _) & _).
      rewrite Hnil in Hh. apply index_Some in Hh as [_ Hh].
      by rewrite lookup_nil in Hh.
    + split_and!; try done. apply map_empty. intros a.
      destruct (store t !! a) as [it|] eqn:Ha; [|done].
      destruct (inv_live _ HI a it Ha) as (l & (h & Hh & _) & _).
      rewrite Hnil in Hh. apply index_Some in Hh as [_ Hh].
      by rewrite lookup_nil in Hh.
Qed.

Lemma Get_returns_iff_table_has_bin_witness :
  ((exists a t', Get2 1 3 Scenario.t3 = Ok a t') /\
   (exists r t', Peek2 1 3 Scenario.t3 = Ok r t')) /\
  (Get2 1 3 Scenario.z0 = Undefined /\ Peek2 1 3 Scenario.z0 = Undefined /\
   store Scenario.z0 = ∅).
Proof.
  split.
  - apply (Get_returns_iff_table_has_bin Scenario.t3 1 3);
      [apply ScenarioFacts.reach3 | vm_compute; discriminate].
  - apply (Get_returns_iff_table_has_bin Scenario.z0 1 3);
      [apply ScenarioFacts.reach_z0 | reflexivity].
Defined.

(** ** What the iterator visits, and what the destructor frees *)

Section IterationMore.
Context {Key : Type} `{!Hashed Key}.
Implicit Types (t : HashTable Key) (R : list (list addr)).

Lemma visit_order_snoc R c : visit_order (R ++ [c]) = concat R ++ take 1 c.
Proof.
  induction R as [|c0 R IH]; [done|].
  change ((c0 :: R) ++ [c]) with (c0 :: (R ++ [c])).
  rewrite visit_order_cons by (by destruct R). rewrite IH. simpl.
  by rewrite app_assoc.
Qed.

(** The chain of a used bin is among the chains of the used bins. *)
Lemma chains_lookup t bs R b l a :
  Forall2 (bin_chain t) bs R -> b ∈ bs -> bin_chain t b l -> a ∈ l ->
  a ∈ concat R.
Proof.
  intros HR. induction HR as [|b0 c bs R Hbc _ IH]; intros Hb Hl Ha.
  - by apply elem_of_nil in Hb.
  - simpl. apply elem_of_app. apply elem_of_cons in Hb as [->|Hb].
    + left. by rewrite (bin_chain_det _ _ _ _ Hbc Hl).
    + right. by apply IH.
Qed.

(** The loop of [next] reads the bins, not the items. *)
Lemma next_switch_store fuel t t' it :
  table t' = table t -> used_bins t' = used_bins t ->
  next_switch fuel t' it = next_switch fuel t it.
Proof.
  intros Htb Hub. revert it. induction fuel as [|fuel IH]; intros it; [done|].
  simpl. rewrite Htb, Hub. destruct (cur_item it); [done|].
  case_decide; [|done]. destruct (index (used_bins t) _); [|done].
  destruct (index (table t) _); [|done]. apply IH.
Qed.

Lemma Iterator_next_store t t' it :
  table t' = table t -> used_bins t' = used_bins t ->
  (forall a, cur_item it = Some a ->
     next <$> store t' !! a = next <$> store t !! a) ->
  Iterator_next t' it = Iterator_next t it.
Proof.
  intros Htb Hub Hcur. unfold Iterator_next. rewrite Hub.
  case_decide; [done|]. destruct (cur_item it) as [a|] eqn:Ha.
  - rewrite (Hcur a eq_refl). destruct (next <$> store t !! a); [|done].
    by apply next_switch_store.
  - by apply next_switch_store.
Qed.

(** The loop of the destructor deletes the items the iterator visits. *)
Lemma delete_all_collect t fuel it st l it' :
  Iterator_collect fuel t it = Ok l it' -> NoDup l ->
  (forall a, a ∈ l -> st !! a = store t !! a /\ is_Some (store t !! a)) ->
  delete_all fuel t it st = Ok tt (foldl (fun s a => delete a s) st l).
Proof.
  revert it st l. induction fuel as [|fuel IH]; intros it st l; [done|].
  simpl. destruct (cur_item it) as [tmp|] eqn:Hcur; [|by intros [= <- _]].
  destruct (Iterator_next t it) as [[] it1| | |] eqn:Hnext; try done.
  destruct (Iterator_collect fuel t it1) as [l1 it2| | |] eqn:Hcol; try done.
  intros [= <- <-] [Hnotin Hnd]%NoDup_cons Hst.
  destruct (Hst tmp ltac:(left)) as [Htmp [x Hx]].
  rewrite (Iterator_next_store t _ it), Hnext; try done.
  - rewrite Htmp, Hx. simpl. apply (IH it1 _ l1 Hcol Hnd).
    intros a Ha. destruct (Hst a ltac:(by right)) as [Ha1 Ha2].
    split; [|done]. rewrite lookup_delete_ne; [done|]. by intros ->.
  - simpl. intros a Ha. rewrite Hcur in Ha. injection Ha as <-.
    by rewrite Htmp.
Qed.

Lemma foldl_delete_lookup (st : gmap addr (ItemT Key)) (l : list addr) a :
  foldl (fun s a => delete a s) st l !! a =
    if decide (a ∈ l) then None else st !! a.
Proof.
  revert st. induction l as [|b l IH]; intros st; cbn [foldl].
  - case_decide as Hin; [by apply elem_of_nil in Hin|done].
  - rewrite IH.
    destruct (decide (a ∈ l)) as [Hin|Hnin];
      destruct (decide (a ∈ b :: l)) as [Hin'|Hnin']; try done.
    + exfalso. apply Hnin'. by right.
    + apply elem_of_cons in Hin' as [->|?]; [apply lookup_delete_eq|done].
    + apply lookup_delete_ne. intros ->. apply Hnin'. by left.
Qed.

End IterationMore.

(** X16: on a table that calls have reached, a new iterator ends and
    visits only live items, none of them twice, in the order of the used
    bins and, within a bin, of its chain. *)
Theorem Iterator_visits_live_items_once (t : HashTable (Z * Z)) :
  Reachable2 t ->
  exists R l it,
    Forall2 (bin_chain t) (used_bins t) R /\
    visited t = Ok l it /\ l `sublist_of` concat R /\ NoDup l /\
    forall a, a ∈ l -> is_Some (store t !! a).
Proof.
  intros HR. pose proof (Reachable2_Inv _ HR) as HI.
  destruct (chains_exist t (used_bins t) HI (inv_used_range _ HI)) as [R HF].
  destruct (Iterator_visits t R HI HF) as [it Hit].
  pose proof (visit_order_sublist R) as Hsub.
  pose proof (chains_NoDup t _ R HI (inv_used_nodup _ HI) HF) as Hnd.
  exists R, (visit_order R), it. split_and!; try done.
  - by eapply sublist_NoDup.
  - intros a Ha.
    destruct (chains_members t _ R a HI HF) as (_ & ia & _ & Hia & _).
    { by eapply elem_of_sublist. }
    by exists ia.
Qed.

Lemma Iterator_visits_live_items_once_witness :
  exists R l it,
    Forall2 (bin_chain Scenario.t3) (used_bins Scenario.t3) R /\
    visited Scenario.t3 = Ok l it /\ l `sublist_of` concat R /\ NoDup l /\
    forall a, a ∈ l -> is_Some (store Scenario.t3 !! a).
Proof.
  apply (Iterator_visits_live_items_once Scenario.t3), ScenarioFacts.reach3.
Defined.

(** X17: on a table that calls have reached, the chains of the used bins
    hold every live item exactly once, and a new iterator visits all of
    them but the items behind the head of the chain of the last used bin:
    it visits every live item when this chain has at most one item. A
    table without a used bin has no item. *)
Theorem Iterator_skips_exactly_tail_of_last_bin (t : HashTable (Z * Z)) :
  Reachable2 t ->
  (used_bins t = [] -> store t = ∅ /\ exists it, visited t = Ok [] it) /\
  (used_bins t <> [] ->
   exists R0 c it,
     Forall2 (bin_chain t) (used_bins t) (R0 ++ [c]) /\
     visited t = Ok (concat R0 ++ take 1 c) it /\
     NoDup (concat R0 ++ c) /\
     forall a, is_Some (store t !! a) <-> a ∈ concat R0 ++ c).
Proof.
  intros HR. pose proof (Reachable2_Inv _ HR) as HI.
  destruct (Reachable2_touched t HR) as [_ Hlive].
  destruct (chains_exist t (used_bins t) HI (inv_used_range _ HI)) as [R HF].
  destruct (Iterator_visits t R HI HF) as [it Hit].
  assert (Hall : forall a, is_Some (store t !! a) <-> a ∈ concat R).
  { intros a. split.
    - intros [ia Ha]. destruct (inv_live _ HI a ia Ha) as (l & Hl & Hin).
      eapply chains_lookup; [done|by apply (Hlive a ia)|done|done].
    - intros Ha.
      destruct (chains_members t _ R a HI HF Ha) as (_ & ia & _ & Hia & _).
      by exists ia. }
  split.
  - intros Hnil. rewrite Hnil in HF. apply Forall2_nil_inv_l in HF.
    subst R. split; [|by exists it].
    apply map_empty. intros a. destruct (store t !! a) as [ia|] eqn:Ha;
      [|done].
    assert (a ∈ @concat addr []) as Hin by (apply Hall; by exists ia).
    by apply elem_of_nil in Hin.
  - intros Hne.
    assert (R <> []) as HRne.
    { intros ->. apply Forall2_nil_inv_r in HF. done. }
    destruct (exists_last HRne) as (R0 & c & ->).
    exists R0, c, it. rewrite visit_order_snoc in Hit.
    assert (Hcat : concat (R0 ++ [c]) = concat R0 ++ c).
    { rewrite concat_app. simpl. by rewrite app_nil_r. }
    split_and!; try done.
    + rewrite <- Hcat.
      by apply (chains_NoDup t _ _ HI (inv_used_nodup _ HI) HF).
    + intros a. by rewrite <- Hcat.
Qed.

Lemma Iterator_skips_exactly_tail_of_last_bin_witness :
  exists R0 c it,
    Forall2 (bin_chain Scenario.t3) (used_bins Scenario.t3) (R0 ++ [c]) /\
    visited Scenario.t3 = Ok (concat R0 ++ take 1 c) it /\
    NoDup (concat R0 ++ c) /\
    forall a, is_Some (store Scenario.t3 !! a) <-> a ∈ concat R0 ++ c.
Proof.
  apply (Iterator_skips_exactly_tail_of_last_bin Scenario.t3);
    [apply ScenarioFacts.reach3 | vm_compute; discriminate].
Defined.

(** X18: on a table that calls have reached, the destructor returns; it
    deletes exactly the items its iterator visits and leaves the other
    live items in the store, and its output is the warning alone. *)
Theorem destructor_frees_visited_items (t : HashTable (Z * Z)) :
  Reachable2 t ->
  exists l it st,
    visited t = Ok l it /\
    HashTable_destroy t = Ok (warning t) st /\
    forall a, st !! a = if decide (a ∈ l) then None else store t !! a.
Proof.
  intros HR.
  destruct (Iterator_visits_reachable t HR) as (R & it & HF & Hit).
  pose proof (Reachable2_Inv _ HR) as HI.
  pose proof (chains_NoDup t _ R HI (inv_used_nodup _ HI) HF) as Hnd.
  assert (Hnd' : NoDup (visit_order R)).
  { eapply sublist_NoDup; [done|apply visit_order_sublist]. }
  assert (Hlive : forall a, a ∈ visit_order R -> is_Some (store t !! a)).
  { intros a Ha.
    destruct (chains_members t _ R a HI HF) as (_ & ia & _ & Hia & _).
    { eapply elem_of_sublist; [done|apply visit_order_sublist]. }
    by exists ia. }
  exists (visit_order R), it,
    (foldl (fun s a => delete a s) (store t) (visit_order R)).
  split; [done|]. split; [|intros a; apply foldl_delete_lookup].
  unfold visited in Hit. unfold HashTable_destroy.
  destruct (Iterator_new t) as [[] it0| | |]; try done.
  rewrite (delete_all_collect t _ it0 (store t) (visit_order R) it Hit Hnd');
    [done|].
  intros a Ha. split; [done|by apply Hlive].
Qed.

Lemma destructor_frees_visited_items_witness :
  exists l it st,
    visited Scenario.t3 = Ok l it /\
    HashTable_destroy Scenario.t3 = Ok (warning Scenario.t3) st /\
    forall a, st !! a =
      if decide (a ∈ l) then None else store Scenario.t3 !! a.
Proof.
  apply (destructor_frees_visited_items Scenario.t3), ScenarioFacts.reach3.
Defined.

(** ** The item pointer variants *)

Lemma order2_eq_iff p q r s :
  order2 p q = order2 r s <-> (p = r /\ q = s) \/ (p = s /\ q = r).
Proof.
  rewrite !order2_min_max. split.
  - intros [= Hmin Hmax]. lia.
  - intros [[-> ->]|[-> ->]]; f_equal; lia.
Qed.

(** X19: [Get(i1, i2)] with pointers to two items of another table is
    [Get] of their ids: the order of the two pointers does not matter, and
    two calls return the same item exactly when they are given the same
    unordered pair of items, since live items of the other table have
    distinct ids. *)
Theorem Get2_items_identifies_pairs (u t : HashTable (Z * Z))
    (i1 i2 j1 j2 : addr) (a b : addr) (t1 t2 : HashTable (Z * Z)) :
  Reachable2 u -> Reachable2 t ->
  is_Some (store u !! i1) -> is_Some (store u !! i2) ->
  is_Some (store u !! j1) -> is_Some (store u !! j2) ->
  Get2_items (store u) i1 i2 t = Ok a t1 ->
  Get2_items (store u) j1 j2 t1 = Ok b t2 ->
  Get2_items (store u) i1 i2 t = Get2_items (store u) i2 i1 t /\
  (a = b <-> (i1 = j1 /\ i2 = j2) \/ (i1 = j2 /\ i2 = j1)).
Proof.
  intros HU HR [x1 Hx1] [x2 Hx2] [y1 Hy1] [y2 Hy2].
  pose proof (Reachable2_Inv _ HU) as HIu.
  pose proof (Reachable2_Inv _ HR) as HI.
  unfold Get2_items. rewrite Hx1, Hx2, Hy1, Hy2.
  rewrite !Get2_eq, (order2_comm (id x2)). intros HG1 HG2.
  split; [done|].
  destruct (Get_key_spec _ _ _ _ HI HG1) as (HI1 & _ & _ & _ & ia & Ha & Hka & _).
  destruct (Get_key_spec _ _ _ _ HI1 HG2)
    as (HI2 & _ & _ & _ & ib & Hb & Hkb & _).
  pose proof (Get_key_preserves _ _ _ _ _ _ HI1 HG2 Ha) as Ha2.
  assert (Hids : order2 (id x1) (id x2) = order2 (id y1) (id y2) <->
                 (i1 = j1 /\ i2 = j2) \/ (i1 = j2 /\ i2 = j1)).
  { rewrite order2_eq_iff. split.
    - intros [[H1 H2]|[H1 H2]]; [left|right]; split;
        by eapply (Inv_ids_unique u).
    - intros [[-> ->]|[-> ->]]; [left|right]; split; congruence. }
  rewrite <- Hids. split.
  - intros ->. unfold live in *. congruence.
  - intros Hk. eapply (inv_keys _ HI2); [done|done|congruence].
Qed.

Lemma Get2_items_identifies_pairs_witness :
  Get2_items (store Scenario.t3) 0%nat 1%nat Scenario.t0 =
    Get2_items (store Scenario.t3) 1%nat 0%nat Scenario.t0 /\
  (0%nat = 0%nat <->
   (0%nat = 1%nat /\ 1%nat = 0%nat) \/ (0%nat = 0%nat /\ 1%nat = 1%nat)).
Proof.
  apply (Get2_items_identifies_pairs Scenario.t3 Scenario.t0
           0%nat 1%nat 1%nat 0%nat 0%nat 0%nat Scenario.collide1
           (Scenario.state_after (Get2 1 0 Scenario.collide1)
              Scenario.collide1));
    [apply ScenarioFacts.reach3 | apply ScenarioFacts.reach0
    | vm_compute; eexists; reflexivity ..
    | vm_compute; reflexivity | vm_compute; reflexivity].
Defined.

(** ** The cost of a lookup *)

Section Cost.
Context {Key : Type} `{!Hashed Key}.
Implicit Types (st : gmap addr (ItemT Key)) (k : Key) (l : list addr).

Lemma SearchList_advances_found st p l1 a it l2 k fuel :
  is_chain st p (l1 ++ a :: l2) ->
  (forall b ib, b ∈ l1 -> st !! b = Some ib -> key ib <> k) ->
  st !! a = Some it -> key it = k -> (length l1 < fuel)%nat ->
  SearchList_advances fuel p k st = length l1.
Proof.
  revert p fuel. induction l1 as [|b l1 IH]; intros p fuel Hc Hno Ha Hk Hfuel;
    (destruct fuel as [|fuel]; [simpl in Hfuel; lia|]);
    inversion Hc as [|b' ib l' Hb Hl]; subst; simpl.
  - rewrite Ha. by rewrite decide_True.
  - rewrite Hb. rewrite decide_False by (by eapply Hno; [left|]).
    f_equal. eapply IH; try done.
    + intros c ic Hc' Hic. eapply Hno; [by right|done].
    + simpl in Hfuel. lia.
Qed.

Lemma SearchList_advances_missing st p l k fuel :
  is_chain st p l ->
  (forall b ib, b ∈ l -> st !! b = Some ib -> key ib <> k) ->
  (length l < fuel)%nat ->
  SearchList_advances fuel p k st = length l.
Proof.
  revert p fuel. induction l as [|b l IH]; intros p fuel Hc Hno Hfuel;
    (destruct fuel as [|fuel]; [simpl in Hfuel; lia|]);
    inversion Hc as [|b' ib l' Hb Hl]; subst; simpl; [done|].
  rewrite Hb. rewrite decide_False by (by eapply Hno; [left|]).
  f_equal. eapply IH; try done.
  - intros c ic Hc' Hic. eapply Hno; [by right|done].
  - simpl in Hfuel. lia.
Qed.

End Cost.

(** X20: a lookup costs as many collisions as it passes items: on a
    table that calls have reached, [Peek] of the parents of a live item
    increments [ncollisions] once for each item in front of it in the
    chain of its bin, and [Peek] of parents that no live item has
    increments it once for each item of the chain of their bin. *)
Theorem Peek_collisions_count_items_passed (t : HashTable (Z * Z))
    (p1 p2 : Z) (l : list addr) :
  Reachable2 t ->
  bin_chain t (hash2 (mask t) (Z.min p1 p2) (Z.max p1 p2)) l ->
  exists r t',
    Peek2 p1 p2 t = Ok r t' /\
    nqueries t' = Int32.add (nqueries t) 1 /\
    match r with
    | Some a =>
      exists l1 l2, l = l1 ++ a :: l2 /\
        ncollisions t' =
          Nat.iter (length l1) (fun c => Int32.add c 1) (ncollisions t)
    | None =>
      ncollisions t' =
        Nat.iter (length l) (fun c => Int32.add c 1) (ncollisions t)
    end.
Proof.
  intros HR (head & Hhead0 & Hl). pose proof (Reachable2_Inv _ HR) as HI.
  assert (Hhead : index (table t) (hash (mask t) (order2 p1 p2)) = Some head)
    by (rewrite order2_min_max; exact Hhead0).
  destruct (Peek_key_spec _ t head HI Hhead) as (r & t' & Hs & HP & Ht' & Hr).
  exists r, t'. rewrite Peek2_eq. split; [done|].
  split; [by rewrite Ht'|].
  unfold SearchList in Hs. apply SearchList_loop_counters in Hs.
  assert (Hc : ncollisions t' =
            Nat.iter (SearchList_advances (S (size (store t))) head
                        (order2 p1 p2) (store t))
              (fun c => Int32.add c 1) (ncollisions t))
    by (rewrite Hs; reflexivity).
  clear Hs Ht'.
  pose proof (is_chain_length _ _ _ Hl) as Hlen.
  destruct r as [a|].
  - destruct Hr as (it & Ha & Hk).
    destruct (inv_live _ HI a it Ha) as (l' & Hl' & Hin).
    unfold bin_of in Hl'. rewrite Hk in Hl'.
    assert (l' = l) as -> by (eapply bin_chain_det; [done|by exists head]).
    apply list_elem_of_split in Hin as (l1 & l2 & ->).
    exists l1, l2. split; [done|]. rewrite Hc. f_equal.
    eapply SearchList_advances_found; try done.
    + intros b ib Hb Hib Hkb.
      assert (b = a) as -> by (eapply (inv_keys _ HI); [done|done|congruence]).
      apply is_chain_NoDup in Hl. apply NoDup_app in Hl as (_ & Hdisj & _).
      apply (Hdisj a Hb). left.
    + rewrite length_app in Hlen. simpl in Hlen. lia.
  - rewrite Hc. f_equal. eapply SearchList_advances_missing; try done.
    + intros b ib Hb Hib. by eapply Hr.
    + lia.
Qed.

Lemma Peek_collisions_count_items_passed_witness :
  exists r t',
    Peek2 0 1 Scenario.t3 = Ok r t' /\
    nqueries t' = Int32.add (nqueries Scenario.t3) 1 /\
    match r with
    | Some a =>
      exists l1 l2, [2%nat; 1%nat] = l1 ++ a :: l2 /\
        ncollisions t' =
          Nat.iter (length l1) (fun c => Int32.add c 1)
            (ncollisions Scenario.t3)
    | None =>
      ncollisions t' =
        Nat.iter (length [2%nat; 1%nat]) (fun c => Int32.add c 1)
          (ncollisions Scenario.t3)
    end.
Proof.
  apply (Peek_collisions_count_items_passed Scenario.t3 0 1 [2%nat; 1%nat]);
    [apply ScenarioFacts.reach3|].
  exists (Some 2%nat). split; [vm_compute; reflexivity|].
  econstructor; [vm_compute; reflexivity|].
  econstructor; [vm_compute; reflexivity|]. constructor.
Defined.

(** ** The shape matrix and the gradient tensor *)

Section ShapesFacts.
Import FiniteElementsH1.
Context {A : Type}.
Implicit Types (B : list A) (f : Z -> option A) (W : Z -> Prop).

Lemma for_loop_inv {T : Type} (P : Z -> T -> Prop) n i body (s : T) :
  P i s ->
  (forall j s, i <= j < i + Z.of_nat n -> P j s ->
     exists s', body j s = Some s' /\ P (j + 1) s') ->
  exists s', for_loop n i body s = Some s' /\ P (i + Z.of_nat n) s'.
Proof.
  revert i s. induction n as [|n IH]; intros i s HP Hstep.
  - exists s. split; [done|]. by replace (i + Z.of_nat 0) with i by lia.
  - destruct (Hstep i s ltac:(lia) HP) as (s1 & Hb & HP1).
    destruct (IH (i + 1) s1 HP1) as (s' & Hl & HP').
    { intros j s2 Hj. apply Hstep. lia. }
    exists s'. simpl. rewrite Hb. split; [done|].
    by replace (i + Z.of_nat (S n)) with (i + 1 + Z.of_nat n) by lia.
Qed.

Lemma for_upto_inv {T : Type} (P : Z -> T -> Prop) n body (s : T) :
  0 <= n -> P 0 s ->
  (forall j s, 0 <= j < n -> P j s ->
     exists s', body j s = Some s' /\ P (j + 1) s') ->
  exists s', for_upto n body s = Some s' /\ P n s'.
Proof.
  intros Hn HP Hstep.
  destruct (for_loop_inv P (Z.to_nat n) 0 body s HP) as (s' & Hl & HP').
  { intros j s2 Hj. apply Hstep. lia. }
  exists s'. split; [done|]. by replace n with (0 + Z.of_nat (Z.to_nat n)) by lia.
Qed.

Lemma int_Some x : Int32.in_range x -> int x = Some x.
Proof. intros Hx. unfold int. by rewrite decide_True. Qed.

Lemma filled_mono f W W' B :
  (forall j, 0 <= j < Size B -> W' j -> W j) -> filled f W B -> filled f W' B.
Proof. intros HW HB j Hj Hj'. apply HB; [done|]. by apply HW. Qed.

Lemma store_at_filled f W W' B j0 x :
  filled f W B -> 0 <= j0 < Size B -> f j0 = Some x ->
  (forall j, 0 <= j < Size B -> W' j -> W j \/ j = j0) ->
  exists B', store_at B j0 x = Some B' /\ Size B' = Size B /\ filled f W' B'.
Proof.
  intros HB Hj0 Hf HW. exists (assign B j0 x). unfold store_at.
  destruct (proj2 (index_is_Some B j0) Hj0) as [y ->].
  split; [done|]. split; [apply Size_assign|].
  intros j Hj Hj'. rewrite Size_assign in Hj.
  destruct (decide (j = j0)) as [->|Hne].
  - by rewrite index_assign_eq, Hf.
  - rewrite index_assign_ne by lia.
    destruct (HW j Hj Hj') as [HWj|?]; [by apply HB|done].
Qed.

Lemma filled_all_eq f B1 B2 :
  Size B1 = Size B2 ->
  filled f (fun _ => True) B1 -> filled f (fun _ => True) B2 -> B1 = B2.
Proof.
  intros HS H1 H2. apply list_eq. intros i.
  destruct (decide (i < length B1)%nat) as [Hi|Hi].
  - assert (Hj : 0 <= Z.of_nat i < Size B1) by (unfold Size; lia).
    pose proof (H1 _ Hj I) as E1. rewrite HS in Hj.
    pose proof (H2 _ Hj I) as E2. rewrite <- E2 in E1.
    unfold index in E1. rewrite !decide_True in E1 by lia.
    by rewrite !Nat2Z.id in E1.
  - unfold Size in HS.
    rewrite !lookup_ge_None_2; [done|lia|lia].
Qed.

Lemma orig_id_Some (dof_map : option (list Z)) dof id :
  (forall m, dof_map = Some m ->
     Size m = dof /\ forall o, o ∈ m -> 0 <= o < dof) ->
  0 <= id < dof ->
  exists o, orig_id dof_map id = Some o /\ 0 <= o < dof.
Proof.
  intros Hmap Hid. destruct dof_map as [m|]; simpl; [|by exists id].
  destruct (Hmap m eq_refl) as [Hsize Hm].
  destruct (proj2 (index_is_Some m id)) as [o Ho]; [lia|].
  exists o. split; [done|]. apply Hm.
  apply index_Some in Ho as [_ Ho]. by eapply list_elem_of_lookup_2.
Qed.

Lemma split_index nip ip q :
  0 <= ip < nip -> (ip + nip * q) mod nip = ip /\ (ip + nip * q) / nip = q.
Proof.
  intros Hip. split; symmetry.
  - apply (Z.mod_unique_pos _ _ q); lia.
  - apply (Z.div_unique_pos _ _ _ ip); lia.
Qed.

Lemma join_index n j : 0 < n -> j = j mod n + n * (j / n).
Proof. intros Hn. pose proof (Z.div_mod j n). lia. Qed.

End ShapesFacts.

Section ShapeMatrix.
Import FiniteElementsH1.
Context {real_t : Type}.
Variables (nip dof : Z) (CalcShape : Z -> list real_t)
  (dof_map : option (list Z)).
Hypothesis Hnip : 0 <= nip.
Hypothesis Hdof : 0 <= dof.
Hypothesis Hmax : nip * dof <= Int32.INT_MAX.
Hypothesis Hshape : forall ip, 0 <= ip < nip -> Size (CalcShape ip) = dof.
Hypothesis Hmap : forall m, dof_map = Some m ->
  Size m = dof /\ forall o, o ∈ m -> 0 <= o < dof.

Lemma CalcShapeMatrix_filled (B : list real_t) :
  Size B = nip * dof ->
  exists B', CalcShapeMatrix nip dof CalcShape dof_map B = Some B' /\
    Size B' = nip * dof /\
    filled (fun j => o ← orig_id dof_map (j / nip);
                     index (CalcShape (j mod nip)) o)
           (fun _ => True) B'.
Proof.
  intros HB. set (f := fun j : Z => _).
  destruct (for_upto_inv
    (fun ip B => Size B = nip * dof /\ filled f (fun j => j mod nip < ip) B)
    nip
    (fun ip B => for_upto dof (fun id B =>
       o ← orig_id dof_map id; x ← index (CalcShape ip) o;
       m ← int (nip * id); j ← int (ip + m); store_at B j x) B) B Hnip)
    as (B' & HC & HS & HF).
  - split; [done|]. intros j Hj Hlt.
    assert (0 < nip) by nia. pose proof (Z.mod_pos_bound j nip). lia.
  - intros ip B1 Hip [HS1 HF1].
    destruct (for_upto_inv
      (fun id B => Size B = nip * dof /\
         filled f (fun j => j mod nip < ip \/
                            (j mod nip = ip /\ j / nip < id)) B)
      dof
      (fun id B => o ← orig_id dof_map id; x ← index (CalcShape ip) o;
         m ← int (nip * id); j ← int (ip + m); store_at B j x) B1 Hdof)
      as (B2 & HC2 & HS2 & HF2).
    + split; [done|]. eapply filled_mono; [|exact HF1].
      intros j Hj [?|[_ Hlt]]; [done|].
      assert (0 <= j / nip) by (apply Z.div_pos; lia). lia.
    + intros id B2 Hid [HS2 HF2].
      destruct (orig_id_Some dof_map dof id Hmap Hid) as (o & Ho & Horange).
      destruct (proj2 (index_is_Some (CalcShape ip) o)) as [x Hx];
        [rewrite Hshape; lia|].
      rewrite Ho. simpl. rewrite Hx. simpl.
      assert (Hr : 0 <= nip * id /\ ip + nip * id < nip * dof) by nia.
      rewrite int_Some by (unfold Int32.in_range, Int32.INT_MIN,
        Int32.INT_MAX, Int32.half in *; lia).
      simpl.
      rewrite int_Some by (unfold Int32.in_range, Int32.INT_MIN,
        Int32.INT_MAX, Int32.half in *; lia).
      simpl.
      destruct (split_index nip ip id ltac:(lia)) as [Hm Hd].
      destruct (store_at_filled f
        (fun j => j mod nip < ip \/ (j mod nip = ip /\ j / nip < id))
        (fun j => j mod nip < ip \/ (j mod nip = ip /\ j / nip < id + 1))
        B2 (ip + nip * id) x HF2) as (B3 & HB3 & HS3 & HF3).
      * lia.
      * unfold f. rewrite Hm, Hd, Ho. simpl. done.
      * intros j Hj [?|[Hjm Hjd]]; [by left; left|].
        destruct (decide (j / nip < id)); [by left; right|right].
        rewrite (join_index nip j) by lia. nia.
      * exists B3. split; [done|]. split; [lia|done].
    + exists B2. split; [done|]. split; [done|].
      eapply filled_mono; [|exact HF2].
      intros j Hj Hlt. cbv beta in *. rewrite HS2 in Hj.
      destruct (decide (j mod nip < ip)); [by left|right].
      split; [lia|]. apply Z.div_lt_upper_bound; lia.
  - exists B'. split; [done|]. split; [done|].
    eapply filled_mono; [|exact HF].
    intros j Hj _. cbv beta. rewrite HS in Hj. assert (0 < nip) by nia.
    pose proof (Z.mod_pos_bound j nip). lia.
Qed.

End ShapeMatrix.

(** X21: [CalcShapeMatrix] fills [B] as the (nip x dof) matrix in column
    major storage: when [B] has [nip * dof] entries (a product within the
    ints), every shape vector has [dof] entries and [dof_map], if given,
    has [dof] entries below [dof], the call returns, entry
    [ip + nip * id] of [B] is the value of shape function [dof_map[id]]
    (or [id], without [dof_map]) at point [ip], and nothing of the old
    content of [B] is left. *)
Theorem CalcShapeMatrix_layout {real_t : Type} (nip dof : Z)
    (CalcShape : Z -> list real_t) (dof_map : option (list Z))
    (B : list real_t) :
  0 <= nip -> 0 <= dof -> nip * dof <= Int32.INT_MAX ->
  Size B = nip * dof ->
  (forall ip, 0 <= ip < nip -> Size (CalcShape ip) = dof) ->
  (forall m, dof_map = Some m ->
     Size m = dof /\ forall o, o ∈ m -> 0 <= o < dof) ->
  exists B',
    FiniteElementsH1.CalcShapeMatrix nip dof CalcShape dof_map B = Some B' /\
    Size B' = nip * dof /\
    (forall ip id, 0 <= ip < nip -> 0 <= id < dof ->
       exists o x, FiniteElementsH1.orig_id dof_map id = Some o /\
         index (CalcShape ip) o = Some x /\
         index B' (ip + nip * id) = Some x) /\
    (forall B2, Size B2 = nip * dof ->
       FiniteElementsH1.CalcShapeMatrix nip dof CalcShape dof_map B2
         = Some B').
Proof.
  intros Hnip Hdof Hmax HB Hshape Hmap.
  destruct (CalcShapeMatrix_filled nip dof CalcShape dof_map
              Hnip Hdof Hmax Hshape Hmap B HB) as (B' & HC & HS & HF).
  exists B'. split; [done|]. split; [done|]. split.
  - intros ip id Hip Hid.
    destruct (orig_id_Some dof_map dof id Hmap Hid) as (o & Ho & Horange).
    destruct (proj2 (index_is_Some (CalcShape ip) o)) as [x Hx];
      [rewrite Hshape; lia|].
    exists o, x. split; [done|]. split; [done|].
    rewrite (HF (ip + nip * id)); [|nia|done].
    destruct (split_index nip ip id Hip) as [-> ->].
    rewrite Ho. simpl. done.
  - intros B2 HB2.
    destruct (CalcShapeMatrix_filled nip dof CalcShape dof_map
                Hnip Hdof Hmax Hshape Hmap B2 HB2) as (B2' & HC2 & HS2 & HF2).
    rewrite HC2. f_equal. eapply filled_all_eq; [lia|done|done].
Qed.

Lemma CalcShapeMatrix_layout_witness :
  exists B',
    FiniteElementsH1.CalcShapeMatrix 2 3
      (fun ip => [10 * ip; 10 * ip + 1; 10 * ip + 2]) (Some [2; 0; 1])
      [0; 0; 0; 0; 0; 0] = Some B' /\
    Size B' = 2 * 3 /\
    (forall ip id, 0 <= ip < 2 -> 0 <= id < 3 ->
       exists o x, FiniteElementsH1.orig_id (Some [2; 0; 1]) id = Some o /\
         index [10 * ip; 10 * ip + 1; 10 * ip + 2] o = Some x /\
         index B' (ip + 2 * id) = Some x) /\
    (forall B2, Size B2 = 2 * 3 ->
       FiniteElementsH1.CalcShapeMatrix 2 3
         (fun ip => [10 * ip; 10 * ip + 1; 10 * ip + 2]) (Some [2; 0; 1]) B2
         = Some B').
Proof.
  apply (CalcShapeMatrix_layout 2 3
           (fun ip => [10 * ip; 10 * ip + 1; 10 * ip + 2]) (Some [2; 0; 1])
           [0; 0; 0; 0; 0; 0]).
  - lia.
  - lia.
  - vm_compute. discriminate.
  - reflexivity.
  - intros ip _. reflexivity.
  - intros m [= <-]. split; [reflexivity|].
    intros o Ho. repeat (apply elem_of_cons in Ho as [->|Ho]; [lia|]).
    by apply elem_of_nil in Ho.
Defined.

Section GradTensor.
Import FiniteElementsH1.
Context {real_t : Type}.
Variables (dim nip dof : Z) (CalcDShape : Z -> Z -> Z -> option real_t)
  (dof_map : option (list Z)).
Hypothesis Hdim : 0 <= dim.
Hypothesis Hnip : 0 <= nip.
Hypothesis Hdof : 0 <= dof.
Hypothesis Hmax : nip * (dim * dof) <= Int32.INT_MAX.
Hypothesis Hdshape : forall ip i d,
  0 <= ip < nip -> 0 <= i < dof -> 0 <= d < dim ->
  is_Some (CalcDShape ip i d).
Hypothesis Hmap : forall m, dof_map = Some m ->
  Size m = dof /\ forall o, o ∈ m -> 0 <= o < dof.

Lemma in_range_index x :
  0 <= x <= nip * (dim * dof) -> Int32.in_range x.
Proof.
  unfold Int32.in_range, Int32.INT_MIN, Int32.INT_MAX, Int32.half in *. lia.
Qed.

Lemma CalcGradTensor_filled (G : list real_t) :
  Size G = nip * (dim * dof) ->
  exists G', CalcGradTensor dim nip dof CalcDShape dof_map G = Some G' /\
    Size G' = nip * (dim * dof) /\
    filled (fun j => o ← orig_id dof_map (j / nip / dim);
                     CalcDShape (j mod nip) o ((j / nip) mod dim))
           (fun _ => True) G'.
Proof.
  intros HG. set (f := fun j : Z => _).
  set (inner := fun (ip id o : Z) (G : list real_t) =>
    for_upto dim (fun d G =>
      x ← CalcDShape ip o d; m1 ← int (dim * id); m2 ← int (d + m1);
      m3 ← int (nip * m2); j ← int (ip + m3); store_at G j x) G).
  set (W1 := fun ip j => j mod nip < ip).
  set (W2 := fun ip id j =>
    W1 ip j \/ (j mod nip = ip /\ j / nip / dim < id)).
  set (W3 := fun ip id d j =>
    W2 ip id j \/
    (j mod nip = ip /\ j / nip / dim = id /\ (j / nip) mod dim < d)).
  assert (Hin : forall ip id o G1,
    0 <= ip < nip -> 0 <= id < dof ->
    orig_id dof_map id = Some o -> 0 <= o < dof ->
    Size G1 = nip * (dim * dof) -> filled f (W2 ip id) G1 ->
    exists G2, inner ip id o G1 = Some G2 /\
      Size G2 = nip * (dim * dof) /\ filled f (W2 ip (id + 1)) G2).
  { intros ip id o G1 Hip Hid Ho Horange HS1 HF1.
    destruct (for_upto_inv
      (fun d G => Size G = nip * (dim * dof) /\ filled f (W3 ip id d) G)
      dim
      (fun d G =>
        x ← CalcDShape ip o d; m1 ← int (dim * id); m2 ← int (d + m1);
        m3 ← int (nip * m2); j ← int (ip + m3); store_at G j x) G1 Hdim)
      as (G2 & HC2 & HS2 & HF2).
    - split; [done|]. eapply filled_mono; [|exact HF1].
      intros j Hj [?|(_ & _ & Hlt)]; [done|]. rewrite HS1 in Hj.
      assert (0 < dim) by nia.
      pose proof (Z.mod_pos_bound (j / nip) dim). lia.
    - intros d G2 Hd [HS2 HF2].
      destruct (Hdshape ip o d Hip Horange Hd) as [x Hx].
      rewrite Hx. simpl.
      assert (Hr : 0 <= dim * id /\ d + dim * id < dim * dof) by nia.
      assert (Hr2 : 0 <= nip * (d + dim * id) /\
                    ip + nip * (d + dim * id) < nip * (dim * dof)) by nia.
      rewrite int_Some by (apply in_range_index; nia). simpl.
      rewrite int_Some by (apply in_range_index; nia). simpl.
      rewrite int_Some by (apply in_range_index; nia). simpl.
      rewrite int_Some by (apply in_range_index; nia). simpl.
      destruct (split_index nip ip (d + dim * id) ltac:(lia)) as [Hm Hq].
      destruct (split_index dim d id ltac:(lia)) as [Hm' Hq'].
      destruct (store_at_filled f (W3 ip id d) (W3 ip id (d + 1))
        G2 (ip + nip * (d + dim * id)) x HF2) as (G3 & HG3 & HS3 & HF3).
      + lia.
      + unfold f. rewrite Hm, Hq, Hm', Hq', Ho. simpl. done.
      + intros j Hj [?|(Hjm & Hjq & Hjd)]; [by left; left|].
        destruct (decide ((j / nip) mod dim < d));
          [left; right; by split_and!|right].
        rewrite (join_index nip j) by lia.
        rewrite (join_index dim (j / nip)) by lia. nia.
      + exists G3. split; [done|]. split; [lia|done].
    - exists G2. split; [done|]. split; [done|].
      eapply filled_mono; [|exact HF2].
      intros j Hj [?|[Hjm Hlt]]; [by left; left|]. rewrite HS2 in Hj.
      assert (0 < dim) by nia.
      pose proof (Z.mod_pos_bound (j / nip) dim).
      destruct (decide (j / nip / dim < id)); [left; right; by split|].
      right. split_and!; lia. }
  destruct (for_upto_inv
    (fun ip G => Size G = nip * (dim * dof) /\ filled f (W1 ip) G)
    nip
    (fun ip G => for_upto dof (fun id G =>
       o ← orig_id dof_map id; inner ip id o G) G) G Hnip)
    as (G' & HC & HS & HF).
  - split; [done|]. intros j Hj Hlt. unfold W1 in Hlt. rewrite HG in Hj.
    assert (0 < nip) by nia. pose proof (Z.mod_pos_bound j nip). lia.
  - intros ip G1 Hip [HS1 HF1].
    destruct (for_upto_inv
      (fun id G => Size G = nip * (dim * dof) /\ filled f (W2 ip id) G)
      dof
      (fun id G => o ← orig_id dof_map id; inner ip id o G) G1 Hdof)
      as (G2 & HC2 & HS2 & HF2).
    + split; [done|]. eapply filled_mono; [|exact HF1].
      intros j Hj [?|[_ Hlt]]; [done|]. rewrite HS1 in Hj.
      assert (0 <= j / nip / dim);
        [apply Z.div_pos; [apply Z.div_pos|]; nia|lia].
    + intros id G2 Hid [HS2 HF2].
      destruct (orig_id_Some dof_map dof id Hmap Hid) as (o & Ho & Horange).
      rewrite Ho. simpl. by apply Hin.
    + exists G2. split; [done|]. split; [done|].
      eapply filled_mono; [|exact HF2].
      intros j Hj Hlt. unfold W1 in Hlt. rewrite HS2 in Hj.
      destruct (decide (j mod nip < ip)); [by left|right].
      split; [lia|]. assert (0 < dim) by nia.
      apply Z.div_lt_upper_bound; [lia|].
      apply Z.div_lt_upper_bound; lia.
  - exists G'. split; [done|]. split; [done|].
    eapply filled_mono; [|exact HF].
    intros j Hj _. unfold W1. rewrite HS in Hj. assert (0 < nip) by nia.
    pose proof (Z.mod_pos_bound j nip). lia.
Qed.

End GradTensor.

(** X22: [CalcGradTensor] fills [G] as the (nip x dim x dof) tensor in
    column major storage: when [G] has [nip * dim * dof] entries (a
    product within the ints), [dshape] has an entry for every shape
    function and direction, and [dof_map], if given, has [dof] entries
    below [dof], the call returns, entry [ip + nip * (d + dim * id)] of
    [G] is the derivative in direction [d] of shape function
    [dof_map[id]] (or [id], without [dof_map]) at point [ip], and nothing
    of the old content of [G] is left. *)
Theorem CalcGradTensor_layout {real_t : Type} (dim nip dof : Z)
    (CalcDShape : Z -> Z -> Z -> option real_t) (dof_map : option (list Z))
    (G : list real_t) :
  0 <= dim -> 0 <= nip -> 0 <= dof ->
  nip * (dim * dof) <= Int32.INT_MAX ->
  Size G = nip * (dim * dof) ->
  (forall ip i d, 0 <= ip < nip -> 0 <= i < dof -> 0 <= d < dim ->
     is_Some (CalcDShape ip i d)) ->
  (forall m, dof_map = Some m ->
     Size m = dof /\ forall o, o ∈ m -> 0 <= o < dof) ->
  exists G',
    FiniteElementsH1.CalcGradTensor dim nip dof CalcDShape dof_map G
      = Some G' /\
    Size G' = nip * (dim * dof) /\
    (forall ip id d, 0 <= ip < nip -> 0 <= id < dof -> 0 <= d < dim ->
       exists o x, FiniteElementsH1.orig_id dof_map id = Some o /\
         CalcDShape ip o d = Some x /\
         index G' (ip + nip * (d + dim * id)) = Some x) /\
    (forall G2, Size G2 = nip * (dim * dof) ->
       FiniteElementsH1.CalcGradTensor dim nip dof CalcDShape dof_map G2
         = Some G').
Proof.
  intros Hdim Hnip Hdof Hmax HG Hdshape Hmap.
  destruct (CalcGradTensor_filled dim nip dof CalcDShape dof_map
              Hdim Hnip Hdof Hmax Hdshape Hmap G HG) as (G' & HC & HS & HF).
  exists G'. split; [done|]. split; [done|]. split.
  - intros ip id d Hip Hid Hd.
    destruct (orig_id_Some dof_map dof id Hmap Hid) as (o & Ho & Horange).
    destruct (Hdshape ip o d Hip Horange Hd) as [x Hx].
    exists o, x. split; [done|]. split; [done|].
    assert (Hr : 0 <= dim * id /\ d + dim * id < dim * dof) by nia.
    assert (Hr2 : 0 <= nip * (d + dim * id) /\
                  ip + nip * (d + dim * id) < nip * (dim * dof)) by nia.
    rewrite (HF (ip + nip * (d + dim * id))); [|lia|done].
    destruct (split_index nip ip (d + dim * id) Hip) as [-> ->].
    destruct (split_index dim d id Hd) as [-> ->].
    rewrite Ho. simpl. done.
  - intros G2 HG2.
    destruct (CalcGradTensor_filled dim nip dof CalcDShape dof_map
                Hdim Hnip Hdof Hmax Hdshape Hmap G2 HG2)
      as (G2' & HC2 & HS2 & HF2).
    rewrite HC2. f_equal. eapply filled_all_eq; [lia|done|done].
Qed.

Lemma CalcGradTensor_layout_witness :
  exists G',
    FiniteElementsH1.CalcGradTensor 2 2 2
      (fun ip i d => Some (100 * ip + 10 * i + d)) (Some [1; 0])
      [0; 0; 0; 0; 0; 0; 0; 0] = Some G' /\
    Size G' = 2 * (2 * 2) /\
    (forall ip id d, 0 <= ip < 2 -> 0 <= id < 2 -> 0 <= d < 2 ->
       exists o x, FiniteElementsH1.orig_id (Some [1; 0]) id = Some o /\
         Some (100 * ip + 10 * o + d) = Some x /\
         index G' (ip + 2 * (d + 2 * id)) = Some x) /\
    (forall G2, Size G2 = 2 * (2 * 2) ->
       FiniteElementsH1.CalcGradTensor 2 2 2
         (fun ip i d => Some (100 * ip + 10 * i + d)) (Some [1; 0]) G2
         = Some G').
Proof.
  apply (CalcGradTensor_layout 2 2 2
           (fun ip i d => Some (100 * ip + 10 * i + d)) (Some [1; 0])
           [0; 0; 0; 0; 0; 0; 0; 0]).
  - lia.
  - lia.
  - lia.
  - vm_compute. discriminate.
  - reflexivity.
  - intros ip i d _ _ _. by eexists.
  - intros m [= <-]. split; [reflexivity|].
    intros o Ho. repeat (apply elem_of_cons in Ho as [->|Ho]; [lia|]).
    by apply elem_of_nil in Ho.
Defined.

(** ** The constants of the element classes *)

Lemma quot_exact (x n : Z) :
  0 <= x -> 0 < n -> x mod n = 0 -> n * Z.quot x n = x.
Proof.
  intros Hx Hn Hmod. rewrite Z.quot_div_nonneg by lia.
  pose proof (Z.div_mod x n). lia.
Qed.

Lemma triangle_even (P : Z) : ((P + 1) * (P + 2)) mod 2 = 0.
Proof.
  rewrite Z.mul_mod, !(Z.add_mod P) by lia.
  pose proof (Z.mod_pos_bound P 2 ltac:(lia)) as Hr.
  assert (Hc : P mod 2 = 0 \/ P mod 2 = 1) by lia.
  destruct Hc as [-> | ->]; reflexivity.
Qed.

Lemma tetrahedron_six (P : Z) : ((P + 1) * (P + 2) * (P + 3)) mod 6 = 0.
Proof.
  rewrite Z.mul_mod, (Z.mul_mod (P + 1)), !(Z.add_mod P) by lia.
  pose proof (Z.mod_pos_bound P 6 ltac:(lia)) as Hr.
  assert (Hc : P mod 6 = 0 \/ P mod 6 = 1 \/ P mod 6 = 2 \/
               P mod 6 = 3 \/ P mod 6 = 4 \/ P mod 6 = 5) by lia.
  destruct Hc as [-> | [-> | [-> | [-> | [-> | ->]]]]]; reflexivity.
Qed.

Lemma int_cases (x : Z) :
  (Int32.in_range x /\ FiniteElementsH1.int x = Some x) \/
  (~ Int32.in_range x /\ FiniteElementsH1.int x = None).
Proof.
  unfold FiniteElementsH1.int, Int32.in_range. case_decide; [left|right]; done.
Qed.

Ltac int_cases :=
  repeat match goal with
  | |- context [FiniteElementsH1.int ?x] =>
    destruct (int_cases x) as [[? ->]|[? ->]]; simpl
  | H : context [FiniteElementsH1.int ?x] |- _ =>
    destruct (int_cases x) as [[? Hx]|[? Hx]]; rewrite Hx in H; clear Hx;
    simpl in H
  end.

Ltac int_bounds :=
  unfold Int32.in_range, Int32.INT_MIN, Int32.INT_MAX, Int32.half in *.

Lemma dofs_TRIANGLE (P n : Z) :
  0 <= P ->
  FiniteElementsH1.dofs FiniteElementsH1.TRIANGLE P = Some n ->
  2 * n = (P + 1) * (P + 2).
Proof.
  intros HP Hn. unfold FiniteElementsH1.dofs in Hn. int_cases; try done.
  injection Hn as <-. apply quot_exact; [nia|lia|apply triangle_even].
Qed.

Lemma dofs_TETRAHEDRON (P n : Z) :
  0 <= P ->
  FiniteElementsH1.dofs FiniteElementsH1.TETRAHEDRON P = Some n ->
  6 * n = (P + 1) * (P + 2) * (P + 3).
Proof.
  intros HP Hn. unfold FiniteElementsH1.dofs in Hn. int_cases; try done.
  injection Hn as <-. apply quot_exact; [nia|lia|apply tetrahedron_six].
Qed.

(** X23: the constant [dofs] of the element classes for a degree
    [P >= 0], computed in [int]: the expression does not overflow exactly
    up to the degree 2147483646 for the segment, 46339 for the triangle
    and the square, 1288 for the tetrahedron and 1289 for the cube; where
    it does not, the divisions in the counts of the triangle and the
    tetrahedron are exact, and a simplex of degree [P + 1] has the dofs
    of degree [P] and those of the simplex one dimension lower, of degree
    [P + 1]. *)
Theorem H1_FiniteElement_dofs (P : Z) :
  0 <= P ->
  (is_Some (FiniteElementsH1.dofs FiniteElementsH1.SEGMENT P)
     <-> P <= 2147483646) /\
  (is_Some (FiniteElementsH1.dofs FiniteElementsH1.TRIANGLE P)
     <-> P <= 46339) /\
  (is_Some (FiniteElementsH1.dofs FiniteElementsH1.SQUARE P)
     <-> P <= 46339) /\
  (is_Some (FiniteElementsH1.dofs FiniteElementsH1.TETRAHEDRON P)
     <-> P <= 1288) /\
  (is_Some (FiniteElementsH1.dofs FiniteElementsH1.CUBE P)
     <-> P <= 1289) /\
  (forall n, FiniteElementsH1.dofs FiniteElementsH1.TRIANGLE P = Some n ->
     2 * n = (P + 1) * (P + 2)) /\
  (forall n, FiniteElementsH1.dofs FiniteElementsH1.TETRAHEDRON P = Some n ->
     6 * n = (P + 1) * (P + 2) * (P + 3)) /\
  (forall n n' s,
     FiniteElementsH1.dofs FiniteElementsH1.TRIANGLE P = Some n ->
     FiniteElementsH1.dofs FiniteElementsH1.TRIANGLE (P + 1) = Some n' ->
     FiniteElementsH1.dofs FiniteElementsH1.SEGMENT (P + 1) = Some s ->
     n' = n + s) /\
  (forall n n' s,
     FiniteElementsH1.dofs FiniteElementsH1.TETRAHEDRON P = Some n ->
     FiniteElementsH1.dofs FiniteElementsH1.TETRAHEDRON (P + 1) = Some n' ->
     FiniteElementsH1.dofs FiniteElementsH1.TRIANGLE (P + 1) = Some s ->
     n' = n + s).
Proof.
  intros HP. split_and!.
  - unfold FiniteElementsH1.dofs. int_cases; int_bounds.
    + split; [lia|by eexists].
    + split; [by intros [? ?]|lia].
  - unfold FiniteElementsH1.dofs. int_cases; int_bounds;
      (split; [first [by intros [? ?] | intros _; nia] |
               first [by eexists | intros ?; exfalso; nia]]).
  - unfold FiniteElementsH1.dofs. int_cases; int_bounds;
      (split; [first [by intros [? ?] | intros _; nia] |
               first [by eexists | intros ?; exfalso; nia]]).
  - unfold FiniteElementsH1.dofs. int_cases; int_bounds;
      (split; [first [by intros [? ?] | intros _; nia] |
               first [by eexists | intros ?; exfalso;
                      assert ((P + 1) * (P + 2) <= 1289 * 1290) by nia;
                      nia]]).
  - unfold FiniteElementsH1.dofs. int_cases; int_bounds;
      (split; [first [by intros [? ?] | intros _; nia] |
               first [by eexists | intros ?; exfalso;
                      assert ((P + 1) * (P + 1) <= 1290 * 1290) by nia;
                      nia]]).
  - intros n. by apply dofs_TRIANGLE.
  - intros n. by apply dofs_TETRAHEDRON.
  - intros n n' s Hn Hn' Hs.
    apply dofs_TRIANGLE in Hn; [|lia]. apply dofs_TRIANGLE in Hn'; [|lia].
    unfold FiniteElementsH1.dofs in Hs. int_cases; [|done].
    injection Hs as <-. nia.
  - intros n n' s Hn Hn' Hs.
    apply dofs_TETRAHEDRON in Hn; [|lia].
    apply dofs_TETRAHEDRON in Hn'; [|lia].
    apply dofs_TRIANGLE in Hs; [|lia]. nia.
Qed.

Lemma H1_FiniteElement_dofs_witness :
  (is_Some (FiniteElementsH1.dofs FiniteElementsH1.SEGMENT 2)
     <-> 2 <= 2147483646) /\
  (is_Some (FiniteElementsH1.dofs FiniteElementsH1.TRIANGLE 2)
     <-> 2 <= 46339) /\
  (is_Some (FiniteElementsH1.dofs FiniteElementsH1.SQUARE 2)
     <-> 2 <= 46339) /\
  (is_Some (FiniteElementsH1.dofs FiniteElementsH1.TETRAHEDRON 2)
     <-> 2 <= 1288) /\
  (is_Some (FiniteElementsH1.dofs FiniteElementsH1.CUBE 2)
     <-> 2 <= 1289) /\
  (forall n, FiniteElementsH1.dofs FiniteElementsH1.TRIANGLE 2 = Some n ->
     2 * n = (2 + 1) * (2 + 2)) /\
  (forall n, FiniteElementsH1.dofs FiniteElementsH1.TETRAHEDRON 2 = Some n ->
     6 * n = (2 + 1) * (2 + 2) * (2 + 3)) /\
  (forall n n' s,
     FiniteElementsH1.dofs FiniteElementsH1.TRIANGLE 2 = Some n ->
     FiniteElementsH1.dofs FiniteElementsH1.TRIANGLE (2 + 1) = Some n' ->
     FiniteElementsH1.dofs FiniteElementsH1.SEGMENT (2 + 1) = Some s ->
     n' = n + s) /\
  (forall n n' s,
     FiniteElementsH1.dofs FiniteElementsH1.TETRAHEDRON 2 = Some n ->
     FiniteElementsH1.dofs FiniteElementsH1.TETRAHEDRON (2 + 1) = Some n' ->
     FiniteElementsH1.dofs FiniteElementsH1.TRIANGLE (2 + 1) = Some s ->
     n' = n + s).
Proof. apply (H1_FiniteElement_dofs 2). lia. Defined.
